(** * CalorieCurve backend: the response-normalisation core of [src/index.js]

    A shallow embedding of the pure helpers of the Express server
    ([stripCodeFences], [safeParseJsonArrayFromText],
    [safeParseJsonObjectFromText], [parseAmountUnit],
    [extractGramsFromPortion], [scaleNutrients]) and of the data path of the
    two handlers [/api/foods] and [/api/suggestions], from the text returned
    by the generative model to the JSON body that is sent back.

    Conventions.
    - A JavaScript string is the list of its UTF-16 code units ([jsstring]).
    - A JavaScript number is an IEEE-754 binary64 value: Rocq's primitive
      [float], whose operations are the hardware ones.  Decimal text is
      converted with the correctly rounded division of [SpecFloat].
    - [null] and [undefined] results are [None]; a value produced by
      [JSON.parse] is a [value]. *)

From Stdlib Require Import ZArith NArith List Bool Ascii String Floats Lia.
Import ListNotations.

Local Open Scope Z_scope.
Local Set Warnings "-register-all".

(* ================================================================== *)
(** * Strings *)
(* ================================================================== *)

Module JsString.

(** A UTF-16 code unit. *)
Definition char := N.

Definition jsstring := list char.

(** The code units of an ASCII literal. *)
Definition str (s : string) : jsstring :=
  List.map N_of_ascii (list_ascii_of_string s).

(** The code unit of an ASCII character. *)
Definition ch (a : ascii) : char := N_of_ascii a.
Arguments ch a%_char.

Definition char_eqb (a b : char) : bool := N.eqb a b.

Fixpoint eqb (a b : jsstring) : bool :=
  match a, b with
  | [], [] => true
  | x :: a', y :: b' => char_eqb x y && eqb a' b'
  | _, _ => false
  end.

(** ECMAScript WhiteSpace and LineTerminator code points: what [\s] matches
    and what [String.prototype.trim] strips. *)
Definition is_space (c : char) : bool :=
  let c := Z.of_N c in
  ((9 <=? c) && (c <=? 13))
  || (c =? 32) || (c =? 160) || (c =? 5760)
  || ((8192 <=? c) && (c <=? 8202))
  || (c =? 8232) || (c =? 8233) || (c =? 8239) || (c =? 8287)
  || (c =? 12288) || (c =? 65279).

Definition is_digit (c : char) : bool :=
  let c := Z.of_N c in (48 <=? c) && (c <=? 57).

(** [[a-zA-Z]] *)
Definition is_alpha (c : char) : bool :=
  let c := Z.of_N c in
  ((65 <=? c) && (c <=? 90)) || ((97 <=? c) && (c <=? 122)).

(** [toLowerCase] on the ASCII range.  The source applies it to unit tokens
    only, which the quantity pattern restricts to ASCII letters. *)
Definition lower_char (c : char) : char :=
  if (65 <=? Z.of_N c) && (Z.of_N c <=? 90) then (c + 32)%N else c.

Definition toLowerCase (s : jsstring) : jsstring := List.map lower_char s.

Fixpoint dropWhile (p : char -> bool) (s : jsstring) : jsstring :=
  match s with
  | [] => []
  | c :: r => if p c then dropWhile p r else s
  end.

Fixpoint takeWhile (p : char -> bool) (s : jsstring) : jsstring :=
  match s with
  | [] => []
  | c :: r => if p c then c :: takeWhile p r else []
  end.

Definition trimStart (s : jsstring) : jsstring := dropWhile is_space s.

Definition trimEnd (s : jsstring) : jsstring :=
  rev (dropWhile is_space (rev s)).

(** [String.prototype.trim] *)
Definition trim (s : jsstring) : jsstring := trimEnd (trimStart s).

(** [p] is a prefix of [s]: the rest of [s] after it. *)
Fixpoint strip_prefix (p s : jsstring) : option jsstring :=
  match p, s with
  | [], _ => Some s
  | _ :: _, [] => None
  | x :: p', y :: s' => if char_eqb x y then strip_prefix p' s' else None
  end.

(** The same, comparing letters without case (the [i] flag of a pattern
    whose letters are ASCII); the matched text is returned as it stands in
    [s]. *)
Fixpoint strip_prefix_ci (p s : jsstring) : option (jsstring * jsstring) :=
  match p, s with
  | [], _ => Some ([], s)
  | _ :: _, [] => None
  | x :: p', y :: s' =>
      if char_eqb (lower_char x) (lower_char y) then
        match strip_prefix_ci p' s' with
        | Some (m, r) => Some (y :: m, r)
        | None => None
        end
      else None
  end.

(** [String.prototype.includes] *)
Fixpoint includes (s p : jsstring) : bool :=
  match strip_prefix p s with
  | Some _ => true
  | None => match s with [] => false | _ :: r => includes r p end
  end.

(** [String.prototype.indexOf] of a single code unit; [None] is [-1]. *)
Fixpoint indexOf (c : char) (s : jsstring) : option nat :=
  match s with
  | [] => None
  | x :: r =>
      if char_eqb x c then Some O
      else match indexOf c r with Some i => Some (S i) | None => None end
  end.

(** [String.prototype.lastIndexOf] of a single code unit. *)
Fixpoint lastIndexOf (c : char) (s : jsstring) : option nat :=
  match s with
  | [] => None
  | x :: r =>
      match lastIndexOf c r with
      | Some i => Some (S i)
      | None => if char_eqb x c then Some O else None
      end
  end.

(** [s.substring(i, j)] for [i <= j]. *)
Definition substring (i j : nat) (s : jsstring) : jsstring :=
  firstn (j - i) (skipn i s).

End JsString.

Import JsString.

(* ================================================================== *)
(** * Numbers *)
(* ================================================================== *)

Module JsNumber.

(** [Number.isNaN] *)
Definition isNaN (x : float) : bool := negb (PrimFloat.eqb x x).

(** [ToBoolean] of a number: [0], [-0] and [NaN] are falsy. *)
Definition truthy (x : float) : bool :=
  negb (PrimFloat.eqb x 0%float) && negb (isNaN x).

(** The Number value of the rational [p / q]: round to nearest, ties to
    even, overflow to infinity.  [SFdiv] divides the integer mantissas
    exactly and rounds once. *)
Definition round_ratio (neg : bool) (p q : positive) : float :=
  SF2Prim (SFdiv prec emax (S754_finite neg p 0) (S754_finite false q 0)).

(** The Number value of [d * 10 ^ e10] for an integer [d >= 0] read from
    decimal text; a zero keeps the sign of the text. *)
Definition of_decimal (neg : bool) (d e10 : Z) : float :=
  match d with
  | Zpos p =>
      round_ratio neg (p * Z.to_pos (10 ^ Z.max e10 0))
                  (Z.to_pos (10 ^ Z.max (- e10) 0))
  | _ => if neg then neg_zero else 0%float
  end.

Definition digit_value (c : char) : Z := Z.of_N c - 48.

(** The integer written by a run of digits in base [b]. *)
Definition digits_value_base (b : Z) (ds : jsstring) : Z :=
  fold_left (fun acc c => b * acc + digit_value c) ds 0.

Definition digits_value : jsstring -> Z := digits_value_base 10.

Definition digit_char (d : Z) : char := Z.to_N (d + 48).

Fixpoint digits_of_fuel (fuel : nat) (n : Z) (acc : jsstring) : jsstring :=
  match fuel with
  | O => acc
  | S fuel' =>
      let acc' := digit_char (n mod 10) :: acc in
      if n <? 10 then acc' else digits_of_fuel fuel' (n / 10) acc'
  end.

(** The decimal digits of a non-negative integer, most significant first.
    Every step divides by ten, so one more step than the binary length is
    enough. *)
Definition digits_of (n : Z) : jsstring :=
  digits_of_fuel (S (Z.to_nat (Z.log2 n))) n [].

(** ** Reading decimal literals *)

(** A [StrDecimalLiteral]: a sign and either [Infinity] or integer digits,
    fraction digits and a decimal exponent. *)
Inductive literal :=
| LInfinity (neg : bool)
| LDecimal (neg : bool) (int frac : jsstring) (exp : Z).

Definition literal_value (l : literal) : float :=
  match l with
  | LInfinity neg => if neg then neg_infinity else infinity
  | LDecimal neg i f e =>
      of_decimal neg (digits_value (i ++ f)) (e - Z.of_nat (List.length f))
  end.

(** An [ExponentPart] at the head of [s], when there is one. *)
Definition scan_exponent (s : jsstring) : option (Z * jsstring) :=
  match s with
  | c :: r =>
      if char_eqb c (ch "e") || char_eqb c (ch "E") then
        let '(neg, r') :=
          match r with
          | sg :: r1 =>
              if char_eqb sg (ch "-") then (true, r1)
              else if char_eqb sg (ch "+") then (false, r1)
              else (false, r)
          | [] => (false, r)
          end in
        match takeWhile is_digit r' with
        | [] => None
        | ds => Some (if neg then - digits_value ds else digits_value ds,
                      dropWhile is_digit r')
        end
      else None
  | [] => None
  end.

(** The longest prefix of [s] that is a [StrUnsignedDecimalLiteral] other
    than [Infinity]. *)
Definition scan_unsigned (neg : bool) (s : jsstring)
  : option (literal * jsstring) :=
  let i := takeWhile is_digit s in
  let r := dropWhile is_digit s in
  let '(dot, f, r1) :=
    match r with
    | c :: r' =>
        if char_eqb c (ch ".")
        then (true, takeWhile is_digit r', dropWhile is_digit r')
        else (false, [], r)
    | [] => (false, [], r)
    end in
  match i, f with
  | [], [] => None
  | _, _ =>
      match scan_exponent r1 with
      | Some (e, r2) => Some (LDecimal neg i f e, r2)
      | None => Some (LDecimal neg i f 0, r1)
      end
  end.

(** The longest prefix of [s] that is a [StrDecimalLiteral]. *)
Definition scan_decimal (s : jsstring) : option (literal * jsstring) :=
  let '(neg, r) :=
    match s with
    | c :: r' =>
        if char_eqb c (ch "-") then (true, r')
        else if char_eqb c (ch "+") then (false, r')
        else (false, s)
    | [] => (false, s)
    end in
  match strip_prefix (str "Infinity") r with
  | Some r' => Some (LInfinity neg, r')
  | None => scan_unsigned neg r
  end.

(** [parseFloat]: leading white space is skipped and the longest decimal
    literal at the head is read; [NaN] when there is none. *)
Definition parseFloat (s : jsstring) : float :=
  match scan_decimal (trimStart s) with
  | Some (l, _) => literal_value l
  | None => nan
  end.

Definition is_base_digit (b : Z) (c : char) : bool :=
  let c := Z.of_N c in
  if b =? 16 then
    ((48 <=? c) && (c <=? 57)) || ((65 <=? c) && (c <=? 70))
    || ((97 <=? c) && (c <=? 102))
  else (48 <=? c) && (c <? 48 + b).

Definition hex_value (c : char) : Z :=
  let c := Z.of_N c in
  if c <=? 57 then c - 48 else if c <=? 70 then c - 55 else c - 87.

(** A [NonDecimalIntegerLiteral]: [0x], [0o] or [0b] and digits. *)
Definition scan_nondecimal (s : jsstring) : option float :=
  match s with
  | z :: p :: ds =>
      let base :=
        if char_eqb p (ch "x") || char_eqb p (ch "X") then 16
        else if char_eqb p (ch "o") || char_eqb p (ch "O") then 8
        else if char_eqb p (ch "b") || char_eqb p (ch "B") then 2
        else 0 in
      if char_eqb z (ch "0") && negb (base =? 0)
         && negb (Nat.eqb (List.length ds) 0) && forallb (is_base_digit base) ds
      then Some (of_decimal false
                   (fold_left (fun acc c => base * acc + hex_value c) ds 0) 0)
      else None
  | _ => None
  end.

(** [StringToNumber], the conversion behind [Number(string)] and the unary
    plus: surrounding white space is ignored, the empty text is [0], and
    text that is not a numeric literal from end to end is [NaN]. *)
Definition StringToNumber (s : jsstring) : float :=
  match trim s with
  | [] => 0%float
  | t =>
      match scan_nondecimal t with
      | Some v => v
      | None =>
          match scan_decimal t with
          | Some (l, []) => literal_value l
          | _ => nan
          end
      end
  end.

(** ** Writing numbers *)

(** A finite positive number [m * 2 ^ e] as an exact fraction. *)
Definition fraction_of (m : positive) (e : Z) : Z * Z :=
  (Zpos m * 2 ^ Z.max e 0, 2 ^ Z.max (- e) 0).

(** [10 ^ n <= p / q] *)
Definition ge_pow10 (p q n : Z) : bool :=
  if 0 <=? n then q * 10 ^ n <=? p else q <=? p * 10 ^ (- n).

Fixpoint exp10_down (fuel : nat) (p q n : Z) : Z :=
  match fuel with
  | O => n
  | S fuel' => if ge_pow10 p q n then n else exp10_down fuel' p q (n - 1)
  end.

Fixpoint exp10_up (fuel : nat) (p q n : Z) : Z :=
  match fuel with
  | O => n
  | S fuel' =>
      if ge_pow10 p q (n + 1) then exp10_up fuel' p q (n + 1) else n
  end.

(** The [n] with [10 ^ (n - 1) <= p / q < 10 ^ n], searched from the
    estimate that the binary lengths give; binary64 magnitudes lie between
    [10 ^ -324] and [10 ^ 309]. *)
Definition decimal_exponent (p q : Z) : Z :=
  let est := (Z.log2 p - Z.log2 q) * 30103 / 100000 in
  exp10_up 700 p q (exp10_down 700 p q est) + 1.

(** The [k]-digit integer [s] for which [s * 10 ^ (n - k)] is the Number
    [x = p / q], when there is one: of the two integers around
    [x / 10 ^ (n - k)], the nearer one that reads back as [x] (the even one
    when both are as near).  The result carries its own [n], one more when
    [s] reached [10 ^ k]. *)
Definition digits_candidate (x : float) (p q n k : Z) : option (Z * Z) :=
  let a := p * 10 ^ Z.max (k - n) 0 in
  let b := q * 10 ^ Z.max (n - k) 0 in
  let lo := a / b in
  let hi := lo + 1 in
  let reads_back s := PrimFloat.eqb (of_decimal false s (n - k)) x in
  let norm s := if s =? 10 ^ k then (10 ^ (k - 1), n + 1) else (s, n) in
  match reads_back lo, reads_back hi with
  | true, true =>
      if 2 * a <? (lo + hi) * b then Some (norm lo)
      else if (lo + hi) * b <? 2 * a then Some (norm hi)
      else Some (norm (if Z.even lo then lo else hi))
  | true, false => Some (norm lo)
  | false, true => Some (norm hi)
  | false, false => None
  end.

(** The shortest digits: the least [k] that has a candidate.  Seventeen
    digits identify every binary64 value. *)
Fixpoint shortest_digits (fuel : nat) (x : float) (p q n k : Z) : Z * Z :=
  match fuel with
  | O => (p * 10 ^ Z.max (k - n) 0 / (q * 10 ^ Z.max (n - k) 0), n)
  | S fuel' =>
      match digits_candidate x p q n k with
      | Some r => r
      | None => shortest_digits fuel' x p q n (k + 1)
      end
  end.

Definition zeros (n : Z) : jsstring := repeat (ch "0") (Z.to_nat n).

(** [Number::toString] in radix ten for a finite positive number given by
    its mantissa and exponent. *)
Definition toString_positive (x : float) (m : positive) (e : Z) : jsstring :=
  let '(p, q) := fraction_of m e in
  let '(s, n) := shortest_digits 17 x p q (decimal_exponent p q) 1 in
  let ds := digits_of s in
  let k := Z.of_nat (List.length ds) in
  if (k <=? n) && (n <=? 21) then ds ++ zeros (n - k)
  else if (0 <? n) && (n <=? 21) then
    firstn (Z.to_nat n) ds ++ ch "." :: skipn (Z.to_nat n) ds
  else if (-6 <? n) && (n <=? 0) then
    ch "0" :: ch "." :: zeros (- n) ++ ds
  else
    let ex := n - 1 in
    let tail :=
      ch "e" :: (if ex <? 0 then ch "-" else ch "+") :: digits_of (Z.abs ex) in
    match ds with
    | [d] => d :: tail
    | d :: ds' => d :: ch "." :: ds' ++ tail
    | [] => tail
    end.

(** [Number::toString], the conversion behind [String(number)] and template
    literals. *)
Definition toString (x : float) : jsstring :=
  match Prim2SF x with
  | S754_nan => str "NaN"
  | S754_zero _ => str "0"
  | S754_infinity neg => if neg then str "-Infinity" else str "Infinity"
  | S754_finite neg m e =>
      if neg then ch "-" :: toString_positive (abs x) m e
      else toString_positive x m e
  end.

(** [Number.prototype.toFixed] with [f] fraction digits, [0 <= f <= 100].
    Below [10 ^ 21] the digits are those of the integer [n] nearest to
    [x * 10 ^ f], the larger one on a tie, the sign apart. *)
Definition toFixed (x : float) (f : nat) : jsstring :=
  let fixed (n : Z) : jsstring :=
    let m := digits_of n in
    match f with
    | O => m
    | _ =>
        let m := repeat (ch "0") (S f - List.length m) ++ m in
        let k := List.length m in
        firstn (k - f) m ++ ch "." :: skipn (k - f) m
    end in
  match Prim2SF x with
  | S754_nan => str "NaN"
  | S754_infinity neg => if neg then str "-Infinity" else str "Infinity"
  | S754_zero _ => fixed 0
  | S754_finite neg m e =>
      let '(p, q) := fraction_of m e in
      let body :=
        if 10 ^ 21 * q <=? p then toString_positive (abs x) m e
        else fixed ((2 * p * 10 ^ Z.of_nat f + q) / (2 * q)) in
      if neg then ch "-" :: body else body
  end.

End JsNumber.

(* ================================================================== *)
(** * JSON values and [JSON.parse] *)
(* ================================================================== *)

Module Json.

(** What [JSON.parse] produces.  An object keeps its properties in
    insertion order, one binding per key. *)
Inductive value :=
| JNull
| JBool (b : bool)
| JNumber (x : float)
| JString (s : jsstring)
| JArray (items : list value)
| JObject (props : list (jsstring * value)).

(** [o[k]] on own properties; [None] is [undefined]. *)
Fixpoint lookup (k : jsstring) (props : list (jsstring * value))
  : option value :=
  match props with
  | [] => None
  | (k', v) :: rest => if JsString.eqb k k' then Some v else lookup k rest
  end.

(** Defining property [k]: a repeated key keeps its place and takes the
    later value. *)
Fixpoint define (k : jsstring) (v : value) (props : list (jsstring * value))
  : list (jsstring * value) :=
  match props with
  | [] => [(k, v)]
  | (k', v') :: rest =>
      if JsString.eqb k k' then (k', v) :: rest
      else (k', v') :: define k v rest
  end.

(** JSON white space: space, tab, line feed, carriage return. *)
Definition is_ws (c : char) : bool :=
  char_eqb c 32%N || char_eqb c 9%N || char_eqb c 10%N || char_eqb c 13%N.

Definition skip_ws : jsstring -> jsstring := dropWhile is_ws.

Definition hex4 (a b c d : char) : option char :=
  if forallb (JsNumber.is_base_digit 16) [a; b; c; d] then
    Some (Z.to_N (((JsNumber.hex_value a * 16 + JsNumber.hex_value b) * 16
                   + JsNumber.hex_value c) * 16 + JsNumber.hex_value d))
  else None.

(** The characters of a string literal after its opening quote, up to the
    closing one, and what follows. *)
Fixpoint parse_string (s : jsstring) : option (jsstring * jsstring) :=
  let cons c (r : option (jsstring * jsstring)) :=
    match r with Some (t, rest) => Some (c :: t, rest) | None => None end in
  match s with
  | [] => None
  | c :: r =>
      if char_eqb c 34%N then Some ([], r)
      else if char_eqb c (ch "\") then
        match r with
        | e :: r' =>
            if char_eqb e 34%N then cons 34%N (parse_string r')
            else if char_eqb e (ch "\") then cons (ch "\") (parse_string r')
            else if char_eqb e (ch "/") then cons (ch "/") (parse_string r')
            else if char_eqb e (ch "b") then cons 8%N (parse_string r')
            else if char_eqb e (ch "f") then cons 12%N (parse_string r')
            else if char_eqb e (ch "n") then cons 10%N (parse_string r')
            else if char_eqb e (ch "r") then cons 13%N (parse_string r')
            else if char_eqb e (ch "t") then cons 9%N (parse_string r')
            else if char_eqb e (ch "u") then
              match r' with
              | a :: b :: c :: d :: r'' =>
                  match hex4 a b c d with
                  | Some u => cons u (parse_string r'')
                  | None => None
                  end
              | _ => None
              end
            else None
        | [] => None
        end
      else if (c <? 32)%N then None
      else cons c (parse_string r)
  end.

(** A number token at the head of [s]: [-? int frac? exp?]. *)
Definition parse_number (s : jsstring) : option (float * jsstring) :=
  let '(neg, r) :=
    match s with
    | c :: r' => if char_eqb c (ch "-") then (true, r') else (false, s)
    | [] => (false, s)
    end in
  let int_part :=
    match r with
    | c :: r' =>
        if char_eqb c (ch "0") then Some ([c], r')
        else if is_digit c then Some (takeWhile is_digit r, dropWhile is_digit r)
        else None
    | [] => None
    end in
  match int_part with
  | None => None
  | Some (i, r1) =>
      let frac_part :=
        match r1 with
        | c :: r' =>
            if char_eqb c (ch ".") then
              match takeWhile is_digit r' with
              | [] => None
              | f => Some (f, dropWhile is_digit r')
              end
            else Some ([], r1)
        | [] => Some ([], r1)
        end in
      match frac_part with
      | None => None
      | Some (f, r2) =>
          let exp_part :=
            match r2 with
            | c :: _ =>
                if char_eqb c (ch "e") || char_eqb c (ch "E") then
                  JsNumber.scan_exponent r2
                else Some (0, r2)
            | [] => Some (0, r2)
            end in
          match exp_part with
          | None => None
          | Some (e, r3) =>
              Some (JsNumber.literal_value (JsNumber.LDecimal neg i f e), r3)
          end
      end
  end.

(** The value at the head of [s] and the text after it.  [fuel] bounds the
    calls; each call reads at least one character of what it is given. *)
Fixpoint parse_value (fuel : nat) (s : jsstring) {struct fuel}
  : option (value * jsstring) :=
  match fuel with
  | O => None
  | S fuel' =>
      match skip_ws s with
      | [] => None
      | c :: r =>
          if char_eqb c (ch "[") then
            match skip_ws r with
            | c' :: r' =>
                if char_eqb c' (ch "]") then Some (JArray [], r')
                else parse_elements fuel' r []
            | [] => None
            end
          else if char_eqb c (ch "{") then
            match skip_ws r with
            | c' :: r' =>
                if char_eqb c' (ch "}") then Some (JObject [], r')
                else parse_members fuel' r []
            | [] => None
            end
          else if char_eqb c 34%N then
            match parse_string r with
            | Some (t, r') => Some (JString t, r')
            | None => None
            end
          else if char_eqb c (ch "t") then
            match strip_prefix (str "rue") r with
            | Some r' => Some (JBool true, r')
            | None => None
            end
          else if char_eqb c (ch "f") then
            match strip_prefix (str "alse") r with
            | Some r' => Some (JBool false, r')
            | None => None
            end
          else if char_eqb c (ch "n") then
            match strip_prefix (str "ull") r with
            | Some r' => Some (JNull, r')
            | None => None
            end
          else
            match parse_number (c :: r) with
            | Some (x, r') => Some (JNumber x, r')
            | None => None
            end
      end
  end

(** The elements of an array after [[] or a comma; [acc] holds the earlier
    ones, last first. *)
with parse_elements (fuel : nat) (s : jsstring) (acc : list value)
  {struct fuel} : option (value * jsstring) :=
  match fuel with
  | O => None
  | S fuel' =>
      match parse_value fuel' s with
      | None => None
      | Some (v, r) =>
          match skip_ws r with
          | c :: r' =>
              if char_eqb c (ch ",") then parse_elements fuel' r' (v :: acc)
              else if char_eqb c (ch "]") then
                Some (JArray (rev (v :: acc)), r')
              else None
          | [] => None
          end
      end
  end

(** The members of an object after [{] or a comma. *)
with parse_members (fuel : nat) (s : jsstring)
  (acc : list (jsstring * value)) {struct fuel}
  : option (value * jsstring) :=
  match fuel with
  | O => None
  | S fuel' =>
      match skip_ws s with
      | q :: r =>
          if char_eqb q 34%N then
            match parse_string r with
            | None => None
            | Some (k, r1) =>
                match skip_ws r1 with
                | c :: r2 =>
                    if char_eqb c (ch ":") then
                      match parse_value fuel' r2 with
                      | None => None
                      | Some (v, r3) =>
                          match skip_ws r3 with
                          | c' :: r4 =>
                              if char_eqb c' (ch ",") then
                                parse_members fuel' r4 (define k v acc)
                              else if char_eqb c' (ch "}") then
                                Some (JObject (define k v acc), r4)
                              else None
                          | [] => None
                          end
                      end
                    else None
                | [] => None
                end
            end
          else None
      | [] => None
      end
  end.

(** [JSON.parse]: one value with white space around it; [None] is the
    [SyntaxError].  Twice the length of the text, and one, is fuel enough
    (see [parse_value_fuel]). *)
Definition parse (s : jsstring) : option value :=
  match parse_value (S (2 * List.length s)) s with
  | Some (v, r) => match skip_ws r with [] => Some v | _ => None end
  | None => None
  end.

(** ** Coercions of parsed values *)

(** [ToBoolean] *)
Definition truthy (v : value) : bool :=
  match v with
  | JNull => false
  | JBool b => b
  | JNumber x => JsNumber.truthy x
  | JString s => negb (JsString.eqb s [])
  | JArray _ | JObject _ => true
  end.

(** [typeof v === 'object'] *)
Definition typeof_object (v : value) : bool :=
  match v with
  | JNull | JArray _ | JObject _ => true
  | _ => false
  end.

(** [Array.isArray] *)
Definition isArray (v : value) : bool :=
  match v with JArray _ => true | _ => false end.

(** [v[k]] for a key that is neither an index nor [length] nor a name the
    prototypes define, as all keys read by the source are. *)
Definition prop (v : value) (k : jsstring) : option value :=
  match v with
  | JObject props => lookup k props
  | _ => None
  end.

(** [ToString].  An array joins the strings of its elements with commas,
    [null] elements as the empty string.  A plain object is
    ["[object Object]"], unless it has a property named [toString]: a parsed
    value is never callable, no primitive is obtained, and the conversion
    throws a [TypeError] ([None]). *)
Fixpoint ToString (v : value) : option jsstring :=
  match v with
  | JNull => Some (str "null")
  | JBool b => Some (if b then str "true" else str "false")
  | JNumber x => Some (JsNumber.toString x)
  | JString s => Some s
  | JArray items =>
      (fix join (l : list value) : option jsstring :=
         let element e :=
           match e with JNull => Some [] | _ => ToString e end in
         match l with
         | [] => Some []
         | [e] => element e
         | e :: r =>
             match element e, join r with
             | Some a, Some b => Some (a ++ ch "," :: b)
             | _, _ => None
             end
         end) items
  | JObject props =>
      match lookup (str "toString") props with
      | Some _ => None
      | None => Some (str "[object Object]")
      end
  end.

(** [ToNumber]; objects and arrays go through their string. *)
Definition ToNumber (v : value) : option float :=
  match v with
  | JNull => Some 0%float
  | JBool b => Some (if b then 1%float else 0%float)
  | JNumber x => Some x
  | JString s => Some (JsNumber.StringToNumber s)
  | JArray _ | JObject _ =>
      match ToString v with
      | Some s => Some (JsNumber.StringToNumber s)
      | None => None
      end
  end.

End Json.

Import Json.

(* ================================================================== *)
(** * The helpers of [src/index.js] *)
(* ================================================================== *)

(** ** Text extraction *)

Definition backtick : char := 96%N.

Definition is_fence (a b c : char) : bool :=
  char_eqb a backtick && char_eqb b backtick && char_eqb c backtick.

(** [s.replace(/```[a-zA-Z]*\n?/g, '')], scanning from the left.  [in_tag]
    holds after three backticks, while the letters of the language tag and
    one line feed still belong to the match. *)
Fixpoint remove_fence_tags (in_tag : bool) (s : jsstring) : jsstring :=
  match s with
  | [] => []
  | c :: r =>
      if in_tag && is_alpha c then remove_fence_tags true r
      else if in_tag && char_eqb c 10%N then remove_fence_tags false r
      else
        match s with
        | a :: b :: c' :: r' =>
            if is_fence a b c' then remove_fence_tags true r'
            else c :: remove_fence_tags false r
        | _ => c :: remove_fence_tags false r
        end
  end.

(** [s.replace(/```/g, '')] *)
Fixpoint remove_fences (s : jsstring) : jsstring :=
  match s with
  | [] => []
  | c :: r =>
      match s with
      | a :: b :: c' :: r' =>
          if is_fence a b c' then remove_fences r'
          else c :: remove_fences r
      | _ => c :: remove_fences r
      end
  end.

Definition stripCodeFences (text : jsstring) : jsstring :=
  match text with
  | [] => []
  | _ => trim (remove_fences (remove_fence_tags false text))
  end.

Definition safeParseJsonArrayFromText (text : jsstring)
  : option (list value) :=
  let cleaned := stripCodeFences text in
  (* Try direct parse *)
  match parse cleaned with
  | Some (JArray parsed) => Some parsed
  | _ =>
      (* Try extracting first [ ... ] block *)
      match indexOf (ch "[") cleaned, lastIndexOf (ch "]") cleaned with
      | Some start, Some end_ =>
          if (start <? end_)%nat then
            match parse (substring start (end_ + 1) cleaned) with
            | Some (JArray parsed) => Some parsed
            | _ => None
            end
          else None
      | _, _ => None
      end
  end.

(** [parsed && typeof parsed === 'object'] *)
Definition object_like (v : value) : bool := truthy v && typeof_object v.

Definition safeParseJsonObjectFromText (text : jsstring) : option value :=
  let cleaned := stripCodeFences text in
  let accept (r : option value) : option value :=
    match r with
    | Some parsed => if object_like parsed then Some parsed else None
    | None => None
    end in
  (* Try direct parse *)
  match accept (parse cleaned) with
  | Some parsed => Some parsed
  | None =>
      (* Try extracting first { ... } block *)
      match indexOf (ch "{") cleaned, lastIndexOf (ch "}") cleaned with
      | Some start, Some end_ =>
          if (start <? end_)%nat then
            accept (parse (substring start (end_ + 1) cleaned))
          else None
      | _, _ => None
      end
  end.

(** ** The two patterns

    Both patterns are matched by one greedy pass from each start position.
    A backtracking matcher finds the same: giving back a digit leaves a
    digit where the pattern needs [.], white space or a unit letter; giving
    back white space leaves white space where it needs a letter; and in the
    quantity pattern nothing follows the unit, so the first alternative that
    fits is kept. *)

(** [(\d+(?:\.\d+)?)]: the number and the text after it. *)
Definition match_number (s : jsstring) : option (jsstring * jsstring) :=
  match takeWhile is_digit s with
  | [] => None
  | ds =>
      let r := dropWhile is_digit s in
      match r with
      | c :: r' =>
          if char_eqb c (ch ".") then
            match takeWhile is_digit r' with
            | [] => Some (ds, r)
            | fs => Some (ds ++ c :: fs, dropWhile is_digit r')
            end
          else Some (ds, r)
      | [] => Some (ds, r)
      end
  end.

(** An ordered alternation of literals under the [i] flag: the first that
    is a prefix of [s], as written in [s]. *)
Fixpoint match_alternatives (alts : list jsstring) (s : jsstring)
  : option (jsstring * jsstring) :=
  match alts with
  | [] => None
  | a :: rest =>
      match strip_prefix_ci a s with
      | Some m => Some m
      | None => match_alternatives rest s
      end
  end.

(** [(g|gram|grams|kg|ml|mL|milliliter|milliliters|l|L)] *)
Definition quantity_units : list jsstring :=
  [str "g"; str "gram"; str "grams"; str "kg"; str "ml"; str "mL";
   str "milliliter"; str "milliliters"; str "l"; str "L"].

(** [/(\d+(?:\.\d+)?)\s*(g|gram|...|l|L)/i] at the head of [s]: the two
    groups and the text after the match. *)
Definition match_quantity_here (s : jsstring)
  : option (jsstring * jsstring * jsstring) :=
  match match_number s with
  | None => None
  | Some (num, r) =>
      match match_alternatives quantity_units (dropWhile is_space r) with
      | Some (unit, post) => Some (num, unit, post)
      | None => None
      end
  end.

(** [/\((\d+(?:\.\d+)?)\s*(g|ml)\)/i] at the head of [s]. *)
Definition match_portion_here (s : jsstring)
  : option (jsstring * jsstring * jsstring) :=
  match s with
  | c :: r0 =>
      if char_eqb c (ch "(") then
        match match_number r0 with
        | None => None
        | Some (num, r) =>
            let close (m : option (jsstring * jsstring)) :=
              match m with
              | Some (unit, c' :: post) =>
                  if char_eqb c' (ch ")") then Some (num, unit, post)
                  else None
              | _ => None
              end in
            let r' := dropWhile is_space r in
            match close (strip_prefix_ci (str "g") r') with
            | Some m => Some m
            | None => close (strip_prefix_ci (str "ml") r')
            end
        end
      else None
  | [] => None
  end.

(** The leftmost match: the text before it, the groups, the text after. *)
Fixpoint search {A : Type} (here : jsstring -> option (A * jsstring))
  (s : jsstring) : option (jsstring * A * jsstring) :=
  match here s with
  | Some (groups, post) => Some ([], groups, post)
  | None =>
      match s with
      | [] => None
      | c :: r =>
          match search here r with
          | Some (pre, groups, post) => Some (c :: pre, groups, post)
          | None => None
          end
      end
  end.

Definition quantity_regex (s : jsstring) :=
  search (fun t => match match_quantity_here t with
                   | Some (num, unit, post) => Some ((num, unit), post)
                   | None => None
                   end) s.

Definition portion_regex (s : jsstring) :=
  search (fun t => match match_portion_here t with
                   | Some (num, unit, post) => Some ((num, unit), post)
                   | None => None
                   end) s.

(** ** Quantities *)

Record ParsedQuantity := {
  grams : option float;
  unit : option jsstring;
  amount : option float;
  baseText : jsstring
}.

Definition parseAmountUnit (text : jsstring) : ParsedQuantity :=
  let nothing :=
    {| grams := None; unit := None; amount := None; baseText := text |} in
  match text with
  | [] => nothing
  | _ =>
      match quantity_regex text with
      | None => nothing
      | Some (pre, (m1, unitRaw), post) =>
          let amount := JsNumber.parseFloat m1 in
          let unit := toLowerCase unitRaw in
          let unit_is u := JsString.eqb unit u in
          let grams :=
            if unit_is (str "g") || unit_is (str "gram") || unit_is (str "grams") then Some amount
            else if unit_is (str "kg") then Some (amount * 1000)%float
            else if unit_is (str "ml") || unit_is (str "mL") || unit_is (str "milliliter")
                    || unit_is (str "milliliters")
            then Some amount (* assume 1 g/ml when density unknown *)
            else if unit_is (str "l") || unit_is (str "L") then Some (amount * 1000)%float
            else None in
          {| grams := grams; unit := Some unit; amount := Some amount;
             baseText := trim (pre ++ post) |}
      end
  end.

Definition extractGramsFromPortion (portion : jsstring) : option float :=
  match portion with
  | [] => None
  | _ =>
      match portion_regex portion with
      | None => None
      | Some (_, (m1, _), _) => Some (JsNumber.parseFloat m1)
      end
  end.

(** ** Nutrient records *)

Record NutrientRecord := {
  name : jsstring;
  portion : jsstring;
  calories : float;
  protein : float;
  carbs : float;
  fat : float;
  fiber : float;
  sugar : float;
  sodium : float;
  iron : float;
  zinc : float;
  calcium : float;
  vitaminB12 : float;
  vitaminD : float;
  vitaminA : float;
  omega3 : float;
  vitaminC : float;
  magnesium : float;
  potassium : float
}.

(** The seventeen numeric keys. *)
Inductive nutrient :=
| Calories | Protein | Carbs | Fat | Fiber | Sugar | Sodium | Iron | Zinc
| Calcium | VitaminB12 | VitaminD | VitaminA | Omega3 | VitaminC
| Magnesium | Potassium.

Definition key_name (k : nutrient) : jsstring :=
  match k with
  | Calories => str "calories" | Protein => str "protein"
  | Carbs => str "carbs" | Fat => str "fat" | Fiber => str "fiber"
  | Sugar => str "sugar" | Sodium => str "sodium" | Iron => str "iron"
  | Zinc => str "zinc" | Calcium => str "calcium"
  | VitaminB12 => str "vitaminB12" | VitaminD => str "vitaminD"
  | VitaminA => str "vitaminA" | Omega3 => str "omega3"
  | VitaminC => str "vitaminC" | Magnesium => str "magnesium"
  | Potassium => str "potassium"
  end.

(** [item[k]] *)
Definition get (k : nutrient) (item : NutrientRecord) : float :=
  match k with
  | Calories => calories item | Protein => protein item
  | Carbs => carbs item | Fat => fat item | Fiber => fiber item
  | Sugar => sugar item | Sodium => sodium item | Iron => iron item
  | Zinc => zinc item | Calcium => calcium item
  | VitaminB12 => vitaminB12 item | VitaminD => vitaminD item
  | VitaminA => vitaminA item | Omega3 => omega3 item
  | VitaminC => vitaminC item | Magnesium => magnesium item
  | Potassium => potassium item
  end.

(** [item[k] = x] *)
Definition set (k : nutrient) (x : float) (r : NutrientRecord)
  : NutrientRecord :=
  let upd k' old := match k, k' with
    | Calories, Calories | Protein, Protein | Carbs, Carbs | Fat, Fat
    | Fiber, Fiber | Sugar, Sugar | Sodium, Sodium | Iron, Iron
    | Zinc, Zinc | Calcium, Calcium | VitaminB12, VitaminB12
    | VitaminD, VitaminD | VitaminA, VitaminA | Omega3, Omega3
    | VitaminC, VitaminC | Magnesium, Magnesium | Potassium, Potassium => x
    | _, _ => old
    end in
  {| name := name r; portion := portion r;
     calories := upd Calories (calories r);
     protein := upd Protein (protein r);
     carbs := upd Carbs (carbs r);
     fat := upd Fat (fat r);
     fiber := upd Fiber (fiber r);
     sugar := upd Sugar (sugar r);
     sodium := upd Sodium (sodium r);
     iron := upd Iron (iron r);
     zinc := upd Zinc (zinc r);
     calcium := upd Calcium (calcium r);
     vitaminB12 := upd VitaminB12 (vitaminB12 r);
     vitaminD := upd VitaminD (vitaminD r);
     vitaminA := upd VitaminA (vitaminA r);
     omega3 := upd Omega3 (omega3 r);
     vitaminC := upd VitaminC (vitaminC r);
     magnesium := upd Magnesium (magnesium r);
     potassium := upd Potassium (potassium r) |}.

Definition with_portion (p : jsstring) (r : NutrientRecord)
  : NutrientRecord :=
  {| name := name r; portion := p;
     calories := calories r; protein := protein r; carbs := carbs r;
     fat := fat r; fiber := fiber r; sugar := sugar r; sodium := sodium r;
     iron := iron r; zinc := zinc r; calcium := calcium r;
     vitaminB12 := vitaminB12 r; vitaminD := vitaminD r;
     vitaminA := vitaminA r; omega3 := omega3 r; vitaminC := vitaminC r;
     magnesium := magnesium r; potassium := potassium r |}.

(** A conversion that throws ends the computation: [None] propagates. *)
Notation "x <- e ;; k" :=
  (match e with Some x => k | None => None end)
  (at level 61, e at next level, right associativity).

(** [Number(item[k] || 0)] *)
Definition number_or_zero (item : value) (k : jsstring) : option float :=
  match prop item k with
  | Some v => if truthy v then ToNumber v else Some 0%float
  | None => Some 0%float
  end.

(** [String(item[k] || fallback)] *)
Definition string_or (item : value) (k fallback : jsstring)
  : option jsstring :=
  match prop item k with
  | Some v => if truthy v then ToString v else Some fallback
  | None => Some fallback
  end.

(** The object literal of the sanitising [map] in [/api/foods]; [None] when
    a conversion throws. *)
Definition normalize (query : jsstring) (item : value)
  : option NutrientRecord :=
  name <- string_or item (str "name") query ;;
  portion <- string_or item (str "portion") (str "1 serving (100g)") ;;
  calories <- number_or_zero item (str "calories") ;;
  protein <- number_or_zero item (str "protein") ;;
  carbs <- number_or_zero item (str "carbs") ;;
  fat <- number_or_zero item (str "fat") ;;
  fiber <- number_or_zero item (str "fiber") ;;
  sugar <- number_or_zero item (str "sugar") ;;
  sodium <- number_or_zero item (str "sodium") ;;
  iron <- number_or_zero item (str "iron") ;;
  zinc <- number_or_zero item (str "zinc") ;;
  calcium <- number_or_zero item (str "calcium") ;;
  vitaminB12 <- number_or_zero item (str "vitaminB12") ;;
  vitaminD <- number_or_zero item (str "vitaminD") ;;
  vitaminA <- number_or_zero item (str "vitaminA") ;;
  omega3 <- number_or_zero item (str "omega3") ;;
  vitaminC <- number_or_zero item (str "vitaminC") ;;
  magnesium <- number_or_zero item (str "magnesium") ;;
  potassium <- number_or_zero item (str "potassium") ;;
  Some {| name := name; portion := portion; calories := calories;
          protein := protein; carbs := carbs; fat := fat; fiber := fiber;
          sugar := sugar; sodium := sodium; iron := iron; zinc := zinc;
          calcium := calcium; vitaminB12 := vitaminB12;
          vitaminD := vitaminD; vitaminA := vitaminA; omega3 := omega3;
          vitaminC := vitaminC; magnesium := magnesium;
          potassium := potassium |}.

(** [l.map(f)] for an [f] that may throw. *)
Fixpoint map_throwing {A B : Type} (f : A -> option B) (l : list A)
  : option (list B) :=
  match l with
  | [] => Some []
  | a :: r => b <- f a ;; bs <- map_throwing f r ;; Some (b :: bs)
  end.

(** [data.filter(item => item && typeof item === 'object').map(...)] *)
Definition normalizeAll (query : jsstring) (data : list value)
  : option (list NutrientRecord) :=
  map_throwing (normalize query) (filter object_like data).

(** ** Scaling *)

Definition numericKeys : list nutrient :=
  [Calories; Protein; Fat; Carbs; Fiber; Sugar; Sodium; Iron; Zinc; Calcium;
   VitaminB12; VitaminD; VitaminA; Omega3; VitaminC; Magnesium; Potassium].

(** [+(x).toFixed(2)] *)
Definition round2 (x : float) : float :=
  JsNumber.StringToNumber (JsNumber.toFixed x 2).

(** The fields of a [NutrientRecord] are numbers, so of the test
    [typeof scaled[k] === 'number' && !Number.isNaN(scaled[k])] the second
    half decides. *)
Definition scaleNutrients (item : NutrientRecord) (scale : float)
  : NutrientRecord :=
  fold_left
    (fun scaled k =>
       if negb (JsNumber.isNaN (get k scaled))
       then set k (round2 (get k scaled * scale)%float) scaled
       else scaled)
    numericKeys item.

(** [unit && (unit.toLowerCase().includes('l')
              || unit.toLowerCase().includes('ml')) ? 'ml' : 'g'] *)
Definition labelUnit (unit : option jsstring) : jsstring :=
  match unit with
  | Some u =>
      if negb (JsString.eqb u [])
         && (includes (toLowerCase u) (str "l")
             || includes (toLowerCase u) (str "ml"))
      then str "ml" else str "g"
  | None => str "g"
  end.

(** [`custom serving (${amount}${labelUnit})`] *)
Definition custom_portion (amount : option float) (unit : option jsstring)
  : jsstring :=
  str "custom serving ("
  ++ match amount with
     | Some a => JsNumber.toString a
     | None => str "null"
     end
  ++ labelUnit unit ++ str ")".

(** The callback of the scaling [map]: its two branches, on
    [portionGrams && portionGrams > 0] and the fallback per 100 g. *)
Definition scaleItem (desiredGrams : float) (unit : option jsstring)
  (amount : option float) (item : NutrientRecord) : NutrientRecord :=
  let portionGrams := extractGramsFromPortion (portion item) in
  let positive :=
    match portionGrams with
    | Some pg => JsNumber.truthy pg && (0 <? pg)%float
    | None => false
    end in
  match portionGrams, positive with
  | Some pg, true =>
      let scale := (desiredGrams / pg)%float in
      let scaled := scaleNutrients item scale in
      with_portion (custom_portion amount unit) scaled
  | _, _ =>
      (* Fallback assumption if portion grams not provided: scale per 100g *)
      let scale := (desiredGrams / 100)%float in
      let scaled := scaleNutrients item scale in
      with_portion (custom_portion amount unit) scaled
  end.

(** [if (desiredGrams && normalized.length) normalized = normalized.map(...)] *)
Definition scaleAll (q : ParsedQuantity) (normalized : list NutrientRecord)
  : list NutrientRecord :=
  match grams q with
  | Some desiredGrams =>
      if JsNumber.truthy desiredGrams
         && negb (Nat.eqb (List.length normalized) 0)
      then List.map (scaleItem desiredGrams (unit q) (amount q)) normalized
      else normalized
  | None => normalized
  end.

(** ** The two handlers *)

Inductive response (A : Type) :=
| Ok (body : A)
| Error (status : Z) (error : jsstring).
Arguments Ok {A} body.
Arguments Error {A} status error.

(** [a || b] on strings *)
Definition or_else (a b : jsstring) : jsstring :=
  match a with [] => b | _ => a end.

(** [GET /api/foods].  [raw] is [String(req.query.query || '')];
    [configured] tells whether the API key is set; [generate] is the model,
    from the food named in the prompt to the text of its answer, [None] when
    the call throws. *)
Definition foods (configured : bool)
  (generate : jsstring -> option jsstring) (raw : jsstring)
  : response (list NutrientRecord) :=
  let query := trim raw in
  match query with
  | [] => Error 400 (str "Missing query parameter")
  | _ =>
      if negb configured
      then Error 500 (str "GEMINI_API_KEY not configured on server")
      else
        let q := parseAmountUnit query in
        match generate (or_else (baseText q) query) with
        | None => Error 502 (str "Gemini foods request failed")
        | Some text =>
            match safeParseJsonArrayFromText text with
            | None => Error 502 (str "Invalid AI response format")
            | Some data =>
                match normalizeAll query data with
                | None => Error 502 (str "Gemini foods request failed")
                | Some normalized => Ok (scaleAll q normalized)
                end
            end
        end
  end.

(** The body of [POST /api/suggestions] once the model has answered with
    [text]. *)
Definition suggestions (text : jsstring) : response (list jsstring) :=
  match safeParseJsonObjectFromText text with
  | None => Error 502 (str "AI response missing suggestions array")
  | Some parsed =>
      match prop parsed (str "suggestions") with
      | Some (JArray entries) =>
          match map_throwing ToString entries with
          | None => Error 502 (str "Gemini suggestions request failed")
          | Some strings =>
              Ok (firstn 6
                    (filter (fun s => negb (JsString.eqb s [])
                                      && negb (JsString.eqb (trim s) []))
                            strings))
          end
      | _ => Error 502 (str "AI response missing suggestions array")
      end
  end.

(* ================================================================== *)
(** * More of [src/index.js] *)
(* ================================================================== *)

(** ** The allowed origins *)

(** [s.split(c)] for a separator of one character. *)
Fixpoint split_on (c : char) (s : jsstring) : list jsstring :=
  match s with
  | [] => [[]]
  | x :: r =>
      if char_eqb x c then [] :: split_on c r
      else
        match split_on c r with
        | piece :: pieces => (x :: piece) :: pieces
        | [] => [[x]]
        end
  end.

(** [(process.env.CORS_ORIGINS || '').split(',').map(s => s.trim())
    .filter(Boolean)]; [None] is an unset variable. *)
Definition allowedOrigins (env : option jsstring) : list jsstring :=
  let text := match env with Some s => s | None => [] end in
  filter (fun s => negb (JsString.eqb s []))
    (List.map trim (split_on (ch ",") text)).

(** [Array.prototype.includes] on strings. *)
Definition includes_string (l : list jsstring) (s : jsstring) : bool :=
  existsb (JsString.eqb s) l.

(** [corsOptions.origin]: [true] is [callback(null, true)], [false] is
    [callback(new Error('Not allowed by CORS'))].  [origin] is [None] when
    the request has no [Origin] header. *)
Definition corsOrigin (allowed : list jsstring) (origin : option jsstring)
  : bool :=
  match origin with
  | None | Some [] => true
  | Some o =>
      if Nat.eqb (List.length allowed) 0 || includes_string allowed o
      then true else false
  end.

(** ** The builder for fallback data *)

(** [buildResultsFromFallback], a function that nothing calls.  Its object
    literal and its scaling callback are those of the handler, letter for
    letter; it maps every item, and reading a property of [null] throws. *)
Definition buildResultsFromFallback (items : list value)
  (desiredGrams : option float) (unit : option jsstring)
  (amount : option float) (query : jsstring)
  : option (list NutrientRecord) :=
  normalized <-
    map_throwing
      (fun item =>
         match item with
         | JNull => None
         | _ => normalize query item
         end) items ;;
  Some match desiredGrams with
       | Some d =>
           if JsNumber.truthy d
              && negb (Nat.eqb (List.length normalized) 0)
           then List.map (scaleItem d unit amount) normalized
           else normalized
       | None => normalized
       end.

(** ** The two patterns as syntax

    The regular expressions of the source, and the backtracking matcher of
    ECMAScript for the constructs they use: a character test, sequence,
    ordered alternation, the greedy star and the capturing group.  [\d+] is
    a digit and [\d*]; [x?] is [x] or nothing; a letter under the [i] flag
    is tested without case. *)

Module Regex.

Inductive regex :=
| Class (p : char -> bool)
| Nothing
| Seq (a b : regex)
| Alt (a b : regex)
| Star (a : regex)
| Group (a : regex).

Definition many1 (a : regex) : regex := Seq a (Star a).

Definition optional (a : regex) : regex := Alt a Nothing.

(** A character of the pattern that is no letter. *)
Definition chr (c : char) : regex := Class (char_eqb c).

(** A letter of the pattern under the [i] flag. *)
Definition chr_ci (c : char) : regex :=
  Class (fun x => char_eqb (lower_char c) (lower_char x)).

Fixpoint lit_ci (w : jsstring) : regex :=
  match w with
  | [] => Nothing
  | c :: w' => Seq (chr_ci c) (lit_ci w')
  end.

Fixpoint alts (l : list regex) : regex :=
  match l with
  | [] => Class (fun _ => false)
  | [a] => a
  | a :: l' => Alt a (alts l')
  end.

Section Matcher.

Variable R : Type.

(** What is still to be matched, given the text left and the captures
    made. *)
Definition cont : Type := jsstring -> list jsstring -> option R.

(** The greedy star: one more round of [step] that takes at least one
    character, then the star again, is tried before going on with [k]. *)
Fixpoint star_loop (step : jsstring -> list jsstring -> cont -> option R)
  (fuel : nat) (s : jsstring) (caps : list jsstring) (k : cont)
  : option R :=
  match fuel with
  | O => k s caps
  | S fuel' =>
      match step s caps
              (fun s' caps' =>
                 if (List.length s' <? List.length s)%nat
                 then star_loop step fuel' s' caps' k
                 else None) with
      | Some x => Some x
      | None => k s caps
      end
  end.

(** [run r s caps k]: match [r] at the head of [s], then [k]; on failure
    the next choice is tried.  A star makes at most as many rounds as [s]
    has characters. *)
Fixpoint run (r : regex) (s : jsstring) (caps : list jsstring) (k : cont)
  : option R :=
  match r with
  | Class p =>
      match s with
      | c :: t => if p c then k t caps else None
      | [] => None
      end
  | Nothing => k s caps
  | Seq a b => run a s caps (fun s' caps' => run b s' caps' k)
  | Alt a b =>
      match run a s caps k with
      | Some x => Some x
      | None => run b s caps k
      end
  | Star a => star_loop (run a) (List.length s) s caps k
  | Group a =>
      run a s caps
        (fun s' caps' =>
           k s' (caps' ++ [firstn (List.length s - List.length s') s]))
  end.

End Matcher.

(** The match at the head of [s]: the captures and the text after. *)
Definition here (r : regex) (s : jsstring)
  : option (list jsstring * jsstring) :=
  run _ r s [] (fun s' caps => Some (caps, s')).

(** [s.match(r)] without the [g] flag: the leftmost match, as the text
    before it, the captures and the text after it. *)
Fixpoint exec (r : regex) (s : jsstring)
  : option (jsstring * list jsstring * jsstring) :=
  match here r s with
  | Some (caps, post) => Some ([], caps, post)
  | None =>
      match s with
      | [] => None
      | c :: t =>
          match exec r t with
          | Some (pre, caps, post) => Some (c :: pre, caps, post)
          | None => None
          end
      end
  end.

Definition digit : regex := Class is_digit.

Definition space : regex := Class is_space.

(** [\.\d+] *)
Definition fraction : regex := Seq (chr (ch ".")) (many1 digit).

(** [(\d+(?:\.\d+)?)] *)
Definition number_group : regex :=
  Group (Seq (many1 digit) (optional fraction)).

(** [/(\d+(?:\.\d+)?)\s*(g|gram|grams|kg|ml|mL|milliliter|milliliters|l|L)/i] *)
Definition quantity_pattern : regex :=
  Seq number_group
    (Seq (Star space) (Group (alts (List.map lit_ci quantity_units)))).

(** [/\((\d+(?:\.\d+)?)\s*(g|ml)\)/i] *)
Definition portion_pattern : regex :=
  Seq (chr (ch "("))
    (Seq number_group
       (Seq (Star space)
          (Seq (Group (alts [lit_ci (str "g"); lit_ci (str "ml")]))
             (chr (ch ")"))))).

(** The leftmost match of a pattern with two groups. *)
Definition exec2 (r : regex) (s : jsstring)
  : option (jsstring * (jsstring * jsstring) * jsstring) :=
  match exec r s with
  | Some (pre, [m1; m2], post) => Some (pre, (m1, m2), post)
  | _ => None
  end.

End Regex.

(* ================================================================== *)
(** * Vocabulary of the statements *)
(* ================================================================== *)

Import JsNumber Json.

(** The text of a number of the two patterns: digits, and optionally a
    point and more digits. *)
Definition number_text (num : jsstring) : Prop :=
  exists ds,
    ds <> [] /\ forallb is_digit ds = true
    /\ (num = ds
        \/ exists fs, fs <> [] /\ forallb is_digit fs = true
                      /\ num = ds ++ ch "." :: fs).

(** One of the ten unit tokens, in any case. *)
Definition unit_token (u : jsstring) : Prop :=
  In (toLowerCase u) (List.map toLowerCase quantity_units).

(** The quantity pattern occurs in [s]: a number, optional white space and
    a unit token, anywhere. *)
Definition quantity_occurs (s : jsstring) : Prop :=
  exists pre num ws u post,
    s = pre ++ num ++ ws ++ u ++ post
    /\ number_text num /\ forallb is_space ws = true /\ unit_token u.

(** A JSON text written with single quotes standing for the double ones. *)
Definition json_text (s : string) : jsstring :=
  List.map (fun c => if char_eqb c (ch "'") then 34%N else c) (str s).

(** The reference quantity of a record: the quantity parsed from its
    portion when that is positive, else 100. *)
Definition reference (portion : jsstring) : float :=
  match extractGramsFromPortion portion with
  | Some portionGrams =>
      if (0 <? portionGrams)%float then portionGrams else 100%float
  | None => 100%float
  end.

(** Empty or white space only. *)
Definition blank (s : jsstring) : bool := JsString.eqb (trim s) [].

(** ** Sample data *)

Local Set Warnings "-inexact-float".

(** A raw candidate with a numeric string, a non-numeric one, a negative
    number and a [null]. *)
Definition raw_sample : value :=
  JObject [(str "name", JString (str "Tofu"));
           (str "calories", JNumber 76);
           (str "protein", JString (str "8.1"));
           (str "carbs", JString (str "n/a"));
           (str "fat", JNumber (-5));
           (str "fiber", JNull)].

Definition normalized_sample : NutrientRecord :=
  {| name := str "Tofu"; portion := str "1 serving (100g)";
     calories := 76; protein := 8.1; carbs := nan; fat := -5; fiber := 0;
     sugar := 0; sodium := 0; iron := 0; zinc := 0; calcium := 0;
     vitaminB12 := 0; vitaminD := 0; vitaminA := 0; omega3 := 0;
     vitaminC := 0; magnesium := 0; potassium := 0 |}.


(** The answer of the model in the banana scenario. *)
Definition banana_answer : jsstring :=
  json_text "[{'name':'Banana','portion':'1 medium (118g)','calories':105,'protein':1.3,'carbs':27,'fat':0.3}]".

(** A record with a field of three decimals, per 100 g. *)
Definition three_decimals : NutrientRecord :=
  {| name := str "Oats"; portion := str "1 serving (100g)";
     calories := 389; protein := 16.894; carbs := 66.27; fat := 6.9;
     fiber := 10.6; sugar := 0; sodium := 2; iron := 4.72; zinc := 3.97;
     calcium := 54; vitaminB12 := 0; vitaminD := 0; vitaminA := 0;
     omega3 := 0.111; vitaminC := 0; magnesium := 177; potassium := 429 |}.

(** An answer of the model with ten suggestions. *)
Definition ten_suggestions : list jsstring :=
  [str "Add lentils"; str "Drink milk"; str "Eat spinach"; str "Add curd";
   str "Less sugar"; str "Less salt"; str "Add nuts"; str "Eat fruit";
   str "Add paneer"; str "More water"].

Definition ten_suggestions_answer : jsstring :=
  json_text "{'suggestions': ['Add lentils','Drink milk','Eat spinach','Add curd','Less sugar','Less salt','Add nuts','Eat fruit','Add paneer','More water']}".

(** [r] is what is left of [s] after some of it was read. *)
Definition rest_of (r s : jsstring) : Prop := exists c, s = c ++ r.

(** [r] is what is left of [s] after reading up to and including a [c]. *)
Definition rest_after (c : char) (r s : jsstring) : Prop :=
  exists body, s = body ++ c :: r.

(** An answer of the model in a code fence between two lines of prose. *)
Definition fenced_answer : jsstring :=
  str "Sure! ```json [1, 2] ``` Hope this helps!".

(** Three backticks in a row somewhere in [s]. *)
Definition fenced (s : jsstring) : Prop :=
  exists a b, s = a ++ backtick :: backtick :: backtick :: b.

(** The same, computed. *)
Fixpoint has_fence (s : jsstring) : bool :=
  match s with
  | [] => false
  | a :: r =>
      match r with
      | b :: c :: _ => is_fence a b c || has_fence r
      | _ => false
      end
  end.

(** The number of backticks at the head of [s]. *)
Definition leading_backticks (s : jsstring) : nat :=
  List.length (takeWhile (fun c => char_eqb c backtick) s).

(* ================================================================== *)
(** * Facts about strings *)
(* ================================================================== *)

Section StringFacts.

Variable p : char -> bool.

Lemma takeWhile_dropWhile (s : jsstring) :
  takeWhile p s ++ dropWhile p s = s.
Proof.
  induction s as [|c r IH]; simpl; [reflexivity|].
  destruct (p c); simpl; [now rewrite IH | reflexivity].
Qed.

Lemma takeWhile_all (s : jsstring) : forallb p (takeWhile p s) = true.
Proof.
  induction s as [|c r IH]; simpl; [reflexivity|].
  destruct (p c) eqn:E; simpl; [now rewrite E | reflexivity].
Qed.

Lemma takeWhile_app (a b : jsstring) :
  forallb p a = true ->
  match b with [] => True | c :: _ => p c = false end ->
  takeWhile p (a ++ b) = a.
Proof.
  induction a as [|c r IH]; simpl; intros Ha Hb.
  - destruct b as [|c b']; simpl; [reflexivity | now rewrite Hb].
  - apply andb_prop in Ha as [Hc Hr]. rewrite Hc. now rewrite IH.
Qed.

Lemma dropWhile_app (a b : jsstring) :
  forallb p a = true ->
  match b with [] => True | c :: _ => p c = false end ->
  dropWhile p (a ++ b) = b.
Proof.
  induction a as [|c r IH]; simpl; intros Ha Hb.
  - destruct b as [|c b']; simpl; [reflexivity | now rewrite Hb].
  - apply andb_prop in Ha as [Hc Hr]. rewrite Hc. now apply IH.
Qed.

Lemma dropWhile_head (s : jsstring) :
  match dropWhile p s with [] => True | c :: _ => p c = false end.
Proof.
  induction s as [|c r IH]; simpl; [exact I|].
  destruct (p c) eqn:E; [exact IH | exact E].
Qed.

End StringFacts.

Lemma char_eqb_eq (a b : char) : char_eqb a b = true <-> a = b.
Proof. apply N.eqb_eq. Qed.

Lemma char_eqb_refl (a : char) : char_eqb a a = true.
Proof. apply N.eqb_refl. Qed.

Lemma eqb_eq (a b : jsstring) : JsString.eqb a b = true <-> a = b.
Proof.
  revert b; induction a as [|x a IH]; intros [|y b]; simpl;
    try (split; [discriminate | discriminate]); [tauto|].
  rewrite andb_true_iff, char_eqb_eq, IH. split.
  - now intros [-> ->].
  - intros H; injection H; auto.
Qed.

Lemma eqb_refl (a : jsstring) : JsString.eqb a a = true.
Proof. now apply eqb_eq. Qed.

Lemma strip_prefix_ci_sound (a s m r : jsstring) :
  strip_prefix_ci a s = Some (m, r) ->
  s = m ++ r /\ toLowerCase m = toLowerCase a.
Proof.
  revert s m r; induction a as [|x a IH]; intros s m r; simpl.
  - destruct s; intros H; injection H as <- <-; auto.
  - destruct s as [|y s]; [discriminate|].
    destruct (char_eqb (lower_char x) (lower_char y)) eqn:E; [|discriminate].
    destruct (strip_prefix_ci a s) as [[m' r']|] eqn:E'; [|discriminate].
    intros H; injection H as <- <-.
    apply IH in E' as [-> Hl]. apply char_eqb_eq in E.
    simpl. now rewrite Hl, E.
Qed.

Lemma strip_prefix_ci_complete (a u post : jsstring) :
  toLowerCase u = toLowerCase a ->
  strip_prefix_ci a (u ++ post) = Some (u, post).
Proof.
  revert u; induction a as [|x a IH]; intros [|y u]; simpl; try discriminate.
  - destruct post; reflexivity.
  - intros H; injection H as Hy Hu.
    rewrite Hy, char_eqb_refl, (IH _ Hu). reflexivity.
Qed.

(* ================================================================== *)
(** * The quantity pattern: what a match is, and that one is found *)
(* ================================================================== *)

Lemma search_sound {A : Type} (here : jsstring -> option (A * jsstring))
  (s pre post : jsstring) (g : A) :
  search here s = Some (pre, g, post) ->
  exists t, s = pre ++ t /\ here t = Some (g, post).
Proof.
  revert pre; induction s as [|c r IH]; intros pre; simpl.
  - destruct (here []) as [[g' post']|] eqn:E; [|discriminate].
    intros H; injection H as <- <- <-. now exists [].
  - destruct (here (c :: r)) as [[g' post']|] eqn:E.
    + intros H; injection H as <- <- <-. now exists (c :: r).
    + destruct (search here r) as [[[pre' g'] post']|] eqn:E'; [|discriminate].
      intros H; injection H as <- <- <-.
      destruct (IH _ eq_refl) as (t & -> & Ht). now exists t.
Qed.

Lemma search_complete {A : Type} (here : jsstring -> option (A * jsstring))
  (pre t : jsstring) :
  here t <> None -> search here (pre ++ t) <> None.
Proof.
  intros Ht; induction pre as [|c pre IH]; simpl.
  - destruct t; simpl; destruct (here _) as [[? ?]|]; congruence.
  - destruct (here (c :: pre ++ t)) as [[? ?]|]; [discriminate|].
    destruct (search here (pre ++ t)) as [[[? ?] ?]|]; congruence.
Qed.

Lemma match_number_sound (s num r : jsstring) :
  match_number s = Some (num, r) -> s = num ++ r /\ number_text num.
Proof.
  unfold match_number.
  pose proof (takeWhile_dropWhile is_digit s) as Hs.
  pose proof (takeWhile_all is_digit s) as Hd.
  destruct (takeWhile is_digit s) as [|d ds] eqn:E; [discriminate|].
  assert (Hne : d :: ds <> []) by discriminate.
  set (i := d :: ds) in *. clearbody i.
  destruct (dropWhile is_digit s) as [|c r'] eqn:Er.
  - intros H; injection H as <- <-. split; [now rewrite Hs|].
    exists i; auto.
  - destruct (char_eqb c (ch ".")) eqn:Ec.
    + pose proof (takeWhile_dropWhile is_digit r') as Hs'.
      pose proof (takeWhile_all is_digit r') as Hd'.
      destruct (takeWhile is_digit r') as [|f fs] eqn:E'.
      * intros H; injection H as <- <-. split; [now rewrite Hs|].
        exists i; auto.
      * intros H; injection H as <- <-. apply char_eqb_eq in Ec; subst c.
        split.
        -- rewrite <- Hs, <- app_assoc. simpl. do 2 f_equal.
           symmetry; exact Hs'.
        -- exists i. repeat split; auto. right. exists (f :: fs).
           repeat split; auto. discriminate.
    + intros H; injection H as <- <-. split; [now rewrite Hs|].
      exists i; auto.
Qed.

Lemma match_alternatives_sound (alts : list jsstring) (s u post : jsstring) :
  match_alternatives alts s = Some (u, post) ->
  s = u ++ post /\ In (toLowerCase u) (List.map toLowerCase alts).
Proof.
  induction alts as [|a alts IH]; simpl; [discriminate|].
  destruct (strip_prefix_ci a s) as [[m r]|] eqn:E.
  - intros H; injection H as <- <-.
    apply strip_prefix_ci_sound in E as [-> Hl]. auto.
  - intros H. apply IH in H as [-> Hin]. auto.
Qed.

Lemma match_alternatives_complete (alts : list jsstring) (a s : jsstring) :
  In a alts -> strip_prefix_ci a s <> None ->
  match_alternatives alts s <> None.
Proof.
  induction alts as [|b alts IH]; simpl; [tauto|].
  intros [-> | Hin] Ha.
  - destruct (strip_prefix_ci a s); congruence.
  - destruct (strip_prefix_ci b s); [discriminate | auto].
Qed.

Lemma match_quantity_here_sound (t num u post : jsstring) :
  match_quantity_here t = Some (num, u, post) ->
  exists ws,
    t = num ++ ws ++ u ++ post
    /\ number_text num /\ forallb is_space ws = true /\ unit_token u.
Proof.
  unfold match_quantity_here.
  destruct (match_number t) as [[num' r]|] eqn:En; [|discriminate].
  destruct (match_alternatives _ _) as [[u' post']|] eqn:Ea; [|discriminate].
  intros H; injection H as <- <- <-.
  apply match_number_sound in En as [-> Hnum].
  apply match_alternatives_sound in Ea as [Hr Hu].
  exists (takeWhile is_space r). repeat split; auto.
  - now rewrite <- Hr, takeWhile_dropWhile.
  - apply takeWhile_all.
Qed.

(** A match of the quantity pattern is a number, white space and a unit
    token, between the text before and the text after. *)
Lemma quantity_regex_sound (s pre num u post : jsstring) :
  quantity_regex s = Some (pre, (num, u), post) ->
  exists ws,
    s = pre ++ num ++ ws ++ u ++ post
    /\ number_text num /\ forallb is_space ws = true /\ unit_token u.
Proof.
  unfold quantity_regex. intros H.
  apply search_sound in H as (t & -> & Ht).
  destruct (match_quantity_here t) as [[[num' u'] post']|] eqn:E;
    [|discriminate].
  injection Ht as <- <- <-.
  apply match_quantity_here_sound in E as (ws & -> & ?). now exists ws.
Qed.

(** The first letter of a unit token is no digit, no point and no white
    space. *)
Lemma unit_token_head (u : jsstring) :
  unit_token u ->
  exists c u', u = c :: u'
    /\ is_digit c = false /\ is_space c = false
    /\ char_eqb c (ch ".") = false.
Proof.
  unfold unit_token. intros H.
  destruct u as [|c u']; [simpl in H; repeat destruct H as [H|H];
                          try discriminate; contradiction|].
  exists c, u'. split; [reflexivity|].
  assert (Hc : In (lower_char c) [103; 107; 109; 108]%N).
  { simpl in H. repeat destruct H as [H|H]; try contradiction;
      injection H as H _; rewrite <- H; simpl; tauto. }
  unfold lower_char in Hc. unfold is_digit, is_space, char_eqb, ch.
  simpl N_of_ascii.
  destruct ((65 <=? Z.of_N c) && (Z.of_N c <=? 90)) eqn:E;
    simpl in Hc; repeat destruct Hc as [Hc|Hc]; try contradiction;
    repeat split;
    repeat match goal with
      | |- _ && _ = false => apply andb_false_iff
      | |- _ || _ = false => apply orb_false_iff; split
      | |- (_ =? _)%N = false => apply N.eqb_neq
      | |- (_ =? _) = false => apply Z.eqb_neq
      end;
    try apply andb_true_iff in E as [E1 E2];
    try (apply Z.leb_le in E1; apply Z.leb_le in E2);
    try lia;
    try (rewrite Z.leb_gt; lia);
    try (right; rewrite Z.leb_gt; lia); try (left; rewrite Z.leb_gt; lia).
Qed.

Lemma forallb_head_app (p : char -> bool) (a b : jsstring) :
  forallb p a = true -> a <> [] ->
  match a ++ b with [] => False | c :: _ => p c = true end.
Proof.
  destruct a as [|c a]; [congruence|]. simpl.
  intros H _. now apply andb_prop in H.
Qed.

Lemma is_space_not_digit (c : char) : is_space c = true -> is_digit c = false.
Proof.
  unfold is_space, is_digit. intros H.
  apply andb_false_iff.
  repeat (apply orb_prop in H as [H|H]);
    try apply andb_prop in H as [H1 H2];
    rewrite ?Z.leb_le, ?Z.eqb_eq in *; rewrite !Z.leb_gt; lia.
Qed.

Lemma is_space_not_dot (c : char) :
  is_space c = true -> char_eqb c (ch ".") = false.
Proof.
  unfold is_space, char_eqb, ch. simpl N_of_ascii. intros H.
  apply N.eqb_neq.
  repeat (apply orb_prop in H as [H|H]);
    try apply andb_prop in H as [H1 H2];
    rewrite ?Z.leb_le, ?Z.eqb_eq in *; lia.
Qed.

(** At a run of digits followed by white space and a unit token the
    pattern matches. *)
Lemma match_quantity_here_complete (ds ws u post : jsstring) :
  ds <> [] -> forallb is_digit ds = true ->
  forallb is_space ws = true -> unit_token u ->
  match_quantity_here (ds ++ ws ++ u ++ post) <> None.
Proof.
  intros Hne Hds Hws Hu.
  destruct (unit_token_head u Hu) as (c & u' & -> & Hcd & Hcs & Hcp).
  assert (Hhead : match ws ++ (c :: u') ++ post with
                  | [] => True
                  | x :: _ => is_digit x = false
                              /\ char_eqb x (ch ".") = false
                  end).
  { destruct ws as [|w ws']; simpl; [auto|].
    simpl in Hws. apply andb_prop in Hws as [Hw _].
    split; [now apply is_space_not_digit | now apply is_space_not_dot]. }
  unfold match_quantity_here, match_number.
  rewrite takeWhile_app, dropWhile_app; auto;
    try (destruct (ws ++ (c :: u') ++ post); tauto).
  destruct ds as [|d ds']; [congruence|].
  set (i := d :: ds') in *.
  assert (Hr : dropWhile is_space (ws ++ (c :: u') ++ post)
               = (c :: u') ++ post).
  { apply dropWhile_app; auto. }
  assert (Halt : match_alternatives quantity_units ((c :: u') ++ post)
                 <> None).
  { unfold unit_token in Hu. apply in_map_iff in Hu as (a & Ha & Hin).
    apply match_alternatives_complete with (a := a); auto.
    rewrite strip_prefix_ci_complete; [discriminate | auto]. }
  destruct (ws ++ (c :: u') ++ post) as [|x r] eqn:E.
  - destruct ws; discriminate.
  - destruct Hhead as [_ Hx]. rewrite Hx, Hr.
    destruct (match_alternatives _ _) as [[? ?]|]; congruence.
Qed.

(** Wherever the quantity pattern occurs, the search finds a match. *)
Lemma quantity_regex_complete (s : jsstring) :
  quantity_occurs s -> quantity_regex s <> None.
Proof.
  intros (pre & num & ws & u & post & -> & Hnum & Hws & Hu).
  destruct Hnum as (ds & Hne & Hds & [-> | (fs & Hfne & Hfs & ->)]).
  - unfold quantity_regex. apply search_complete.
    pose proof (match_quantity_here_complete ds ws u post Hne Hds Hws Hu).
    destruct (match_quantity_here _) as [[[? ?] ?]|]; congruence.
  - unfold quantity_regex.
    replace (pre ++ (ds ++ ch "." :: fs) ++ ws ++ u ++ post)
      with ((pre ++ ds ++ [ch "."]) ++ fs ++ ws ++ u ++ post)
      by (rewrite <- !app_assoc; reflexivity).
    apply search_complete.
    pose proof (match_quantity_here_complete fs ws u post Hfne Hfs Hws Hu).
    destruct (match_quantity_here _) as [[[? ?] ?]|]; congruence.
Qed.

(** The search decides the occurrence of the pattern. *)
Lemma quantity_occurs_iff (s : jsstring) :
  quantity_occurs s <-> quantity_regex s <> None.
Proof.
  split; [apply quantity_regex_complete|].
  destruct (quantity_regex s) as [[[pre [num u]] post]|] eqn:E; [|congruence].
  intros _. apply quantity_regex_sound in E as (ws & ? & ? & ? & ?).
  now exists pre, num, ws, u, post.
Qed.

(* ================================================================== *)
(** * The quantity parser *)
(* ================================================================== *)

Lemma parseAmountUnit_none (text : jsstring) :
  quantity_regex text = None ->
  parseAmountUnit text
  = {| grams := None; unit := None; amount := None; baseText := text |}.
Proof.
  intros H. unfold parseAmountUnit. rewrite H. now destruct text.
Qed.

(** C5, amended.  When the quantity pattern (a number, optional white
    space, a unit token) occurs nowhere in the text, the parser returns
    [null] for [grams], [unit] and [amount], and the remainder text is the
    text exactly as it was given: the branch without a match does not trim.
    The remainder is the trimmed text only when the text has no white space
    at its ends, as in the handler, which trims the query before it calls
    the parser. *)
Theorem parseAmountUnit_no_quantity (text : jsstring) :
  ~ quantity_occurs text ->
  parseAmountUnit text
  = {| grams := None; unit := None; amount := None; baseText := text |}
  /\ (baseText (parseAmountUnit text) = trim text <-> trim text = text)
  /\ (forall raw,
        text = trim raw ->
        parseAmountUnit (trim raw)
        = {| grams := None; unit := None; amount := None;
             baseText := trim raw |}).
Proof.
  intros H.
  assert (E : parseAmountUnit text
              = {| grams := None; unit := None; amount := None;
                   baseText := text |}).
  { apply parseAmountUnit_none.
    destruct (quantity_regex text) eqn:E; [|reflexivity].
    exfalso. apply H. apply quantity_occurs_iff. congruence. }
  split; [exact E|]. split.
  - rewrite E. cbn [baseText]. split; intros Ht; symmetry; exact Ht.
  - intros raw Hr. rewrite <- Hr. exact E.
Qed.

Lemma parseAmountUnit_no_quantity_witness :
  ~ quantity_occurs (str "green apple")
  /\ parseAmountUnit (str "green apple")
     = {| grams := None; unit := None; amount := None;
          baseText := str "green apple" |}.
Proof.
  assert (H : ~ quantity_occurs (str "green apple")).
  { rewrite quantity_occurs_iff. vm_compute. intros H; now apply H. }
  split; [exact H|].
  exact (proj1 (parseAmountUnit_no_quantity (str "green apple") H)).
Defined.

(** C5 as stated fails: a text without a quantity and with white space at
    its ends is returned with that white space, not trimmed. *)
Lemma parseAmountUnit_keeps_blanks :
  ~ quantity_occurs (str "  green apple ")
  /\ baseText (parseAmountUnit (str "  green apple "))
     = str "  green apple "
  /\ trim (str "  green apple ") = str "green apple"
  /\ JsString.eqb (baseText (parseAmountUnit (str "  green apple ")))
       (trim (str "  green apple ")) = false.
Proof.
  split.
  - rewrite quantity_occurs_iff. vm_compute. intros H; now apply H.
  - vm_compute. auto.
Qed.

Lemma parseAmountUnit_some (text pre num u post : jsstring) :
  quantity_regex text = Some (pre, (num, u), post) ->
  parseAmountUnit text
  = let a := parseFloat num in
    let lu := toLowerCase u in
    let unit_is x := JsString.eqb lu x in
    {| grams :=
         if unit_is (str "g") || unit_is (str "gram") || unit_is (str "grams")
         then Some a
         else if unit_is (str "kg") then Some (a * 1000)%float
         else if unit_is (str "ml") || unit_is (str "mL")
                 || unit_is (str "milliliter") || unit_is (str "milliliters")
         then Some a
         else if unit_is (str "l") || unit_is (str "L")
         then Some (a * 1000)%float
         else None;
       unit := Some lu; amount := Some a; baseText := trim (pre ++ post) |}.
Proof.
  intros H. unfold parseAmountUnit. rewrite H.
  destruct text; [discriminate H | reflexivity].
Qed.

(** C6.  A matched amount and unit convert to grams by the fixed table
    ([g], [gram], [grams], [ml], [milliliter], [milliliters]: the amount;
    [kg], [l]: a thousand times the amount, the unit compared without
    case), and the remainder text is the query without the matched span of
    number, white space and unit, trimmed.  The four sample queries give
    150 and "banana", 250, 2000, and [null] and "apple". *)
Theorem parseAmountUnit_conversion :
  (forall text pre num u post,
      quantity_regex text = Some (pre, (num, u), post) ->
      let r := parseAmountUnit text in
      let a := parseFloat num in
      let lu := toLowerCase u in
      (exists ws, text = pre ++ num ++ ws ++ u ++ post
                  /\ forallb is_space ws = true)
      /\ number_text num
      /\ amount r = Some a
      /\ unit r = Some lu
      /\ baseText r = trim (pre ++ post)
      /\ (In lu [str "g"; str "gram"; str "grams";
                 str "ml"; str "milliliter"; str "milliliters"] ->
          grams r = Some a)
      /\ (In lu [str "kg"; str "l"] -> grams r = Some (a * 1000)%float)
      /\ In lu [str "g"; str "gram"; str "grams"; str "ml";
                str "milliliter"; str "milliliters"; str "kg"; str "l"])
  /\ parseAmountUnit (str "banana 150g")
     = {| grams := Some 150%float; unit := Some (str "g");
          amount := Some 150%float; baseText := str "banana" |}
  /\ grams (parseAmountUnit (str "milk 250ml")) = Some 250%float
  /\ grams (parseAmountUnit (str "2kg rice")) = Some 2000%float
  /\ parseAmountUnit (str "apple")
     = {| grams := None; unit := None; amount := None;
          baseText := str "apple" |}.
Proof.
  split; [|repeat split; vm_compute; reflexivity].
  intros text pre num u post H r a lu.
  pose proof (quantity_regex_sound _ _ _ _ _ H) as (ws & Ht & Hnum & Hws & Hu).
  subst r. rewrite (parseAmountUnit_some _ _ _ _ _ H). cbv zeta. simpl.
  fold a lu.
  split; [now exists ws|]. split; [exact Hnum|].
  do 3 (split; [reflexivity|]).
  assert (Hlu : In lu [str "g"; str "gram"; str "grams"; str "kg"; str "ml";
                       str "ml"; str "milliliter"; str "milliliters";
                       str "l"; str "l"]) by exact Hu.
  clearbody lu a. clear - Hlu.
  repeat split.
  - intros Hin. simpl in Hin, Hlu.
    repeat destruct Hin as [Hin|Hin]; try contradiction; subst lu;
      reflexivity.
  - intros Hin. simpl in Hin.
    repeat destruct Hin as [Hin|Hin]; try contradiction; subst lu;
      reflexivity.
  - simpl in Hlu. repeat destruct Hlu as [Hlu|Hlu]; try contradiction;
      subst lu; simpl; tauto.
Qed.

Lemma parseAmountUnit_conversion_witness :
  grams (parseAmountUnit (str "1.5 L juice")) = Some (1.5 * 1000)%float
  /\ baseText (parseAmountUnit (str "1.5 L juice")) = str "juice".
Proof.
  assert (H : quantity_regex (str "1.5 L juice")
              = Some ([], (str "1.5", str "L"), str " juice"))
    by (vm_compute; reflexivity).
  pose proof (proj1 parseAmountUnit_conversion _ _ _ _ _ H) as P.
  cbv zeta in P.
  destruct P as (_ & _ & _ & _ & Hb & _ & Hk & _).
  split.
  - apply Hk. vm_compute. tauto.
  - exact Hb.
Defined.

Lemma quantity_regex_skip (pre t : jsstring) :
  forallb (fun c => negb (is_digit c)) pre = true ->
  quantity_regex (pre ++ t)
  = match quantity_regex t with
    | Some (pre', g, post) => Some (pre ++ pre', g, post)
    | None => None
    end.
Proof.
  unfold quantity_regex. induction pre as [|c pre IH]; intros H.
  - simpl. now destruct (search _ t) as [[[? ?] ?]|].
  - simpl in H. apply andb_prop in H as [Hc Hpre].
    apply negb_true_iff in Hc.
    change ((c :: pre) ++ t) with (c :: pre ++ t).
    cbn [search]. unfold match_quantity_here at 1, match_number at 1.
    cbn [takeWhile]. rewrite Hc. rewrite (IH Hpre).
    now destruct (search _ t) as [[[? ?] ?]|].
Qed.

Lemma lower_char_g_l (c : char) :
  lower_char c = ch "g" \/ lower_char c = ch "l" ->
  c = ch "g" \/ c = ch "G" \/ c = ch "l" \/ c = ch "L".
Proof.
  unfold lower_char, ch. simpl N_of_ascii.
  destruct ((65 <=? Z.of_N c) && (Z.of_N c <=? 90)) eqn:E; lia.
Qed.

(** C10.  Nothing in the pattern ends the unit at a word boundary.  When a
    query has no digit before a run of digits that is followed, after
    optional white space, by a word beginning with [g] or [l] (either case),
    that letter alone is taken as the unit, and only the span up to and
    including it is removed; so "150 grapes" gives amount 150, unit "g",
    150 grams and the remainder "rapes". *)
Theorem parseAmountUnit_unit_prefix :
  (forall pre ds ws c rest,
      forallb (fun x => negb (is_digit x)) pre = true ->
      ds <> [] -> forallb is_digit ds = true ->
      forallb is_space ws = true ->
      lower_char c = ch "g" \/ lower_char c = ch "l" ->
      parseAmountUnit (pre ++ ds ++ ws ++ c :: rest)
      = {| grams :=
             Some (if char_eqb (lower_char c) (ch "g") then parseFloat ds
                   else (parseFloat ds * 1000)%float);
           unit := Some [lower_char c];
           amount := Some (parseFloat ds);
           baseText := trim (pre ++ rest) |})
  /\ parseAmountUnit (str "150 grapes")
     = {| grams := Some 150%float; unit := Some (str "g");
          amount := Some 150%float; baseText := str "rapes" |}.
Proof.
  split; [|vm_compute; reflexivity].
  intros pre ds ws c rest Hpre Hne Hds Hws Hc.
  assert (Hcd : is_digit c = false /\ char_eqb c (ch ".") = false
                /\ is_space c = false).
  { apply lower_char_g_l in Hc.
    destruct Hc as [-> | [-> | [-> | ->]]]; repeat split; reflexivity. }
  destruct Hcd as (Hcd & Hcp & Hcs).
  assert (Hhead : match ws ++ c :: rest with
                  | [] => True
                  | x :: _ => is_digit x = false
                              /\ char_eqb x (ch ".") = false
                  end).
  { destruct ws as [|w ws']; simpl; [auto|].
    simpl in Hws. apply andb_prop in Hws as [Hw _].
    split; [now apply is_space_not_digit | now apply is_space_not_dot]. }
  assert (Hnum : match_number (ds ++ ws ++ c :: rest)
                 = Some (ds, ws ++ c :: rest)).
  { unfold match_number.
    rewrite takeWhile_app, dropWhile_app; auto;
      try (destruct (ws ++ c :: rest); tauto).
    destruct ds as [|d ds']; [congruence|].
    destruct (ws ++ c :: rest) as [|x r] eqn:E; [reflexivity|].
    destruct Hhead as [_ Hx]. now rewrite Hx. }
  assert (Halt : match_alternatives quantity_units (c :: rest)
                 = Some ([c], rest)).
  { apply lower_char_g_l in Hc.
    destruct Hc as [-> | [-> | [-> | ->]]]; reflexivity. }
  assert (Hq : quantity_regex (pre ++ ds ++ ws ++ c :: rest)
               = Some (pre, (ds, [c]), rest)).
  { rewrite quantity_regex_skip by exact Hpre.
    unfold quantity_regex.
    assert (Hhere : match_quantity_here (ds ++ ws ++ c :: rest)
                    = Some (ds, [c], rest)).
    { unfold match_quantity_here. rewrite Hnum.
      rewrite dropWhile_app; auto. now rewrite Halt. }
    destruct (ds ++ ws ++ c :: rest) eqn:E; cbn [search];
      rewrite Hhere; now rewrite app_nil_r. }
  rewrite (parseAmountUnit_some _ _ _ _ _ Hq). cbv zeta.
  apply lower_char_g_l in Hc.
  destruct Hc as [-> | [-> | [-> | ->]]]; reflexivity.
Qed.

Lemma parseAmountUnit_unit_prefix_witness :
  parseAmountUnit (str "about 2 Litchis")
  = {| grams := Some (parseFloat (str "2") * 1000)%float;
       unit := Some (str "l"); amount := Some (parseFloat (str "2"));
       baseText := str "about itchis" |}.
Proof.
  exact (proj1 parseAmountUnit_unit_prefix
           (str "about ") (str "2") (str " ") (ch "L") (str "itchis")
           eq_refl ltac:(discriminate) eq_refl eq_refl
           (or_intror eq_refl)).
Defined.

(* ================================================================== *)
(** * Facts about binary64 arithmetic *)
(* ================================================================== *)

Section FloatFacts.

Local Open Scope float_scope.

Lemma SFcompare_refl (f : spec_float) :
  f <> S754_nan -> SFcompare f f = Some Eq.
Proof.
  destruct f as [s|s| |s m e]; simpl; try congruence; intros _.
  - now destruct s.
  - destruct s; rewrite Z.compare_refl;
      change (Pos.compare_cont Eq m m) with (Pos.compare m m);
      now rewrite Pos.compare_refl.
Qed.

Lemma isNaN_true (x : float) : isNaN x = true -> x = nan.
Proof.
  unfold isNaN. rewrite eqb_spec. unfold SFeqb. intros H.
  apply Prim2SF_inj. change (Prim2SF nan) with S754_nan.
  destruct (Prim2SF x) eqn:E; try reflexivity;
    rewrite SFcompare_refl in H by discriminate; discriminate.
Qed.

Lemma isNaN_false (x : float) : isNaN x = false -> Prim2SF x <> S754_nan.
Proof.
  unfold isNaN. rewrite eqb_spec. unfold SFeqb. intros H E.
  rewrite E in H. discriminate.
Qed.

Lemma mul_nan_l (y : float) : nan * y = nan.
Proof.
  apply Prim2SF_inj. rewrite mul_spec.
  change (Prim2SF nan) with S754_nan. reflexivity.
Qed.

(** A number above zero is truthy. *)
Lemma positive_truthy (x : float) :
  (0 <? x) = true -> JsNumber.truthy x = true.
Proof.
  unfold JsNumber.truthy, isNaN. rewrite ltb_spec, !eqb_spec.
  change (Prim2SF 0) with (S754_zero false).
  unfold SFltb, SFeqb.
  destruct (Prim2SF x) as [s|s| |s m e] eqn:E; simpl; try discriminate.
  - now destruct s.
  - destruct s; try discriminate. intros _.
    rewrite Z.compare_refl.
    change (Pos.compare_cont Eq m m) with (Pos.compare m m).
    now rewrite Pos.compare_refl.
Qed.

(** A number strictly between zero and infinity has a positive mantissa. *)
Lemma positive_finite (x : float) :
  (0 <? x) = true -> (x <? infinity) = true ->
  exists m e, Prim2SF x = S754_finite false m e.
Proof.
  rewrite !ltb_spec.
  change (Prim2SF 0) with (S754_zero false).
  change (Prim2SF infinity) with (S754_infinity false).
  unfold SFltb.
  destruct (Prim2SF x) as [s|s| |s m e]; simpl; try discriminate.
  - destruct s; discriminate.
  - destruct s; try discriminate. intros _ _. now exists m, e.
Qed.

Lemma div_eucl_shift (m : positive) :
  Z.div_eucl (Z.shiftl (Zpos m) 53) (Zpos m) = (2 ^ 53, 0)%Z.
Proof.
  rewrite Z.shiftl_mul_pow2 by lia.
  pose proof (Z.div_eucl_eq (Zpos m * 2 ^ 53) (Zpos m)) as H.
  pose proof (Z.mod_pos_bound (Zpos m * 2 ^ 53) (Zpos m)) as Hb.
  unfold Z.modulo in Hb.
  destruct (Z.div_eucl (Zpos m * 2 ^ 53) (Zpos m)) as [q r].
  specialize (H ltac:(lia)). specialize (Hb ltac:(lia)).
  assert (q = 2 ^ 53)%Z by nia. subst q.
  f_equal. lia.
Qed.

(** A finite number other than zero divided by itself is one. *)
Lemma div_self (x : float) (s : bool) (m : positive) (e : Z) :
  Prim2SF x = S754_finite s m e -> x / x = 1.
Proof.
  intros E. apply Prim2SF_inj. rewrite div_spec, E.
  unfold SF64div, SFdiv, SFdiv_core_binary.
  replace (Zdigits2 (Zpos m) + e - (Zdigits2 (Zpos m) + e))%Z with 0%Z by lia.
  replace (e - e)%Z with 0%Z by lia.
  change (Z.min (fexp prec emax 0) 0) with (-53)%Z.
  change (0 - -53)%Z with 53%Z. cbv iota.
  rewrite div_eucl_shift.
  assert (Hl : new_location (Zpos m) 0 = loc_Exact).
  { unfold new_location. now destruct (Z.even (Zpos m)). }
  rewrite Hl. now destruct s.
Qed.

Lemma mul_pow2_52 (m : positive) :
  (m * 4503599627370496)%positive = Pos.iter xO m 52.
Proof. rewrite Pos.mul_comm. reflexivity. Qed.

Lemma digits2_pos_52 (m : positive) :
  Zpos (digits2_pos (Pos.iter xO m 52)) = (Zpos (digits2_pos m) + 52)%Z.
Proof. cbn. lia. Qed.

(** Multiplying by one changes nothing. *)
Lemma mul_one_r (x : float) : x * 1 = x.
Proof.
  apply Prim2SF_inj. rewrite mul_spec.
  change (Prim2SF 1) with (S754_finite false 4503599627370496 (-52)).
  pose proof (Prim2SF_valid x) as V.
  destruct (Prim2SF x) as [s|s| |s m e]; simpl; try reflexivity;
    try (now destruct s).
  simpl in V. unfold bounded, canonical_mantissa in V.
  apply andb_prop in V as [Hc He]. apply Z.eqb_eq in Hc.
  rewrite xorb_false_r.
  unfold binary_round_aux.
  assert (H1 : shr_fexp prec emax
                 (Zpos (m * 4503599627370496)) (e + -52) loc_Exact
               = ({| shr_m := Zpos m; shr_r := false; shr_s := false |}, e)).
  { unfold shr_fexp. rewrite mul_pow2_52.
    unfold Zdigits2. rewrite digits2_pos_52.
    replace (Zpos (digits2_pos m) + 52 + (e + -52))%Z
      with (Zpos (digits2_pos m) + e)%Z by lia.
    rewrite Hc. replace (e - (e + -52))%Z with 52%Z by lia.
    unfold shr. f_equal. lia. }
  rewrite H1. cbn [shr_m loc_of_shr_record round_nearest_even].
  assert (H2 : shr_fexp prec emax (Zpos m) e loc_Exact
               = ({| shr_m := Zpos m; shr_r := false; shr_s := false |}, e)).
  { unfold shr_fexp, Zdigits2. rewrite Hc.
    replace (e - e)%Z with 0%Z by lia. reflexivity. }
  rewrite H2. cbn [shr_m]. now rewrite He.
Qed.

End FloatFacts.

(* ================================================================== *)
(** * The normaliser *)
(* ================================================================== *)

Local Set Warnings "-inexact-float".

(** What [Number(item[k] || 0)] is, by the kind of the raw value. *)
Lemma number_or_zero_cases (item : value) (k : jsstring) (x : float) :
  number_or_zero item k = Some x ->
  match prop item k with
  | None | Some JNull => x = 0%float
  | Some (JBool b) => x = if b then 1%float else 0%float
  | Some (JNumber y) => x = if JsNumber.truthy y then y else 0%float
  | Some (JString s) => x = StringToNumber s
  | Some v => ToNumber v = Some x
  end.
Proof.
  unfold number_or_zero.
  destruct (prop item k) as [[|b|y|s|l|o]|]; simpl;
    try (intros H; injection H as <-; reflexivity);
    try (intros H; exact H).
  - destruct b; intros H; injection H as <-; reflexivity.
  - destruct (JsNumber.truthy y); intros H; injection H as <-; reflexivity.
  - destruct s; simpl; intros H; injection H as <-; reflexivity.
Qed.

Lemma normalize_fields (query : jsstring) (item : value)
  (r : NutrientRecord) :
  normalize query item = Some r ->
  forall k, number_or_zero item (key_name k) = Some (get k r).
Proof.
  unfold normalize. intros H.
  repeat match type of H with
         | match ?e with Some _ => _ | None => None end = Some _ =>
             let E := fresh "E" in
             destruct e eqn:E; [|discriminate H]
         end.
  injection H as <-. intros k; destruct k; simpl; assumption.
Qed.

(** C1, amended.  In every record that the normaliser returns, each of the
    seventeen numeric fields is [0] when the raw field is missing or falsy
    ([null], [false], [0], the empty string), and is otherwise the numeric
    coercion of the raw value: the number itself, [1] for [true], and for a
    string its value as a numeric literal, which is [NaN], not [0], when
    the string is not numeric. *)
Theorem normalize_numeric_fields (query : jsstring) (item : value)
  (r : NutrientRecord) :
  normalize query item = Some r ->
  forall k : nutrient,
    match prop item (key_name k) with
    | None | Some JNull => get k r = 0%float
    | Some (JBool b) => get k r = if b then 1%float else 0%float
    | Some (JNumber y) => get k r = if JsNumber.truthy y then y else 0%float
    | Some (JString s) => get k r = StringToNumber s
    | Some v => ToNumber v = Some (get k r)
    end.
Proof.
  intros H k. apply number_or_zero_cases.
  now apply normalize_fields with (query := query).
Qed.

Lemma normalize_sample :
  normalize (str "tofu") raw_sample = Some normalized_sample.
Proof. vm_compute. reflexivity. Qed.

Lemma normalize_numeric_fields_witness :
  carbs normalized_sample = StringToNumber (str "n/a")
  /\ fiber normalized_sample = 0%float.
Proof.
  split.
  - exact (normalize_numeric_fields _ _ _ normalize_sample Carbs).
  - exact (normalize_numeric_fields _ _ _ normalize_sample Fiber).
Defined.

(** C1 as stated fails: a raw field that is a non-numeric string comes out
    as [NaN], not as [0]. *)
Lemma normalize_non_numeric_not_zero :
  option_map carbs (normalize (str "tofu") raw_sample) = Some nan
  /\ isNaN nan = true /\ isNaN 0 = false.
Proof. vm_compute. auto. Qed.

(** C2, amended.  The normaliser does not make fields non-negative: a raw
    negative number is kept as it is.  A field is not negative when the raw
    field is missing or is a number that is not negative. *)
Theorem normalize_sign (query : jsstring) (item : value)
  (r : NutrientRecord) :
  normalize query item = Some r ->
  forall k : nutrient,
    match prop item (key_name k) with
    | None => get k r = 0%float
    | Some (JNumber y) =>
        ((y <? 0)%float = true -> get k r = y)
        /\ ((0 <=? y)%float = true -> (0 <=? get k r)%float = true)
    | Some _ => True
    end.
Proof.
  intros H k.
  pose proof (number_or_zero_cases _ _ _ (normalize_fields _ _ _ H k)) as P.
  destruct (prop item (key_name k)) as [[|b|y|s|l|o]|]; auto.
  rewrite P. unfold JsNumber.truthy. split; intros Hy.
  - assert (Hn : isNaN y = false).
    { unfold isNaN. rewrite eqb_spec. unfold SFeqb.
      rewrite ltb_spec in Hy. unfold SFltb in Hy.
      destruct (Prim2SF y); try discriminate;
        rewrite SFcompare_refl by discriminate; reflexivity. }
    assert (Hz : (y =? 0)%float = false).
    { rewrite eqb_spec. rewrite ltb_spec in Hy. unfold SFeqb, SFltb in *.
      destruct (SFcompare (Prim2SF y) (Prim2SF 0)) as [[| |]|];
        try discriminate; reflexivity. }
    now rewrite Hn, Hz.
  - destruct (negb (y =? 0)%float && negb (isNaN y)); [exact Hy|reflexivity].
Qed.

Lemma normalize_sign_witness :
  fat normalized_sample = (-5)%float
  /\ (0 <=? calories normalized_sample)%float = true.
Proof.
  pose proof (normalize_sign _ _ _ normalize_sample Fat) as F.
  pose proof (normalize_sign _ _ _ normalize_sample Calories) as C.
  split.
  - exact (proj1 F eq_refl).
  - exact (proj2 C eq_refl).
Defined.

(** C2 as stated fails: a raw negative value is not coerced to [0]. *)
Lemma normalize_keeps_negative :
  option_map fat (normalize (str "tofu") raw_sample) = Some (-5)%float
  /\ ((-5) <? 0)%float = true.
Proof. vm_compute. auto. Qed.

(** A conversion throws only on an object that has a [toString] property of
    its own; without one among the values read, a record is returned. *)
Lemma normalize_total (query : jsstring) (item : value) :
  (forall k v, prop item k = Some v -> ToString v <> None) ->
  exists r, normalize query item = Some r.
Proof.
  intros H.
  assert (Hn : forall k, exists x, number_or_zero item k = Some x).
  { intros k. unfold number_or_zero.
    destruct (prop item k) as [v|] eqn:E; [|eauto].
    destruct (truthy v); [|eauto].
    specialize (H k v E). unfold ToNumber.
    destruct v; eauto; destruct (ToString _); eauto; congruence. }
  assert (Hs : forall k d, exists x, string_or item k d = Some x).
  { intros k d. unfold string_or.
    destruct (prop item k) as [v|] eqn:E; [|eauto].
    destruct (truthy v); [|eauto].
    specialize (H k v E). destruct (ToString v); eauto; congruence. }
  unfold normalize.
  repeat match goal with
         | |- exists r, match string_or item ?k ?d with _ => _ end = _ =>
             let x := fresh "x" in let E := fresh "E" in
             destruct (Hs k d) as [x E]; rewrite E
         | |- exists r, match number_or_zero item ?k with _ => _ end = _ =>
             let x := fresh "x" in let E := fresh "E" in
             destruct (Hn k) as [x E]; rewrite E
         end.
  eauto.
Qed.

(* ================================================================== *)
(** * The scaler *)
(* ================================================================== *)

Lemma nutrient_eq_dec (a b : nutrient) : {a = b} + {a <> b}.
Proof. decide equality. Defined.

Lemma get_set_same (k : nutrient) (x : float) (r : NutrientRecord) :
  get k (set k x r) = x.
Proof. now destruct k. Qed.

Lemma get_set_other (k k' : nutrient) (x : float) (r : NutrientRecord) :
  k <> k' -> get k (set k' x r) = get k r.
Proof. destruct k, k'; try congruence; reflexivity. Qed.

Lemma name_set k x r : name (set k x r) = name r.
Proof. reflexivity. Qed.

Lemma portion_set k x r : portion (set k x r) = portion r.
Proof. reflexivity. Qed.

Section ScaleNutrients.

Variable scale : float.

(** One step of the [forEach] over the numeric keys. *)
Let step (scaled : NutrientRecord) (k : nutrient) : NutrientRecord :=
  if negb (isNaN (get k scaled))
  then set k (round2 (get k scaled * scale)%float) scaled
  else scaled.

Lemma step_other (r : NutrientRecord) (k k' : nutrient) :
  k <> k' -> get k (step r k') = get k r.
Proof.
  intros H. unfold step.
  destruct (negb (isNaN (get k' r))); [now apply get_set_other | reflexivity].
Qed.

Lemma step_same (r : NutrientRecord) (k : nutrient) :
  get k (step r k) = round2 (get k r * scale)%float.
Proof.
  unfold step. destruct (isNaN (get k r)) eqn:E; simpl.
  - apply isNaN_true in E. rewrite E, mul_nan_l. reflexivity.
  - apply get_set_same.
Qed.

Lemma fold_step_other (keys : list nutrient) (r : NutrientRecord)
  (k : nutrient) :
  ~ In k keys -> get k (fold_left step keys r) = get k r.
Proof.
  revert r; induction keys as [|k' keys IH]; intros r H; simpl; auto.
  rewrite IH by (simpl in H; tauto).
  apply step_other. simpl in H. intros ->. tauto.
Qed.

Lemma fold_step_same (keys : list nutrient) (r : NutrientRecord)
  (k : nutrient) :
  NoDup keys -> In k keys ->
  get k (fold_left step keys r) = round2 (get k r * scale)%float.
Proof.
  revert r; induction keys as [|k' keys IH]; intros r Hnd Hin; simpl.
  - destruct Hin.
  - inversion Hnd as [|? ? Hk' Hnd']; subst.
    destruct (nutrient_eq_dec k k') as [->|Hne].
    + rewrite fold_step_other by exact Hk'. apply step_same.
    + destruct Hin as [->|Hin]; [congruence|].
      rewrite IH by assumption. now rewrite step_other.
Qed.

Lemma fold_step_labels (keys : list nutrient) (r : NutrientRecord) :
  name (fold_left step keys r) = name r
  /\ portion (fold_left step keys r) = portion r.
Proof.
  revert r; induction keys as [|k keys IH]; intros r; simpl; auto.
  destruct (IH (step r k)) as [-> ->]. unfold step.
  destruct (negb (isNaN (get k r))); auto.
Qed.

Lemma numericKeys_NoDup : NoDup numericKeys.
Proof.
  unfold numericKeys.
  repeat (constructor; [simpl; intuition discriminate|]). constructor.
Qed.

Lemma numericKeys_all (k : nutrient) : In k numericKeys.
Proof. destruct k; simpl; tauto. Qed.

(** Every numeric field is multiplied and rounded; a [NaN] field, which the
    loop skips, is [NaN] either way. *)
Lemma scaleNutrients_get (item : NutrientRecord) (k : nutrient) :
  get k (scaleNutrients item scale) = round2 (get k item * scale)%float.
Proof.
  unfold scaleNutrients.
  apply (fold_step_same numericKeys item k numericKeys_NoDup
           (numericKeys_all k)).
Qed.

Lemma scaleNutrients_name (item : NutrientRecord) :
  name (scaleNutrients item scale) = name item.
Proof. exact (proj1 (fold_step_labels numericKeys item)). Qed.

End ScaleNutrients.

Lemma get_with_portion k p r : get k (with_portion p r) = get k r.
Proof. now destruct k. Qed.

Lemma name_with_portion p r : name (with_portion p r) = name r.
Proof. reflexivity. Qed.

Lemma portion_with_portion p r : portion (with_portion p r) = p.
Proof. reflexivity. Qed.

(** Both branches of the callback scale by the desired quantity over the
    reference quantity. *)
Lemma scaleItem_unfold (desiredGrams : float) (unit : option jsstring)
  (amount : option float) (item : NutrientRecord) :
  scaleItem desiredGrams unit amount item
  = with_portion (custom_portion amount unit)
      (scaleNutrients item (desiredGrams / reference (portion item))%float).
Proof.
  unfold scaleItem, reference.
  destruct (extractGramsFromPortion (portion item)) as [pg|]; [|reflexivity].
  destruct (0 <? pg)%float eqn:E.
  - now rewrite (positive_truthy pg E).
  - rewrite andb_false_r. reflexivity.
Qed.

Local Set Warnings "-inexact-float".

Lemma banana_scenario :
  foods true (fun _ => Some banana_answer) (str "banana 150g")
  = Ok [ {| name := str "Banana"; portion := str "custom serving (150g)";
            calories := 133.47; protein := 1.65; carbs := 34.32;
            fat := 0.38; fiber := 0; sugar := 0; sodium := 0; iron := 0;
            zinc := 0; calcium := 0; vitaminB12 := 0; vitaminD := 0;
            vitaminA := 0; omega3 := 0; vitaminC := 0; magnesium := 0;
            potassium := 0 |} ].
Proof. vm_compute. reflexivity. Qed.

Lemma scaleItem_field (desiredGrams : float) (unit : option jsstring)
  (amount : option float) (item : NutrientRecord) (k : nutrient) :
  get k (scaleItem desiredGrams unit amount item)
  = round2 (get k item * (desiredGrams / reference (portion item)))%float.
Proof.
  rewrite scaleItem_unfold, get_with_portion. apply scaleNutrients_get.
Qed.

Lemma scaleItem_portion (desiredGrams : float) (unit : option jsstring)
  (a : float) (item : NutrientRecord) :
  portion (scaleItem desiredGrams unit (Some a) item)
  = str "custom serving (" ++ JsNumber.toString a
      ++ labelUnit unit ++ str ")".
Proof. rewrite scaleItem_unfold, portion_with_portion. reflexivity. Qed.

Lemma scaleItem_name (desiredGrams : float) (unit : option jsstring)
  (amount : option float) (item : NutrientRecord) :
  name (scaleItem desiredGrams unit amount item) = name item.
Proof.
  rewrite scaleItem_unfold, name_with_portion.
  apply scaleNutrients_name.
Qed.

(** C8.  With [r] the desired grams over the reference quantity (the
    quantity parsed from the portion, or 100 when there is no positive
    one), every numeric field of the scaled record is the field of the
    input times [r], rounded to two decimals; the portion becomes
    "custom serving (<amount><label>)" and the name is kept.  For the query
    "banana 150g" and one record of portion "1 medium (118g)" and 105
    calories, the result has 133.47 calories and the portion
    "custom serving (150g)". *)
Theorem scaleItem_linear :
  (forall desiredGrams unit a item k,
      get k (scaleItem desiredGrams unit (Some a) item)
      = round2 (get k item
                * (desiredGrams / reference (portion item)))%float
      /\ portion (scaleItem desiredGrams unit (Some a) item)
         = str "custom serving (" ++ JsNumber.toString a
             ++ labelUnit unit ++ str ")"
      /\ name (scaleItem desiredGrams unit (Some a) item) = name item)
  /\ foods true (fun _ => Some banana_answer) (str "banana 150g")
     = Ok [ {| name := str "Banana"; portion := str "custom serving (150g)";
               calories := 133.47; protein := 1.65; carbs := 34.32;
               fat := 0.38; fiber := 0; sugar := 0; sodium := 0; iron := 0;
               zinc := 0; calcium := 0; vitaminB12 := 0; vitaminD := 0;
               vitaminA := 0; omega3 := 0; vitaminC := 0; magnesium := 0;
               potassium := 0 |} ].
Proof.
  split; [|exact banana_scenario].
  intros desiredGrams unit a item k.
  split; [apply scaleItem_field|].
  split; [apply scaleItem_portion | apply scaleItem_name].
Qed.

(** C7, amended.  Scaling a record to the very quantity parsed from its
    portion (a positive, finite one: ratio 1) leaves each numeric field
    rounded to two decimals; a field with more decimals changes. *)
Theorem scaleItem_ratio_one (item : NutrientRecord) (g : float)
  (unit : option jsstring) (amount : option float) (k : nutrient) :
  extractGramsFromPortion (portion item) = Some g ->
  (0 <? g)%float = true -> (g <? infinity)%float = true ->
  get k (scaleItem g unit amount item) = round2 (get k item).
Proof.
  intros Hp Hpos Hfin.
  rewrite scaleItem_unfold, get_with_portion, scaleNutrients_get.
  unfold reference. rewrite Hp, Hpos.
  destruct (positive_finite g Hpos Hfin) as (m & e & E).
  now rewrite (div_self g _ _ _ E), mul_one_r.
Qed.

Lemma scaleItem_ratio_one_witness :
  get Calories
    (scaleItem 100 (Some (str "g")) (Some 100%float) three_decimals)
  = round2 389.
Proof.
  exact (scaleItem_ratio_one three_decimals 100 (Some (str "g"))
           (Some 100%float) Calories eq_refl eq_refl eq_refl).
Defined.

(** C7 as stated fails: at ratio 1 a field of three decimals is not kept. *)
Lemma scaleItem_ratio_one_changes :
  extractGramsFromPortion (portion three_decimals) = Some 100%float
  /\ (100 / 100 =? 1)%float = true
  /\ protein three_decimals = 16.894%float
  /\ protein
       (scaleItem 100 (Some (str "g")) (Some 100%float) three_decimals)
     = 16.89%float
  /\ (16.89 =? 16.894)%float = false.
Proof. vm_compute. auto 6. Qed.

(* ================================================================== *)
(** * The suggestions *)
(* ================================================================== *)

Lemma map_throwing_strings (ss : list jsstring) :
  map_throwing ToString (List.map JString ss) = Some ss.
Proof.
  induction ss as [|s ss IH]; simpl; [reflexivity|]. now rewrite IH.
Qed.

(** The filter [s && s.trim()] keeps what is not blank. *)
Lemma kept_iff_not_blank (s : jsstring) :
  negb (JsString.eqb s []) && negb (JsString.eqb (trim s) [])
  = negb (blank s).
Proof.
  unfold blank. destruct s; [reflexivity|]. reflexivity.
Qed.

Lemma filter_all {A : Type} (p : A -> bool) (l : list A) :
  forallb p l = true -> filter p l = l.
Proof.
  induction l as [|a l IH]; simpl; [reflexivity|].
  intros H. apply andb_prop in H as [Ha Hl]. now rewrite Ha, IH.
Qed.

(** C9.  When the extracted object has an array under [suggestions], the
    answer is that array with each entry coerced to a string, the blank
    entries dropped and at most the first six of the rest kept, in their
    order (a coercion that throws ends the request with status 502); ten
    strings that are not blank give exactly the first six. *)
Theorem suggestions_pipeline :
  (forall text parsed entries,
      safeParseJsonObjectFromText text = Some parsed ->
      prop parsed (str "suggestions") = Some (JArray entries) ->
      suggestions text
      = match map_throwing ToString entries with
        | Some strings =>
            Ok (firstn 6 (filter (fun s => negb (blank s)) strings))
        | None => Error 502 (str "Gemini suggestions request failed")
        end)
  /\ (forall text parsed ss,
         safeParseJsonObjectFromText text = Some parsed ->
         prop parsed (str "suggestions") = Some (JArray (List.map JString ss)) ->
         List.length ss = 10%nat ->
         forallb (fun s => negb (blank s)) ss = true ->
         suggestions text = Ok (firstn 6 ss)
         /\ List.length (firstn 6 ss) = 6%nat)
  /\ suggestions ten_suggestions_answer = Ok (firstn 6 ten_suggestions).
Proof.
  assert (G : forall text parsed entries,
             safeParseJsonObjectFromText text = Some parsed ->
             prop parsed (str "suggestions") = Some (JArray entries) ->
             suggestions text
             = match map_throwing ToString entries with
               | Some strings =>
                   Ok (firstn 6 (filter (fun s => negb (blank s)) strings))
               | None => Error 502 (str "Gemini suggestions request failed")
               end).
  { intros text parsed entries Hp Hs. unfold suggestions.
    rewrite Hp, Hs. destruct (map_throwing ToString entries); [|reflexivity].
    do 2 f_equal. apply filter_ext. intros s. apply kept_iff_not_blank. }
  split; [exact G|]. split; [|vm_compute; reflexivity].
  intros text parsed ss Hp Hs Hlen Hnb.
  rewrite (G _ _ _ Hp Hs), map_throwing_strings, filter_all by exact Hnb.
  split; [reflexivity|]. rewrite length_firstn, Hlen. reflexivity.
Qed.

Lemma suggestions_pipeline_witness :
  suggestions ten_suggestions_answer = Ok (firstn 6 ten_suggestions)
  /\ List.length (firstn 6 ten_suggestions) = 6%nat.
Proof.
  refine (proj1 (proj2 suggestions_pipeline) ten_suggestions_answer
            (JObject [(str "suggestions",
                       JArray (List.map JString ten_suggestions))])
            ten_suggestions _ eq_refl eq_refl eq_refl).
  vm_compute. reflexivity.
Defined.

(* ================================================================== *)
(** * Facts about [trim] and the index functions *)
(* ================================================================== *)

Lemma trimEnd_decompose (t : jsstring) :
  exists w, t = trimEnd t ++ w /\ forallb is_space w = true.
Proof.
  exists (rev (takeWhile is_space (rev t))). split.
  - unfold trimEnd. rewrite <- rev_app_distr, takeWhile_dropWhile.
    now rewrite rev_involutive.
  - rewrite forallb_forall. intros x Hx. apply in_rev in Hx.
    pose proof (takeWhile_all is_space (rev t)) as H.
    rewrite forallb_forall in H. now apply H.
Qed.

(** A trimmed text does not begin with white space... *)
Lemma trim_head (s : jsstring) :
  match trim s with [] => True | x :: _ => is_space x = false end.
Proof.
  unfold trim, trimStart.
  pose proof (dropWhile_head is_space s) as H.
  destruct (trimEnd_decompose (dropWhile is_space s)) as (w & E & _).
  destruct (trimEnd (dropWhile is_space s)) as [|x t]; [exact I|].
  rewrite E in H. exact H.
Qed.

(** ... and does not end with it. *)
Lemma trim_last (s b : jsstring) (x : char) :
  trim s = b ++ [x] -> is_space x = false.
Proof.
  unfold trim, trimEnd. intros H.
  apply (f_equal (@rev char)) in H.
  rewrite rev_involutive, rev_app_distr in H. simpl in H.
  pose proof (dropWhile_head is_space (rev (trimStart s))) as D.
  now rewrite H in D.
Qed.

Lemma stripCodeFences_head (text : jsstring) :
  match stripCodeFences text with
  | [] => True
  | x :: _ => is_space x = false
  end.
Proof.
  unfold stripCodeFences. destruct text; [exact I | apply trim_head].
Qed.

Lemma stripCodeFences_last (text b : jsstring) (x : char) :
  stripCodeFences text = b ++ [x] -> is_space x = false.
Proof.
  unfold stripCodeFences. destruct text.
  - destruct b; discriminate.
  - apply trim_last.
Qed.

Lemma indexOf_app (c : char) (pre s : jsstring) :
  forallb (fun x => negb (char_eqb x c)) pre = true ->
  indexOf c (pre ++ c :: s) = Some (List.length pre).
Proof.
  induction pre as [|x pre IH]; simpl; intros H.
  - now rewrite char_eqb_refl.
  - apply andb_prop in H as [Hx Hp]. apply negb_true_iff in Hx.
    now rewrite Hx, IH.
Qed.

Lemma lastIndexOf_none (c : char) (s : jsstring) :
  forallb (fun x => negb (char_eqb x c)) s = true ->
  lastIndexOf c s = None.
Proof.
  induction s as [|x s IH]; simpl; intros H; [reflexivity|].
  apply andb_prop in H as [Hx Hs]. apply negb_true_iff in Hx.
  now rewrite IH, Hx.
Qed.

Lemma lastIndexOf_app (c : char) (s post : jsstring) :
  forallb (fun x => negb (char_eqb x c)) post = true ->
  lastIndexOf c (s ++ c :: post) = Some (List.length s).
Proof.
  intros H. induction s as [|x s IH]; simpl.
  - now rewrite lastIndexOf_none, char_eqb_refl.
  - now rewrite IH.
Qed.

Lemma substring_middle (pre mid post : jsstring) :
  substring (List.length pre) (List.length pre + List.length mid)
    (pre ++ mid ++ post) = mid.
Proof.
  unfold substring.
  rewrite skipn_app, skipn_all, Nat.sub_diag. simpl.
  replace (List.length pre + List.length mid - List.length pre)%nat
    with (List.length mid + 0)%nat by lia.
  rewrite firstn_app_2. simpl. apply app_nil_r.
Qed.

(* ================================================================== *)
(** * Facts about [JSON.parse] *)
(* ================================================================== *)

Lemma rest_of_refl (s : jsstring) : rest_of s s.
Proof. now exists []. Qed.

Lemma rest_of_cons (c : char) (r s : jsstring) :
  rest_of r s -> rest_of r (c :: s).
Proof. intros [b ->]. now exists (c :: b). Qed.

Lemma rest_of_trans (r s t : jsstring) :
  rest_of r s -> rest_of s t -> rest_of r t.
Proof. intros [b ->] [c ->]. exists (c ++ b). now rewrite app_assoc. Qed.

Lemma rest_of_dropWhile (p : char -> bool) (s : jsstring) :
  rest_of (dropWhile p s) s.
Proof. exists (takeWhile p s). now rewrite takeWhile_dropWhile. Qed.

Lemma rest_of_length (r s : jsstring) :
  rest_of r s -> (List.length r <= List.length s)%nat.
Proof. intros [c ->]. rewrite length_app. lia. Qed.

Lemma rest_after_here (c : char) (r : jsstring) : rest_after c r (c :: r).
Proof. now exists []. Qed.

Lemma rest_after_of (c : char) (r s t : jsstring) :
  rest_after c r s -> rest_of s t -> rest_after c r t.
Proof. intros [b ->] [d ->]. exists (d ++ b). now rewrite app_assoc. Qed.

Lemma rest_after_rest_of (c : char) (r s : jsstring) :
  rest_after c r s -> rest_of r s.
Proof.
  intros [b ->]. exists (b ++ [c]). now rewrite <- app_assoc.
Qed.

Lemma strip_prefix_rest (p s r : jsstring) :
  strip_prefix p s = Some r -> rest_of r s.
Proof.
  revert s; induction p as [|x p IH]; intros s; simpl.
  - destruct s; intros H; injection H as <-; apply rest_of_refl.
  - destruct s as [|y s]; [discriminate|].
    destruct (char_eqb x y); [|discriminate].
    intros H. apply rest_of_cons. now apply IH.
Qed.

Lemma parse_string_rest (s t r : jsstring) :
  parse_string s = Some (t, r) -> rest_of r s.
Proof.
  remember (List.length s) as n eqn:Hn.
  revert s t r Hn.
  induction n as [n IH] using (well_founded_induction lt_wf).
  intros s t r Hn.
  assert (IH' : forall s' t' r',
             (List.length s' < n)%nat -> parse_string s' = Some (t', r') ->
             rest_of r' s').
  { intros s' t' r' Hl. now apply (IH _ Hl). }
  clear IH. subst n.
  destruct s as [|c s1]; simpl; [discriminate|].
  destruct (char_eqb c 34%N).
  { intros H; injection H as <- <-. apply rest_of_cons, rest_of_refl. }
  assert (Step : forall x s' (Hl : (List.length s' < S (List.length s1))%nat),
             match parse_string s' with
             | Some (t0, rest) => Some (x :: t0, rest)
             | None => None
             end = Some (t, r) -> rest_of r s').
  { intros x s' Hl H.
    destruct (parse_string s') as [[t0 rest]|] eqn:E; [|discriminate].
    injection H as <- <-. now apply (IH' _ _ _ Hl E). }
  match goal with
  | |- (if ?b then _ else _) = Some _ -> _ => destruct b
  end.
  - destruct s1 as [|e s2]; [intros H; discriminate H|].
    repeat match goal with
           | |- (if ?b then _ else _) = Some _ -> _ =>
               destruct b;
               [try (intros H; do 2 apply rest_of_cons;
                     apply (Step _ s2 ltac:(simpl; lia) H))|]
           end; try discriminate.
    destruct s2 as [|a [|b [|c' [|d s3]]]]; try (intros H; discriminate H).
    destruct (hex4 a b c' d); [|discriminate].
    intros H. do 6 apply rest_of_cons.
    apply (Step _ s3 ltac:(simpl; lia) H).
  - destruct (c <? 32)%N; [discriminate|].
    intros H. apply rest_of_cons. apply (Step _ s1 ltac:(simpl; lia) H).
Qed.

Lemma scan_exponent_rest (s r : jsstring) (e : Z) :
  scan_exponent s = Some (e, r) -> rest_of r s.
Proof.
  unfold scan_exponent. destruct s as [|c s1]; [discriminate|].
  destruct (char_eqb c (ch "e") || char_eqb c (ch "E")); [|discriminate].
  set (sg := match s1 with
             | sg :: r1 =>
                 if char_eqb sg (ch "-") then (true, r1)
                 else if char_eqb sg (ch "+") then (false, r1)
                 else (false, s1)
             | [] => (false, s1)
             end).
  assert (Hsg : rest_of (snd sg) s1).
  { subst sg. destruct s1 as [|x s2]; [apply rest_of_refl|].
    destruct (char_eqb x (ch "-")); [apply rest_of_cons, rest_of_refl|].
    destruct (char_eqb x (ch "+")); [apply rest_of_cons|];
      apply rest_of_refl. }
  destruct sg as [neg r']. simpl in Hsg.
  destruct (takeWhile is_digit r'); [discriminate|].
  intros H; injection H as _ <-. apply rest_of_cons.
  eapply rest_of_trans; [apply rest_of_dropWhile | exact Hsg].
Qed.

Lemma parse_number_rest (s r : jsstring) (x : float) :
  parse_number s = Some (x, r) ->
  rest_of r s /\ (List.length r < List.length s)%nat.
Proof.
  unfold parse_number.
  set (sg := match s with
             | c :: r' => if char_eqb c (ch "-") then (true, r') else (false, s)
             | [] => (false, s)
             end).
  assert (Hsg : rest_of (snd sg) s).
  { subst sg. destruct s as [|c s1]; [apply rest_of_refl|].
    destruct (char_eqb c (ch "-")); simpl;
      [apply rest_of_cons|]; apply rest_of_refl. }
  destruct sg as [neg r0]. simpl in Hsg.
  set (ip := match r0 with
             | c :: r' =>
                 if char_eqb c (ch "0") then Some ([c], r')
                 else if is_digit c
                      then Some (takeWhile is_digit r0, dropWhile is_digit r0)
                      else None
             | [] => None
             end).
  assert (Hip : forall i r1, ip = Some (i, r1) ->
                rest_of r1 r0 /\ (List.length r1 < List.length r0)%nat).
  { subst ip. intros i r1. destruct r0 as [|c r']; [discriminate|].
    destruct (char_eqb c (ch "0")).
    - intros H; injection H as _ <-.
      split; [apply rest_of_cons, rest_of_refl | simpl; lia].
    - destruct (is_digit c) eqn:Ed; [|discriminate].
      intros H; injection H as _ <-. split.
      + exact (rest_of_dropWhile is_digit (c :: r')).
      + simpl. rewrite Ed.
        pose proof (rest_of_length _ _ (rest_of_dropWhile is_digit r')).
        simpl. lia. }
  destruct ip as [[i r1]|]; [|discriminate].
  destruct (Hip _ _ eq_refl) as [Hip1 Hip2].
  set (fp := match r1 with
             | c :: r' =>
                 if char_eqb c (ch ".") then
                   match takeWhile is_digit r' with
                   | [] => None
                   | f => Some (f, dropWhile is_digit r')
                   end
                 else Some ([], r1)
             | [] => Some ([], r1)
             end).
  assert (Hfp : forall f r2, fp = Some (f, r2) -> rest_of r2 r1).
  { subst fp. intros f r2. destruct r1 as [|c r'].
    - intros H; injection H as _ <-. apply rest_of_refl.
    - destruct (char_eqb c (ch ".")).
      + destruct (takeWhile is_digit r'); [discriminate|].
        intros H; injection H as _ <-.
        apply rest_of_cons, rest_of_dropWhile.
      + intros H; injection H as _ <-. apply rest_of_refl. }
  destruct fp as [[f r2]|]; [|discriminate].
  specialize (Hfp _ _ eq_refl).
  set (ep := match r2 with
             | c :: _ =>
                 if char_eqb c (ch "e") || char_eqb c (ch "E")
                 then scan_exponent r2 else Some (0, r2)
             | [] => Some (0, r2)
             end).
  assert (Hep : forall e r3, ep = Some (e, r3) -> rest_of r3 r2).
  { subst ep. intros e r3. destruct r2 as [|c r'].
    - intros H; injection H as _ <-. apply rest_of_refl.
    - destruct (char_eqb c (ch "e") || char_eqb c (ch "E")).
      + apply scan_exponent_rest.
      + intros H; injection H as _ <-. apply rest_of_refl. }
  destruct ep as [[e r3]|]; [|discriminate].
  specialize (Hep _ _ eq_refl).
  intros H; injection H as _ <-.
  split; [eauto using rest_of_trans|].
  apply rest_of_length in Hsg, Hfp, Hep. lia.
Qed.

Lemma rest_after_length (c : char) (r s : jsstring) :
  rest_after c r s -> (List.length r < List.length s)%nat.
Proof. intros [b ->]. rewrite length_app. simpl. lia. Qed.

Lemma rest_after_cons (c x : char) (r s : jsstring) :
  rest_after c r s -> rest_after c r (x :: s).
Proof. intros [b ->]. now exists (x :: b). Qed.

(** Reading a value takes at least one character; an array is read from a
    [[], after white space, up to its []]; an object up to its [}]. *)
Lemma parse_value_shape (fuel : nat) :
  (forall s v r,
      parse_value fuel s = Some (v, r) ->
      rest_of r s /\ (List.length r < List.length s)%nat
      /\ (isArray v = true ->
          rest_after (ch "]") r s
          /\ exists t, skip_ws s = ch "[" :: t))
  /\ (forall s acc v r,
         parse_elements fuel s acc = Some (v, r) ->
         isArray v = true /\ rest_after (ch "]") r s)
  /\ (forall s acc v r,
         parse_members fuel s acc = Some (v, r) ->
         isArray v = false /\ rest_after (ch "}") r s).
Proof.
  induction fuel as [|fuel (IHv & IHe & IHm)];
    [repeat split; discriminate|].
  assert (Lift : forall s c t r,
             skip_ws s = c :: t -> rest_of r t ->
             rest_of r s /\ (List.length r < List.length s)%nat).
  { intros s c t r Es Hr.
    pose proof (rest_of_dropWhile is_ws s) as Hs.
    fold (skip_ws s) in Hs. rewrite Es in Hs.
    split; [eauto using rest_of_trans, rest_of_cons|].
    apply rest_of_length in Hs, Hr. simpl in Hs. lia. }
  assert (LiftA : forall x s c t r,
             skip_ws s = c :: t -> rest_after x r t -> rest_after x r s).
  { intros x s c t r Es Hr.
    pose proof (rest_of_dropWhile is_ws s) as Hs.
    fold (skip_ws s) in Hs. rewrite Es in Hs.
    eapply rest_after_of; [apply rest_after_cons; exact Hr | exact Hs]. }
  assert (Here : forall x s c t,
             skip_ws s = c :: t -> char_eqb c x = true ->
             rest_after x t s).
  { intros x s c t Es Hc. apply char_eqb_eq in Hc. subst c.
    pose proof (rest_of_dropWhile is_ws s) as Hs.
    fold (skip_ws s) in Hs. rewrite Es in Hs.
    eapply rest_after_of; [apply rest_after_here | exact Hs]. }
  split; [|split].
  - (* parse_value *)
    intros s v r. cbn [parse_value].
    destruct (skip_ws s) as [|c t] eqn:Es; [discriminate|].
    destruct (char_eqb c (ch "[")) eqn:Eb.
    { assert (Hopen : exists t0, c :: t = ch "[" :: t0).
      { apply char_eqb_eq in Eb. subst c. now exists t. }
      destruct (skip_ws t) as [|c' t'] eqn:Et; [discriminate|].
      destruct (char_eqb c' (ch "]")) eqn:Ec.
      - intros H; injection H as <- <-.
        pose proof (Here _ _ _ _ Et Ec) as Ha.
        pose proof (LiftA _ _ _ _ _ Es Ha) as Hs.
        split; [eapply rest_after_rest_of; exact Hs|].
        split; [eapply rest_after_length; exact Hs|].
        intros _. split; [exact Hs|]. exact Hopen.
      - intros H. apply IHe in H as [Hv Ha].
        pose proof (LiftA _ _ _ _ _ Es Ha) as Hs.
        split; [eapply rest_after_rest_of; exact Hs|].
        split; [eapply rest_after_length; exact Hs|].
        intros _. split; [exact Hs|]. exact Hopen. }
    destruct (char_eqb c (ch "{")) eqn:Eo.
    { destruct (skip_ws t) as [|c' t'] eqn:Et; [discriminate|].
      destruct (char_eqb c' (ch "}")) eqn:Ec.
      - intros H; injection H as <- <-.
        pose proof (Here _ _ _ _ Et Ec) as Ha.
        pose proof (LiftA _ _ _ _ _ Es Ha) as Hs.
        split; [eapply rest_after_rest_of; exact Hs|].
        split; [eapply rest_after_length; exact Hs|].
        discriminate.
      - intros H. apply IHm in H as [Hv Ha].
        pose proof (LiftA _ _ _ _ _ Es Ha) as Hs.
        split; [eapply rest_after_rest_of; exact Hs|].
        split; [eapply rest_after_length; exact Hs|].
        congruence. }
    destruct (char_eqb c 34%N).
    { destruct (parse_string t) as [[t0 r0]|] eqn:Ep; [|discriminate].
      intros H; injection H as <- <-.
      apply parse_string_rest in Ep.
      destruct (Lift _ _ _ _ Es Ep) as [L1 L2].
      split; [exact L1|]. split; [exact L2|]. discriminate. }
    destruct (char_eqb c (ch "t")).
    { destruct (strip_prefix (str "rue") t) as [r0|] eqn:Ep; [|discriminate].
      intros H; injection H as <- <-.
      apply strip_prefix_rest in Ep.
      destruct (Lift _ _ _ _ Es Ep) as [L1 L2].
      split; [exact L1|]. split; [exact L2|]. discriminate. }
    destruct (char_eqb c (ch "f")).
    { destruct (strip_prefix (str "alse") t) as [r0|] eqn:Ep; [|discriminate].
      intros H; injection H as <- <-.
      apply strip_prefix_rest in Ep.
      destruct (Lift _ _ _ _ Es Ep) as [L1 L2].
      split; [exact L1|]. split; [exact L2|]. discriminate. }
    destruct (char_eqb c (ch "n")).
    { destruct (strip_prefix (str "ull") t) as [r0|] eqn:Ep; [|discriminate].
      intros H; injection H as <- <-.
      apply strip_prefix_rest in Ep.
      destruct (Lift _ _ _ _ Es Ep) as [L1 L2].
      split; [exact L1|]. split; [exact L2|]. discriminate. }
    destruct (parse_number (c :: t)) as [[x r0]|] eqn:Ep; [|discriminate].
    intros H; injection H as <- <-.
    apply parse_number_rest in Ep as [Hr Hl].
    pose proof (rest_of_dropWhile is_ws s) as Hs.
    fold (skip_ws s) in Hs. rewrite Es in Hs.
    split; [eauto using rest_of_trans|].
    split; [apply rest_of_length in Hs; lia|]. discriminate.
  - (* parse_elements *)
    intros s acc v r. cbn [parse_elements].
    destruct (parse_value fuel s) as [[v0 r0]|] eqn:Ev; [|discriminate].
    apply IHv in Ev as (Hr0 & _ & _).
    destruct (skip_ws r0) as [|c t] eqn:Es; [discriminate|].
    destruct (char_eqb c (ch ",")).
    + intros H. apply IHe in H as [Hv Ha]. split; [exact Hv|].
      eapply rest_after_of; [|exact Hr0].
      eapply LiftA; [exact Es|]. exact Ha.
    + destruct (char_eqb c (ch "]")) eqn:Ec; [|discriminate].
      intros H; injection H as <- <-. split; [reflexivity|].
      eapply rest_after_of; [|exact Hr0]. eapply Here; eauto.
  - (* parse_members *)
    intros s acc v r. cbn [parse_members].
    destruct (skip_ws s) as [|q t] eqn:Es; [discriminate|].
    destruct (char_eqb q 34%N); [|discriminate].
    destruct (parse_string t) as [[k r1]|] eqn:Ep; [|discriminate].
    apply parse_string_rest in Ep.
    destruct (skip_ws r1) as [|c r2] eqn:E1; [discriminate|].
    destruct (char_eqb c (ch ":")); [|discriminate].
    destruct (parse_value fuel r2) as [[v0 r3]|] eqn:Ev; [|discriminate].
    apply IHv in Ev as (Hr3 & _ & _).
    assert (Hup : forall x z, rest_after x z r3 -> rest_after x z s).
    { intros x z Hz.
      eapply LiftA; [exact Es|].
      eapply rest_after_of; [|exact Ep].
      eapply LiftA; [exact E1|].
      eapply rest_after_of; [exact Hz | exact Hr3]. }
    destruct (skip_ws r3) as [|c' r4] eqn:E3; [discriminate|].
    destruct (char_eqb c' (ch ",")).
    + intros H. apply IHm in H as [Hv Ha]. split; [exact Hv|].
      apply Hup. eapply LiftA; [exact E3|]. exact Ha.
    + destruct (char_eqb c' (ch "}")) eqn:Ec; [|discriminate].
      intros H; injection H as <- <-. split; [reflexivity|].
      apply Hup. eapply Here; eauto.
Qed.

Lemma skip_ws_length (s : jsstring) (c : char) (t : jsstring) :
  skip_ws s = c :: t -> (List.length t < List.length s)%nat.
Proof.
  intros E. pose proof (rest_of_length _ _ (rest_of_dropWhile is_ws s)) as H.
  fold (skip_ws s) in H. rewrite E in H. simpl in H. lia.
Qed.

(** Past twice the length of the text, more fuel changes nothing: the
    parser has run to its end. *)
Lemma parse_value_fuel (f : nat) :
  (forall g s,
      (2 * List.length s < f)%nat -> (2 * List.length s < g)%nat ->
      parse_value f s = parse_value g s)
  /\ (forall g s acc,
         (2 * List.length s + 1 < f)%nat -> (2 * List.length s + 1 < g)%nat ->
         parse_elements f s acc = parse_elements g s acc)
  /\ (forall g s acc,
         (2 * List.length s + 1 < f)%nat -> (2 * List.length s + 1 < g)%nat ->
         parse_members f s acc = parse_members g s acc).
Proof.
  induction f as [|f (IHv & IHe & IHm)]; [repeat split; intros; lia|].
  split; [|split].
  - intros [|g] s Hf Hg; [lia|]. cbn [parse_value].
    destruct (skip_ws s) as [|c t] eqn:Es; [reflexivity|].
    apply skip_ws_length in Es.
    destruct (char_eqb c (ch "[")).
    { destruct (skip_ws t) as [|c' t']; [reflexivity|].
      destruct (char_eqb c' (ch "]")); [reflexivity|].
      apply IHe; lia. }
    destruct (char_eqb c (ch "{")); [|reflexivity].
    destruct (skip_ws t) as [|c' t']; [reflexivity|].
    destruct (char_eqb c' (ch "}")); [reflexivity|].
    apply IHm; lia.
  - intros [|g] s acc Hf Hg; [lia|]. cbn [parse_elements].
    rewrite (IHv g s) by lia.
    destruct (parse_value g s) as [[v r]|] eqn:Ev; [|reflexivity].
    apply (proj1 (parse_value_shape g)) in Ev as (_ & Hl & _).
    destruct (skip_ws r) as [|c t] eqn:Es; [reflexivity|].
    apply skip_ws_length in Es.
    destruct (char_eqb c (ch ",")); [|reflexivity].
    apply IHe; lia.
  - intros [|g] s acc Hf Hg; [lia|]. cbn [parse_members].
    destruct (skip_ws s) as [|q t] eqn:Es; [reflexivity|].
    apply skip_ws_length in Es.
    destruct (char_eqb q 34%N); [|reflexivity].
    destruct (parse_string t) as [[k r1]|] eqn:Ep; [|reflexivity].
    apply parse_string_rest, rest_of_length in Ep.
    destruct (skip_ws r1) as [|c r2] eqn:E1; [reflexivity|].
    apply skip_ws_length in E1.
    destruct (char_eqb c (ch ":")); [|reflexivity].
    rewrite (IHv g r2) by lia.
    destruct (parse_value g r2) as [[v r3]|] eqn:Ev; [|reflexivity].
    apply (proj1 (parse_value_shape g)) in Ev as (_ & Hl & _).
    destruct (skip_ws r3) as [|c' r4] eqn:E3; [reflexivity|].
    apply skip_ws_length in E3.
    destruct (char_eqb c' (ch ",")); [|reflexivity].
    apply IHm; lia.
Qed.

(** [JSON.parse] with any fuel past its own gives the same result. *)
Lemma parse_fuel (s : jsstring) (f : nat) :
  (2 * List.length s < f)%nat ->
  parse s
  = match parse_value f s with
    | Some (v, r) => match skip_ws r with [] => Some v | _ => None end
    | None => None
    end.
Proof.
  intros H. unfold parse.
  now rewrite (proj1 (parse_value_fuel (S (2 * List.length s))) f s)
    by lia.
Qed.

Lemma dropWhile_nil_all (p : char -> bool) (s : jsstring) :
  dropWhile p s = [] -> forallb p s = true.
Proof.
  induction s as [|c r IH]; simpl; [reflexivity|].
  destruct (p c); [exact IH | discriminate].
Qed.

Lemma is_ws_is_space (c : char) : is_ws c = true -> is_space c = true.
Proof.
  unfold is_ws, char_eqb. intros H.
  repeat (apply orb_prop in H as [H|H]); apply N.eqb_eq in H; subst c;
    reflexivity.
Qed.

(** The text of an array begins, after white space, with [[] and ends,
    before white space, with []]. *)
Lemma parse_array_brackets (s : jsstring) (a : list value) :
  parse s = Some (JArray a) ->
  (exists t, skip_ws s = ch "[" :: t)
  /\ (exists body w, s = body ++ ch "]" :: w /\ forallb is_ws w = true).
Proof.
  unfold parse.
  destruct (parse_value _ s) as [[v r]|] eqn:E; [|discriminate].
  destruct (skip_ws r) eqn:Er; [|discriminate].
  intros H; injection H as ->.
  apply (proj1 (parse_value_shape _)) in E as (_ & _ & Ha).
  destruct (Ha eq_refl) as [[body Hb] Ht].
  split; [exact Ht|]. exists body, r. split; [exact Hb|].
  now apply dropWhile_nil_all.
Qed.

(* ================================================================== *)
(** * Text extraction *)
(* ================================================================== *)

Lemma object_like_shape (v : value) :
  object_like v = true ->
  (exists props, v = JObject props) \/ (exists items, v = JArray items).
Proof.
  unfold object_like.
  destruct v; simpl; rewrite ?andb_false_r; try discriminate; eauto.
Qed.

(** C3, amended.  What [safeParseJsonObjectFromText] returns, when it is
    not [null], is of type [object] and not [null]: a plain object or an
    array.  A text that parses to an array is returned as that array, not
    turned into a failure. *)
Theorem safeParseJsonObjectFromText_shape :
  (forall text v,
      safeParseJsonObjectFromText text = Some v ->
      (exists props, v = JObject props) \/ (exists items, v = JArray items))
  /\ (forall text items,
         parse (stripCodeFences text) = Some (JArray items) ->
         safeParseJsonObjectFromText text = Some (JArray items)).
Proof.
  split.
  - intros text v. unfold safeParseJsonObjectFromText. cbv zeta beta.
    assert (Ha : forall r : option value,
               match r with
               | Some parsed =>
                   if object_like parsed then Some parsed else None
               | None => None
               end = Some v -> object_like v = true).
    { intros [p|]; [|discriminate].
      destruct (object_like p) eqn:E; [|discriminate].
      intros H; injection H as <-. exact E. }
    destruct (match parse (stripCodeFences text) with
              | Some parsed =>
                  if object_like parsed then Some parsed else None
              | None => None
              end) eqn:E.
    + intros H; injection H as <-. apply Ha in E.
      now apply object_like_shape.
    + destruct (indexOf _ _); [|discriminate].
      destruct (lastIndexOf _ _); [|discriminate].
      destruct (_ <? _)%nat; [|discriminate].
      intros H. apply Ha in H. now apply object_like_shape.
  - intros text items H. unfold safeParseJsonObjectFromText.
    now rewrite H.
Qed.

Lemma safeParseJsonObjectFromText_shape_witness :
  safeParseJsonObjectFromText (str "```json [1, 2] ```")
  = Some (JArray [JNumber 1; JNumber 2]).
Proof.
  apply (proj2 safeParseJsonObjectFromText_shape).
  vm_compute. reflexivity.
Defined.

(** C3 as stated fails: a text that parses to an array is not a failure;
    and a text that parses to a string is not one either, when an object
    can be cut out of it. *)
Lemma safeParseJsonObjectFromText_returns_array :
  parse (str "[1, 2]") = Some (JArray [JNumber 1; JNumber 2])
  /\ safeParseJsonObjectFromText (str "[1, 2]")
     = Some (JArray [JNumber 1; JNumber 2])
  /\ parse (json_text "'{}'") = Some (JString (str "{}"))
  /\ safeParseJsonObjectFromText (json_text "'{}'") = Some (JObject []).
Proof. vm_compute. auto. Qed.

Lemma skip_ws_trimmed (c : char) (s : jsstring) :
  is_space c = false -> skip_ws (c :: s) = c :: s.
Proof.
  intros H. unfold skip_ws. simpl.
  destruct (is_ws c) eqn:E; [|reflexivity].
  apply is_ws_is_space in E. congruence.
Qed.

Lemma last_of_app (a b : jsstring) (x y : char) :
  a ++ [x] = b ++ [y] -> x = y.
Proof. intros H. now apply app_inj_tail in H. Qed.

(** C4, amended.  When what is left of the text after the fences are
    removed is an array literal between some leading prose without [[] and
    some trailing prose without []], the array is recovered: the result is
    what [JSON.parse] gives for the literal. *)
Theorem safeParseJsonArrayFromText_embedded
  (text pre json post body : jsstring) (a : list value) :
  stripCodeFences text = pre ++ json ++ post ->
  forallb (fun x => negb (char_eqb x (ch "["))) pre = true ->
  forallb (fun x => negb (char_eqb x (ch "]"))) post = true ->
  json = ch "[" :: body ++ [ch "]"] ->
  parse json = Some (JArray a) ->
  safeParseJsonArrayFromText text = Some a.
Proof.
  intros Hc Hpre Hpost Hjson Hparse.
  unfold safeParseJsonArrayFromText. cbv zeta.
  assert (Hslice :
            match indexOf (ch "[") (stripCodeFences text),
                  lastIndexOf (ch "]") (stripCodeFences text) with
            | Some start, Some end_ =>
                if (start <? end_)%nat then
                  match parse (substring start (end_ + 1)
                                 (stripCodeFences text)) with
                  | Some (JArray parsed) => Some parsed
                  | _ => None
                  end
                else None
            | _, _ => None
            end = Some a).
  { rewrite Hc.
    assert (Hi : indexOf (ch "[") (pre ++ json ++ post)
                 = Some (List.length pre)).
    { rewrite Hjson. simpl. now apply indexOf_app. }
    assert (Hl : lastIndexOf (ch "]") (pre ++ json ++ post)
                 = Some (List.length pre + S (List.length body))%nat).
    { rewrite Hjson.
      replace (pre ++ (ch "[" :: body ++ [ch "]"]) ++ post)
        with ((pre ++ ch "[" :: body) ++ ch "]" :: post)
        by (rewrite <- !app_assoc; simpl; rewrite <- app_assoc;
            reflexivity).
      rewrite lastIndexOf_app by exact Hpost.
      rewrite length_app. reflexivity. }
    rewrite Hi, Hl.
    assert (Hlt : (List.length pre <? List.length pre + S (List.length body))%nat
                  = true) by (apply Nat.ltb_lt; lia).
    rewrite Hlt.
    replace (List.length pre + S (List.length body) + 1)%nat
      with (List.length pre + List.length json)%nat
      by (rewrite Hjson; simpl; rewrite length_app; simpl; lia).
    rewrite substring_middle, Hparse. reflexivity. }
  destruct (parse (stripCodeFences text)) as [[| | | |b|]|] eqn:Ed;
    try exact Hslice.
  (* the whole text parses to an array: it is the literal itself *)
  destruct (parse_array_brackets _ _ Ed) as [[t Ht] (bd & w & Hw & Hws)].
  assert (Hpre0 : pre = []).
  { destruct pre as [|x pre']; [reflexivity|]. exfalso.
    pose proof (stripCodeFences_head text) as Hh.
    rewrite Hc in Hh, Ht. simpl in Hh, Ht.
    rewrite skip_ws_trimmed in Ht by exact Hh.
    injection Ht as Hx _. subst x. simpl in Hpre. discriminate Hpre. }
  assert (Hpost0 : post = []).
  { destruct post as [|p0 post0]; [reflexivity|]. exfalso.
    destruct (@exists_last _ (p0 :: post0)) as (post' & y & Ey);
      [discriminate|].
    rewrite Ey in Hc, Hpost.
    rewrite forallb_app in Hpost. apply andb_prop in Hpost as [_ Hy].
    simpl in Hy. rewrite andb_true_r in Hy. apply negb_true_iff in Hy.
    rewrite !app_assoc in Hc.
    pose proof (stripCodeFences_last _ _ _ Hc) as Hsp.
    rewrite Hc in Hw.
    destruct w as [|w0 w1].
    - apply last_of_app in Hw. subst y. now rewrite char_eqb_refl in Hy.
    - destruct (@exists_last _ (w0 :: w1)) as (w' & z & Ez);
        [discriminate|].
      rewrite Ez in Hw, Hws.
      rewrite forallb_app in Hws. apply andb_prop in Hws as [_ Hz].
      simpl in Hz. rewrite andb_true_r in Hz. apply is_ws_is_space in Hz.
      replace (bd ++ ch "]" :: w' ++ [z]) with ((bd ++ ch "]" :: w') ++ [z])
        in Hw by (rewrite <- app_assoc; reflexivity).
      apply last_of_app in Hw. subst z. congruence. }
  subst pre post. rewrite app_nil_r in Hc. simpl in Hc.
  rewrite Hc, Hparse in Ed. congruence.
Qed.

Lemma safeParseJsonArrayFromText_embedded_witness :
  safeParseJsonArrayFromText fenced_answer = Some [JNumber 1; JNumber 2].
Proof.
  apply (safeParseJsonArrayFromText_embedded fenced_answer
           (str "Sure!  ") (str "[1, 2]") (str "  Hope this helps!")
           (str "1, 2"));
    vm_compute; reflexivity.
Defined.

(** C4 as stated fails: a bracket in the prose moves the slice, and a
    fence inside a string of the array is removed with the others. *)
Lemma safeParseJsonArrayFromText_misses :
  parse (str "[1]") = Some (JArray [JNumber 1])
  /\ safeParseJsonArrayFromText (str "Note [draft]: " ++ str "[1]") = None
  /\ parse (json_text "['```']") = Some (JArray [JString (str "```")])
  /\ safeParseJsonArrayFromText (json_text "['```']")
     = Some [JString []].
Proof. vm_compute. auto. Qed.


(* ================================================================== *)
(** * The backtracking matcher finds what the greedy pass finds *)
(* ================================================================== *)

Section Backtracking.

Import Regex.

Variable R : Type.

(** A greedy star of a character test, before a continuation that fails on
    the characters of the test: giving characters back is of no use. *)
Lemma star_class (p : char -> bool) (k : cont R) :
  (forall c t caps, p c = true -> k (c :: t) caps = None) ->
  forall s caps, run R (Star (Class p)) s caps k = k (dropWhile p s) caps.
Proof.
  intros Hk s caps. cbn [run].
  assert (G : forall fuel s,
             (List.length s <= fuel)%nat ->
             star_loop R (run R (Class p)) fuel s caps k
             = k (dropWhile p s) caps).
  { clear s. induction fuel as [|fuel IH]; intros s Hl.
    - destruct s; [reflexivity | simpl in Hl; lia].
    - cbn [star_loop run]. destruct s as [|c t]; [reflexivity|].
      cbn [dropWhile]. destruct (p c) eqn:Ep; [|reflexivity].
      assert (Hlt : (List.length t <? List.length (c :: t))%nat = true)
        by (apply Nat.ltb_lt; simpl; lia).
      rewrite Hlt, IH by (simpl in Hl; lia).
      destruct (k (dropWhile p t) caps); [reflexivity|].
      now apply Hk. }
  now apply G.
Qed.

Lemma run_lit_ci (w s : jsstring) (caps : list jsstring) (k : cont R) :
  run R (lit_ci w) s caps k
  = match strip_prefix_ci w s with
    | Some (_, r) => k r caps
    | None => None
    end.
Proof.
  revert s; induction w as [|c w IH]; intros s.
  - destruct s; reflexivity.
  - cbn [lit_ci run chr_ci strip_prefix_ci].
    destruct s as [|y s]; [reflexivity|].
    destruct (char_eqb (lower_char c) (lower_char y)); [|reflexivity].
    rewrite IH. now destruct (strip_prefix_ci w s) as [[m r]|].
Qed.

(** An alternation of literals before a continuation that cannot fail
    keeps the first literal that fits. *)
Lemma run_alts (l : list jsstring) (s : jsstring) (caps : list jsstring)
  (k : cont R) :
  (forall r c, k r c <> None) ->
  run R (alts (List.map lit_ci l)) s caps k
  = match match_alternatives l s with
    | Some (_, r) => k r caps
    | None => None
    end.
Proof.
  intros Hk. induction l as [|a l IH].
  - destruct s; reflexivity.
  - cbn [List.map alts match_alternatives].
    destruct (List.map lit_ci l) as [|b l'] eqn:El.
    + destruct l; [|discriminate]. cbn [match_alternatives].
      rewrite run_lit_ci. now destruct (strip_prefix_ci a s) as [[m r]|].
    + cbn [run]. rewrite run_lit_ci.
      destruct (strip_prefix_ci a s) as [[m r]|].
      * specialize (Hk r caps). destruct (k r caps); congruence.
      * exact IH.
Qed.

(** An alternation of literals none of which fits fails. *)
Lemma run_alts_none (l : list jsstring) (s : jsstring)
  (caps : list jsstring) (k : cont R) :
  (forall a, In a l -> strip_prefix_ci a s = None) ->
  run R (alts (List.map lit_ci l)) s caps k = None.
Proof.
  induction l as [|a l IH]; intros H.
  - destruct s; reflexivity.
  - cbn [List.map alts].
    assert (Ha : run R (lit_ci a) s caps k = None).
    { rewrite run_lit_ci, (H a) by (left; reflexivity). reflexivity. }
    destruct (List.map lit_ci l) as [|b l'] eqn:El; [exact Ha|].
    cbn [run]. rewrite Ha. apply IH. intros x Hx. apply H. now right.
Qed.

End Backtracking.

Lemma strip_prefix_ci_head (a : char) (w : jsstring) (c : char)
  (t : jsstring) :
  char_eqb (lower_char a) (lower_char c) = false ->
  strip_prefix_ci (a :: w) (c :: t) = None.
Proof. intros H. simpl. now rewrite H. Qed.

(** A digit, a point or white space is not the first letter of a unit. *)
Lemma not_letter_lower (c : char) :
  is_digit c = true \/ c = ch "." \/ c = ch "(" \/ c = ch ")"
  \/ is_space c = true ->
  forall x, In x [103; 107; 109; 108]%N ->
            char_eqb x (lower_char c) = false.
Proof.
  intros H x Hx.
  assert (Hc : lower_char c = c
               /\ c <> 103%N /\ c <> 107%N /\ c <> 109%N /\ c <> 108%N).
  { unfold lower_char.
    destruct H as [H | [-> | [-> | [-> | H]]]];
      try (repeat split; discriminate).
    - unfold is_digit in H. apply andb_prop in H as [H1 H2].
      apply Z.leb_le in H1, H2.
      destruct ((65 <=? Z.of_N c) && (Z.of_N c <=? 90)) eqn:E.
      + apply andb_prop in E as [E1 E2]. apply Z.leb_le in E1. lia.
      + repeat split; lia.
    - unfold is_space in H.
      destruct ((65 <=? Z.of_N c) && (Z.of_N c <=? 90)) eqn:E.
      + apply andb_prop in E as [E1 E2]. apply Z.leb_le in E1, E2.
        repeat (apply orb_prop in H as [H|H]);
          try apply andb_prop in H as [H1 H2];
          rewrite ?Z.leb_le, ?Z.eqb_eq in *; lia.
      + repeat split; intros ->; discriminate H. }
  destruct Hc as (Hl & Hg & Hk & Hm & Hll). rewrite Hl.
  apply N.eqb_neq. simpl in Hx.
  repeat destruct Hx as [Hx|Hx]; try contradiction; congruence.
Qed.

Lemma quantity_units_heads (a : jsstring) :
  In a quantity_units ->
  exists x w, a = x :: w /\ In (lower_char x) [103; 107; 109; 108]%N.
Proof.
  intros H. simpl in H.
  repeat destruct H as [H|H]; try contradiction; subst a;
    eexists; eexists; (split; [reflexivity|]); simpl; tauto.
Qed.

Lemma match_alternatives_none (l : list jsstring) (s : jsstring) :
  (forall a, In a l -> strip_prefix_ci a s = None) ->
  match_alternatives l s = None.
Proof.
  induction l as [|a l IH]; intros H; [reflexivity|].
  simpl. rewrite (H a) by (left; reflexivity).
  apply IH. intros x Hx. apply H. now right.
Qed.

Lemma units_not_letter (c : char) (t : jsstring) :
  is_digit c = true \/ c = ch "." \/ c = ch "(" \/ c = ch ")"
  \/ is_space c = true ->
  forall a, In a quantity_units -> strip_prefix_ci a (c :: t) = None.
Proof.
  intros H a Ha.
  destruct (quantity_units_heads a Ha) as (x & w & -> & Hx).
  apply strip_prefix_ci_head. now apply not_letter_lower.
Qed.

Section QuantityPattern.

Import Regex.

Let R : Type := (list jsstring * jsstring)%type.

Let final : cont R := fun s' caps => Some (caps, s').

Let units : regex := Group (alts (List.map lit_ci quantity_units)).

Lemma firstn_consumed (a b : jsstring) :
  firstn (List.length (a ++ b) - List.length b) (a ++ b) = a.
Proof.
  rewrite length_app.
  replace (List.length a + List.length b - List.length b)%nat
    with (List.length a + 0)%nat by lia.
  rewrite firstn_app_2. simpl. apply app_nil_r.
Qed.

Lemma run_units (s : jsstring) (caps : list jsstring) :
  run R units s caps final
  = match match_alternatives quantity_units s with
    | Some (u, post) => Some (caps ++ [u], post)
    | None => None
    end.
Proof.
  unfold units. cbn [run]. rewrite run_alts by (intros; discriminate).
  destruct (match_alternatives quantity_units s) as [[u post]|] eqn:E;
    [|reflexivity].
  apply match_alternatives_sound in E as [-> _].
  unfold final. now rewrite firstn_consumed.
Qed.

Lemma run_units_not_letter (c : char) (t : jsstring)
  (caps : list jsstring) :
  is_digit c = true \/ c = ch "." \/ c = ch "(" \/ c = ch ")"
  \/ is_space c = true ->
  run R units (c :: t) caps final = None.
Proof.
  intros H. rewrite run_units.
  rewrite match_alternatives_none; [reflexivity|].
  now apply units_not_letter.
Qed.

Lemma run_space_units (s : jsstring) (caps : list jsstring) :
  run R (Seq (Star space) units) s caps final
  = match match_alternatives quantity_units (dropWhile is_space s) with
    | Some (u, post) => Some (caps ++ [u], post)
    | None => None
    end.
Proof.
  change (run R (Seq (Star space) units) s caps final)
    with (run R (Star (Class is_space)) s caps
            (fun s' caps' => run R units s' caps' final)).
  rewrite star_class.
  - apply run_units.
  - intros c t caps' Hc. apply run_units_not_letter. tauto.
Qed.

Lemma char_eqb_sym (a b : char) : char_eqb a b = char_eqb b a.
Proof. apply N.eqb_sym. Qed.

(** The number of the pattern before a continuation that fails on a digit
    and on a point: the greedy reading is the only one that can go on. *)
Lemma run_number (k : cont R) (s : jsstring) (caps : list jsstring) :
  (forall c t caps', is_digit c = true \/ c = ch "." ->
                     k (c :: t) caps' = None) ->
  run R (Seq (many1 digit) (optional fraction)) s caps k
  = match match_number s with
    | Some (_, r) => k r caps
    | None => None
    end.
Proof.
  intros Hk.
  set (after := fun s' caps' => run R (optional fraction) s' caps' k).
  change (run R (Seq (many1 digit) (optional fraction)) s caps k)
    with (run R digit s caps
            (fun s1 c1 => run R (Star (Class is_digit)) s1 c1 after)).
  assert (Hafter : forall r,
             after r caps
             = match r with
               | c :: r' =>
                   if char_eqb c (ch ".") then
                     match takeWhile is_digit r' with
                     | [] => k r caps
                     | _ => k (dropWhile is_digit r') caps
                     end
                   else k r caps
               | [] => k r caps
               end).
  { intros r. unfold after.
    change (run R (optional fraction) r caps k)
      with (match run R fraction r caps k with
            | Some x => Some x
            | None => k r caps
            end).
    destruct r as [|c r']; [reflexivity|].
    change (run R fraction (c :: r') caps k)
      with (if char_eqb (ch ".") c
            then run R digit r' caps
                   (fun s1 c1 => run R (Star (Class is_digit)) s1 c1 k)
            else None).
    rewrite (char_eqb_sym (ch ".") c).
    destruct (char_eqb c (ch ".")) eqn:Ec; [|reflexivity].
    destruct r' as [|d t]; [reflexivity|].
    change (run R digit (d :: t) caps
              (fun s1 c1 => run R (Star (Class is_digit)) s1 c1 k))
      with (if is_digit d
            then run R (Star (Class is_digit)) t caps k else None).
    cbn [takeWhile dropWhile].
    destruct (is_digit d) eqn:Ed; [|reflexivity].
    rewrite star_class by (intros; apply Hk; tauto).
    destruct (k (dropWhile is_digit t) caps); [reflexivity|].
    apply Hk. right. now apply char_eqb_eq. }
  unfold match_number.
  destruct s as [|d t]; [reflexivity|].
  change (run R digit (d :: t) caps
            (fun s1 c1 => run R (Star (Class is_digit)) s1 c1 after))
    with (if is_digit d
          then run R (Star (Class is_digit)) t caps after else None).
  cbn [takeWhile dropWhile].
  destruct (is_digit d) eqn:Ed; [|reflexivity].
  rewrite star_class.
  - rewrite Hafter.
    destruct (dropWhile is_digit t) as [|c r']; [reflexivity|].
    destruct (char_eqb c (ch ".")); [|reflexivity].
    now destruct (takeWhile is_digit r').
  - intros c t' caps' Hc. unfold after.
    change (run R (optional fraction) (c :: t') caps' k)
      with (match (if char_eqb (ch ".") c
                   then run R digit t' caps'
                          (fun s1 c1 =>
                             run R (Star (Class is_digit)) s1 c1 k)
                   else None) with
            | Some x => Some x
            | None => k (c :: t') caps'
            end).
    assert (Hd : char_eqb (ch ".") c = false).
    { apply N.eqb_neq. intros <-. discriminate Hc. }
    rewrite Hd. apply Hk. now left.
Qed.

(** At each position the pattern of the source matches what the greedy
    pass reads. *)
Lemma here_quantity (s : jsstring) :
  here quantity_pattern s
  = match match_quantity_here s with
    | Some (num, u, post) => Some ([num; u], post)
    | None => None
    end.
Proof.
  unfold here.
  set (k := fun s' caps' =>
              run R (Seq (Star space) units) s'
                (caps' ++ [firstn (List.length s - List.length s') s])
                final).
  change (run (list jsstring * jsstring) quantity_pattern s []
            (fun s' caps => Some (caps, s')))
    with (run R (Seq (many1 digit) (optional fraction)) s [] k).
  rewrite run_number.
  - unfold match_quantity_here.
    destruct (match_number s) as [[num r]|] eqn:E; [|reflexivity].
    unfold k. rewrite run_space_units.
    apply match_number_sound in E as [-> _].
    rewrite firstn_consumed.
    now destruct (match_alternatives _ _) as [[u post]|].
  - intros c t caps' Hc. unfold k. rewrite run_space_units.
    assert (Hs : is_space c = false).
    { destruct (is_space c) eqn:Es; [|reflexivity].
      destruct Hc as [Hc | ->]; [|discriminate Es].
      apply is_space_not_digit in Es. congruence. }
    cbn [dropWhile]. rewrite Hs.
    rewrite match_alternatives_none; [reflexivity|].
    apply units_not_letter. tauto.
Qed.

End QuantityPattern.

(** X1.  The pattern of [parseAmountUnit], matched with backtracking as
    [String.prototype.match] does, gives the match of the greedy pass:
    the same text before, the same two groups, the same text after. *)
Theorem quantity_pattern_greedy (s : jsstring) :
  Regex.exec2 Regex.quantity_pattern s = quantity_regex s.
Proof.
  unfold Regex.exec2, quantity_regex.
  induction s as [|c t IH].
  - reflexivity.
  - cbn [Regex.exec search]. rewrite here_quantity.
    destruct (match_quantity_here (c :: t)) as [[[num u] post]|];
      [reflexivity|].
    destruct (Regex.exec Regex.quantity_pattern t) as [[[pre caps] post]|];
      destruct (search _ t) as [[[pre' [m1 m2]] post']|];
      try (destruct caps as [|a [|b [|x y]]]); try discriminate;
      try reflexivity; injection IH as -> -> -> ->; reflexivity.
Qed.

Section PortionPattern.

Import Regex.

Let R : Type := (list jsstring * jsstring)%type.

Let final : cont R := fun s' caps => Some (caps, s').

Let units : regex := Group (alts [lit_ci (str "g"); lit_ci (str "ml")]).

Let closing : regex := chr (ch ")").

(** The unit and the closing parenthesis of the portion pattern: [g] is
    tried before [ml], each only with a parenthesis after it. *)
Lemma run_portion_units (s : jsstring) (caps : list jsstring) :
  run R (Seq units closing) s caps final
  = let close (m : option (jsstring * jsstring)) :=
      match m with
      | Some (u, c' :: post) =>
          if char_eqb c' (ch ")") then Some (caps ++ [u], post) else None
      | _ => None
      end in
    match close (strip_prefix_ci (str "g") s) with
    | Some m => Some m
    | None => close (strip_prefix_ci (str "ml") s)
    end.
Proof.
  set (k := fun s' caps' =>
              run R closing s'
                (caps' ++ [firstn (List.length s - List.length s') s])
                final).
  change (run R (Seq units closing) s caps final)
    with (match run R (lit_ci (str "g")) s caps k with
          | Some x => Some x
          | None => run R (lit_ci (str "ml")) s caps k
          end).
  assert (Hk : forall w,
             run R (lit_ci w) s caps k
             = match strip_prefix_ci w s with
               | Some (u, c' :: post) =>
                   if char_eqb c' (ch ")")
                   then Some (caps ++ [u], post) else None
               | _ => None
               end).
  { intros w. rewrite run_lit_ci.
    destruct (strip_prefix_ci w s) as [[u r]|] eqn:E; [|reflexivity].
    apply strip_prefix_ci_sound in E as [-> _].
    unfold k. rewrite firstn_consumed.
    destruct r as [|c' post]; [reflexivity|].
    change (run R closing (c' :: post) (caps ++ [u]) final)
      with (if char_eqb (ch ")") c'
            then Some (caps ++ [u], post) else None).
    now rewrite (char_eqb_sym (ch ")") c'). }
  cbv zeta. now rewrite !Hk.
Qed.

Lemma run_portion_units_not_letter (c : char) (t : jsstring)
  (caps : list jsstring) :
  is_digit c = true \/ c = ch "." \/ c = ch "(" \/ c = ch ")"
  \/ is_space c = true ->
  run R (Seq units closing) (c :: t) caps final = None.
Proof.
  intros H. rewrite run_portion_units. cbv zeta.
  change (str "g") with [103%N]. change (str "ml") with [109%N; 108%N].
  rewrite !strip_prefix_ci_head; [reflexivity| |];
    apply not_letter_lower; simpl; tauto.
Qed.

Lemma here_portion (s : jsstring) :
  here portion_pattern s
  = match match_portion_here s with
    | Some (num, u, post) => Some ([num; u], post)
    | None => None
    end.
Proof.
  unfold here. destruct s as [|c r0]; [reflexivity|].
  set (k := fun s' caps' =>
              run R (Seq (Star space) (Seq units closing)) s'
                (caps' ++ [firstn (List.length r0 - List.length s') r0])
                final).
  change (run (list jsstring * jsstring) portion_pattern (c :: r0) []
            (fun s' caps => Some (caps, s')))
    with (if char_eqb (ch "(") c
          then run R (Seq (many1 digit) (optional fraction)) r0 [] k
          else None).
  unfold match_portion_here. rewrite (char_eqb_sym c (ch "(")).
  destruct (char_eqb (ch "(") c); [|reflexivity].
  assert (Hspace : forall s' caps',
             run R (Seq (Star space) (Seq units closing)) s' caps' final
             = run R (Seq units closing) (dropWhile is_space s') caps'
                 final).
  { intros s' caps'.
    change (run R (Seq (Star space) (Seq units closing)) s' caps' final)
      with (run R (Star (Class is_space)) s' caps'
              (fun s1 c1 => run R (Seq units closing) s1 c1 final)).
    apply star_class. intros c0 t caps0 Hc.
    apply run_portion_units_not_letter. tauto. }
  rewrite run_number.
  - destruct (match_number r0) as [[num r]|] eqn:E; [|reflexivity].
    unfold k. rewrite Hspace, run_portion_units.
    apply match_number_sound in E as [-> _].
    rewrite firstn_consumed. cbv zeta. simpl app.
    destruct (strip_prefix_ci (str "g") (dropWhile is_space r))
      as [[u [|c' post]]|];
      destruct (strip_prefix_ci (str "ml") (dropWhile is_space r))
        as [[u' [|c'' post']]|];
      try reflexivity;
      repeat match goal with
             | |- context [char_eqb ?a (ch ")")] =>
                 destruct (char_eqb a (ch ")"))
             end; reflexivity.
  - intros c0 t caps' Hc. unfold k. rewrite Hspace.
    assert (Hs : is_space c0 = false).
    { destruct (is_space c0) eqn:Es; [|reflexivity].
      destruct Hc as [Hc | ->]; [|discriminate Es].
      apply is_space_not_digit in Es. congruence. }
    cbn [dropWhile]. rewrite Hs.
    apply run_portion_units_not_letter. tauto.
Qed.

End PortionPattern.

(** X2.  The same for the pattern of [extractGramsFromPortion]. *)
Theorem portion_pattern_greedy (s : jsstring) :
  Regex.exec2 Regex.portion_pattern s = portion_regex s.
Proof.
  unfold Regex.exec2, portion_regex.
  induction s as [|c t IH].
  - reflexivity.
  - cbn [Regex.exec search]. rewrite here_portion.
    destruct (match_portion_here (c :: t)) as [[[num u] post]|];
      [reflexivity|].
    destruct (Regex.exec Regex.portion_pattern t) as [[[pre caps] post]|];
      destruct (search _ t) as [[[pre' [m1 m2]] post']|];
      try (destruct caps as [|a [|b [|x y]]]); try discriminate;
      try reflexivity; injection IH as -> -> -> ->; reflexivity.
Qed.

(* ================================================================== *)
(** * More about the quantity parser *)
(* ================================================================== *)

Lemma search_leftmost {A : Type} (here : jsstring -> option (A * jsstring))
  (s pre post : jsstring) (g : A) :
  search here s = Some (pre, g, post) ->
  forall i, (i < List.length pre)%nat -> here (skipn i s) = None.
Proof.
  revert pre; induction s as [|c r IH]; intros pre; simpl.
  - destruct (here []) as [[g' post']|]; [|discriminate].
    intros H; injection H as <- <- <-. simpl. lia.
  - destruct (here (c :: r)) as [[g' post']|] eqn:E.
    + intros H; injection H as <- <- <-. simpl. lia.
    + destruct (search here r) as [[[pre' g'] post']|] eqn:E'; [|discriminate].
      intros H; injection H as <- <- <-. intros [|i] Hi; [exact E|].
      simpl in Hi. simpl. apply (IH _ eq_refl). lia.
Qed.

(** X3.  Only the first match counts: where [parseAmountUnit] finds its
    quantity, the pattern of the source matches, and it matches at no
    position before. *)
Theorem parseAmountUnit_first_match (text pre num u post : jsstring) :
  quantity_regex text = Some (pre, (num, u), post) ->
  Regex.here Regex.quantity_pattern (skipn (List.length pre) text)
  = Some ([num; u], post)
  /\ forall i, (i < List.length pre)%nat ->
               Regex.here Regex.quantity_pattern (skipn i text) = None.
Proof.
  intros H. split.
  - unfold quantity_regex in H. apply search_sound in H as (t & -> & Ht).
    rewrite skipn_app, skipn_all, Nat.sub_diag. simpl.
    rewrite here_quantity.
    destruct (match_quantity_here t) as [[[n u'] p']|]; [|discriminate].
    now injection Ht as <- <- <-.
  - intros i Hi. rewrite here_quantity.
    pose proof (search_leftmost _ _ _ _ _ H i Hi) as E. cbv beta in E.
    now destruct (match_quantity_here (skipn i text)) as [[[n u'] p']|].
Qed.

Lemma parseAmountUnit_first_match_witness :
  Regex.here Regex.quantity_pattern (str "5ml of 250g")
  = Some ([str "5"; str "ml"], str " of 250g")
  /\ Regex.here Regex.quantity_pattern (str " 5ml of 250g") = None.
Proof.
  assert (H : quantity_regex (str "x 5ml of 250g")
              = Some (str "x ", (str "5", str "ml"), str " of 250g"))
    by (vm_compute; reflexivity).
  destruct (parseAmountUnit_first_match _ _ _ _ _ H) as [H1 H2].
  split; [exact H1|]. apply (H2 1%nat). simpl. lia.
Defined.

Lemma strip_prefix_ci_app_none (a b s : jsstring) :
  strip_prefix_ci a s = None -> strip_prefix_ci (a ++ b) s = None.
Proof.
  revert s; induction a as [|x a IH]; intros s; simpl.
  - destruct s; discriminate.
  - destruct s as [|y s]; [reflexivity|].
    destruct (char_eqb (lower_char x) (lower_char y)); [|reflexivity].
    destruct (strip_prefix_ci a s) as [[m r]|] eqn:E; [discriminate|].
    intros _. now rewrite (IH s E).
Qed.

(** Of the ten alternatives five can never be the one that matches: [g]
    goes before [gram] and [grams], [milliliter] before [milliliters], and
    [mL] and [L] repeat [ml] and [l] under the [i] flag. *)
Lemma match_alternatives_units (s u post : jsstring) :
  match_alternatives quantity_units s = Some (u, post) ->
  In (toLowerCase u)
     [str "g"; str "kg"; str "ml"; str "milliliter"; str "l"].
Proof.
  unfold quantity_units. cbn [match_alternatives].
  destruct (strip_prefix_ci (str "g") s) as [[m r]|] eqn:Eg.
  { intros H; injection H as <- <-.
    apply strip_prefix_ci_sound in Eg as [_ ->]. simpl; tauto. }
  assert (E1 : strip_prefix_ci (str "gram") s = None)
    by exact (strip_prefix_ci_app_none (str "g") (str "ram") s Eg).
  assert (E2 : strip_prefix_ci (str "grams") s = None)
    by exact (strip_prefix_ci_app_none (str "g") (str "rams") s Eg).
  rewrite E1, E2.
  destruct (strip_prefix_ci (str "kg") s) as [[m r]|] eqn:Ek.
  { intros H; injection H as <- <-.
    apply strip_prefix_ci_sound in Ek as [_ ->]. simpl; tauto. }
  destruct (strip_prefix_ci (str "ml") s) as [[m r]|] eqn:Em.
  { intros H; injection H as <- <-.
    apply strip_prefix_ci_sound in Em as [_ ->]. simpl; tauto. }
  assert (Em' : strip_prefix_ci (str "mL") s = None).
  { destruct s as [|c [|d t]]; try reflexivity; exact Em. }
  rewrite Em'.
  destruct (strip_prefix_ci (str "milliliter") s) as [[m r]|] eqn:Ei.
  { intros H; injection H as <- <-.
    apply strip_prefix_ci_sound in Ei as [_ ->]. simpl; tauto. }
  assert (E3 : strip_prefix_ci (str "milliliters") s = None)
    by exact (strip_prefix_ci_app_none (str "milliliter") (str "s") s Ei).
  rewrite E3.
  destruct (strip_prefix_ci (str "l") s) as [[m r]|] eqn:El.
  { intros H; injection H as <- <-.
    apply strip_prefix_ci_sound in El as [_ ->]. simpl; tauto. }
  assert (El' : strip_prefix_ci (str "L") s = None).
  { destruct s as [|c t]; try reflexivity; exact El. }
  rewrite El'. discriminate.
Qed.

Lemma parseAmountUnit_cases (text : jsstring) :
  parseAmountUnit text
  = {| grams := None; unit := None; amount := None; baseText := text |}
  \/ exists a u,
       amount (parseAmountUnit text) = Some a
       /\ unit (parseAmountUnit text) = Some u
       /\ ((In u [str "g"; str "ml"; str "milliliter"]
            /\ grams (parseAmountUnit text) = Some a)
           \/ (In u [str "kg"; str "l"]
               /\ grams (parseAmountUnit text) = Some (a * 1000)%float)).
Proof.
  destruct (quantity_regex text) as [[[pre [num u]] post]|] eqn:E.
  - right. rewrite (parseAmountUnit_some _ _ _ _ _ E). cbv zeta.
    exists (parseFloat num), (toLowerCase u).
    split; [reflexivity|]. split; [reflexivity|].
    unfold quantity_regex in E. apply search_sound in E as (t & _ & Ht).
    unfold match_quantity_here in Ht.
    destruct (match_number t) as [[n r]|]; [|discriminate].
    destruct (match_alternatives _ _) as [[u' post']|] eqn:Ea;
      [|discriminate].
    injection Ht as _ <- _.
    apply match_alternatives_units in Ea. simpl in Ea. cbn [baseText grams].
    destruct Ea as [Ea | [Ea | [Ea | [Ea | [Ea | []]]]]]; rewrite <- Ea;
      simpl; tauto.
  - left. now apply parseAmountUnit_none.
Qed.

(** X4.  [parseAmountUnit] returns all of [grams], [unit] and [amount] or none
    of them.  The unit it returns is one of [g], [kg], [ml], [milliliter]
    and [l], never [gram], [grams] or [milliliters]; [grams] is the amount
    for [g], [ml] and [milliliter] and a thousand times the amount for
    [kg] and [l]. *)
Theorem parseAmountUnit_units (text : jsstring) :
  parseAmountUnit text
  = {| grams := None; unit := None; amount := None; baseText := text |}
  \/ exists a u,
       amount (parseAmountUnit text) = Some a
       /\ unit (parseAmountUnit text) = Some u
       /\ ((In u [str "g"; str "ml"; str "milliliter"]
            /\ grams (parseAmountUnit text) = Some a)
           \/ (In u [str "kg"; str "l"]
               /\ grams (parseAmountUnit text) = Some (a * 1000)%float)).
Proof. exact (parseAmountUnit_cases text). Qed.

(** X5.  The label of a custom serving follows the unit that was parsed: [ml]
    for [ml], [milliliter] and [l], and [g] for [g] and for [kg] too.  The
    number before it is the amount as typed, so "2kg rice" is scaled to
    2000 grams and labelled "custom serving (2g)". *)
Theorem custom_portion_label :
  (forall text a u,
      amount (parseAmountUnit text) = Some a ->
      unit (parseAmountUnit text) = Some u ->
      custom_portion (Some a) (Some u)
      = str "custom serving (" ++ JsNumber.toString a
          ++ (if JsString.eqb u (str "g") || JsString.eqb u (str "kg")
              then str "g" else str "ml") ++ str ")")
  /\ grams (parseAmountUnit (str "2kg rice")) = Some 2000%float
  /\ custom_portion (amount (parseAmountUnit (str "2kg rice")))
       (unit (parseAmountUnit (str "2kg rice")))
     = str "custom serving (2g)".
Proof.
  split; [|split; vm_compute; reflexivity].
  intros text a u Ha Hu.
  destruct (parseAmountUnit_cases text) as [E | (a' & u' & _ & Hu' & Hc)].
  - rewrite E in Hu. discriminate.
  - rewrite Hu in Hu'. injection Hu' as <-.
    unfold custom_portion. do 2 f_equal.
    destruct Hc as [[Hin _] | [Hin _]]; simpl in Hin;
      repeat destruct Hin as [Hin|Hin]; try contradiction; subst u;
      reflexivity.
Qed.

Lemma custom_portion_label_witness :
  custom_portion (Some 1.5%float) (Some (str "l"))
  = str "custom serving (" ++ JsNumber.toString 1.5 ++ str "ml" ++ str ")".
Proof.
  exact (proj1 custom_portion_label (str "1.5 L juice") 1.5%float (str "l")
           eq_refl eq_refl).
Defined.

(* ================================================================== *)
(** * The portion parser *)
(* ================================================================== *)

Lemma match_portion_here_sound (t num u post : jsstring) :
  match_portion_here t = Some (num, u, post) ->
  exists ws,
    t = ch "(" :: num ++ ws ++ u ++ ch ")" :: post
    /\ number_text num /\ forallb is_space ws = true
    /\ (toLowerCase u = str "g" \/ toLowerCase u = str "ml").
Proof.
  unfold match_portion_here. destruct t as [|c r0]; [discriminate|].
  destruct (char_eqb c (ch "(")) eqn:Ec; [|discriminate].
  apply char_eqb_eq in Ec. subst c.
  destruct (match_number r0) as [[num' r]|] eqn:En; [|discriminate].
  apply match_number_sound in En as [-> Hnum].
  assert (Hclose : forall w,
             match strip_prefix_ci w (dropWhile is_space r) with
             | Some (unit, c' :: post0) =>
                 if char_eqb c' (ch ")")
                 then Some (num', unit, post0) else None
             | _ => None
             end = Some (num, u, post) ->
             num' = num
             /\ dropWhile is_space r = u ++ ch ")" :: post
             /\ toLowerCase u = toLowerCase w).
  { intros w.
    destruct (strip_prefix_ci w (dropWhile is_space r))
      as [[u0 [|c' post0]]|] eqn:E; try discriminate.
    destruct (char_eqb c' (ch ")")) eqn:Ec; [|discriminate].
    intros H; injection H as <- <- <-.
    apply char_eqb_eq in Ec. subst c'.
    apply strip_prefix_ci_sound in E as [-> Hl]. auto. }
  intros H.
  assert (G : num' = num
              /\ dropWhile is_space r = u ++ ch ")" :: post
              /\ (toLowerCase u = str "g" \/ toLowerCase u = str "ml")).
  { match type of H with
    | match ?a with Some m => Some m | None => ?b end = _ =>
        destruct a as [[[n1 u1] p1]|] eqn:E1
    end.
    - injection H as -> -> ->. apply Hclose in E1 as (? & ? & ?). auto.
    - apply Hclose in H as (? & ? & ?). auto. }
  destruct G as (-> & Hr & Hu).
  exists (takeWhile is_space r). repeat split; auto.
  - rewrite <- Hr, takeWhile_dropWhile. reflexivity.
  - apply takeWhile_all.
Qed.

Lemma portion_regex_no_paren (s : jsstring) :
  forallb (fun c => negb (char_eqb c (ch "("))) s = true ->
  portion_regex s = None.
Proof.
  unfold portion_regex. induction s as [|c r IH]; intros H.
  - reflexivity.
  - cbn [forallb] in H. apply andb_prop in H as [Hc Hr].
    apply negb_true_iff in Hc.
    cbn [search]. unfold match_portion_here at 1. rewrite Hc.
    now rewrite (IH Hr).
Qed.

(** X6.  [extractGramsFromPortion] gives [null] for a portion without an
    opening parenthesis; and what it gives otherwise is the number read
    from a parenthesis of the portion that holds a number, optional white
    space and [g] or [ml] in either case, and nothing else. *)
Theorem extractGramsFromPortion_sound :
  (forall portion,
      forallb (fun c => negb (char_eqb c (ch "("))) portion = true ->
      extractGramsFromPortion portion = None)
  /\ (forall portion x,
         extractGramsFromPortion portion = Some x ->
         exists pre num ws u post,
           portion = pre ++ ch "(" :: num ++ ws ++ u ++ ch ")" :: post
           /\ number_text num /\ forallb is_space ws = true
           /\ (toLowerCase u = str "g" \/ toLowerCase u = str "ml")
           /\ x = parseFloat num).
Proof.
  split.
  - intros portion H. unfold extractGramsFromPortion.
    rewrite (portion_regex_no_paren _ H). now destruct portion.
  - intros portion x. unfold extractGramsFromPortion.
    destruct portion as [|c p]; [discriminate|].
    destruct (portion_regex (c :: p)) as [[[pre [num u]] post]|] eqn:E;
      [|discriminate].
    intros H; injection H as <-.
    unfold portion_regex in E. apply search_sound in E as (t & Et & Ht).
    destruct (match_portion_here t) as [[[n u'] p']|] eqn:Em;
      [|discriminate].
    injection Ht as <- <- <-.
    apply match_portion_here_sound in Em as (ws & -> & Hn & Hw & Hu).
    exists pre, n, ws, u', p'. rewrite Et. auto.
Qed.

Lemma extractGramsFromPortion_sound_witness :
  extractGramsFromPortion (str "1 cup, about 240 ml") = None.
Proof.
  exact (proj1 extractGramsFromPortion_sound (str "1 cup, about 240 ml")
           eq_refl).
Defined.

(* ================================================================== *)
(** * More about [stripCodeFences] *)
(* ================================================================== *)

Lemma is_fence_true (a b c : char) :
  is_fence a b c = true <-> a = backtick /\ b = backtick /\ c = backtick.
Proof.
  unfold is_fence. rewrite !andb_true_iff, !char_eqb_eq. tauto.
Qed.

Lemma has_fence_fenced (s : jsstring) : has_fence s = true <-> fenced s.
Proof.
  split.
  - induction s as [|a r IH]; [discriminate|].
    cbn [has_fence]. destruct r as [|b [|c t]]; try discriminate.
    intros H. apply orb_prop in H as [H|H].
    + apply is_fence_true in H as (-> & -> & ->). now exists [], t.
    + destruct (IH H) as (x & y & E). exists (a :: x), y. now rewrite E.
  - intros (x & y & ->). induction x as [|a x IH].
    + reflexivity.
    + change ((a :: x) ++ backtick :: backtick :: backtick :: y)
        with (a :: (x ++ backtick :: backtick :: backtick :: y)).
      cbn [has_fence].
      destruct (x ++ backtick :: backtick :: backtick :: y)
        as [|b [|c t]] eqn:E.
      * destruct x; discriminate.
      * destruct x as [|? [|? ?]]; discriminate.
      * rewrite IH. apply orb_true_r.
Qed.

Lemma has_fence_false (s : jsstring) : has_fence s = false <-> ~ fenced s.
Proof.
  rewrite <- has_fence_fenced. destruct (has_fence s); split; congruence.
Qed.

Lemma not_fenced_infix (a s b : jsstring) :
  ~ fenced (a ++ s ++ b) -> ~ fenced s.
Proof.
  intros H (x & y & ->). apply H. exists (a ++ x), (y ++ b).
  rewrite <- !app_assoc. reflexivity.
Qed.

Lemma leading_backticks_cons (c : char) (s : jsstring) :
  leading_backticks (c :: s)
  = if char_eqb c backtick then S (leading_backticks s) else O.
Proof.
  unfold leading_backticks. simpl. now destruct (char_eqb c backtick).
Qed.

Lemma has_fence_cons (a : char) (s : jsstring) :
  has_fence (a :: s)
  = match s with
    | b :: c :: _ => is_fence a b c || has_fence s
    | _ => false
    end.
Proof. reflexivity. Qed.

Lemma remove_fences_cons3 (a b c : char) (r : jsstring) :
  remove_fences (a :: b :: c :: r)
  = if is_fence a b c then remove_fences r
    else a :: remove_fences (b :: c :: r).
Proof. reflexivity. Qed.

(** Removing the fences leaves none, and no more backticks at the head
    than there were. *)
Lemma remove_fences_clean (n : nat) :
  forall s, (List.length s <= n)%nat ->
            has_fence (remove_fences s) = false
            /\ (leading_backticks (remove_fences s)
                <= leading_backticks s)%nat.
Proof.
  induction n as [|n IH]; intros s Hl.
  - destruct s; [split; [reflexivity | apply le_n] | simpl in Hl; lia].
  - destruct s as [|a [|b [|c r]]].
    + split; [reflexivity | apply le_n].
    + split; [reflexivity | apply le_n].
    + split; [reflexivity | apply le_n].
    + rewrite remove_fences_cons3. destruct (is_fence a b c) eqn:Ef.
      * destruct (IH r ltac:(simpl in Hl; lia)) as [H1 H2].
        split; [exact H1|].
        apply is_fence_true in Ef as (-> & -> & ->).
        rewrite !leading_backticks_cons, !char_eqb_refl.
        clear - H2. lia.
      * destruct (IH (b :: c :: r) ltac:(simpl in Hl |- *; lia))
          as [H1 H2].
        split.
        -- remember (remove_fences (b :: c :: r)) as w eqn:Ew.
           rewrite has_fence_cons.
           destruct w as [|x [|y t]]; try reflexivity.
           rewrite H1, orb_false_r.
           destruct (is_fence a x y) eqn:Ef'; [|reflexivity].
           apply is_fence_true in Ef' as (-> & -> & ->).
           rewrite !leading_backticks_cons, !char_eqb_refl in H2.
           unfold is_fence in Ef. rewrite char_eqb_refl in Ef.
           destruct (char_eqb b backtick); [|lia].
           destruct (char_eqb c backtick); [discriminate | lia].
        -- rewrite (leading_backticks_cons a (remove_fences _)).
           rewrite (leading_backticks_cons a (b :: c :: r)).
           destruct (char_eqb a backtick); lia.
Qed.

Lemma trim_decompose (s : jsstring) :
  exists a b, s = a ++ trim s ++ b.
Proof.
  unfold trim.
  destruct (trimEnd_decompose (trimStart s)) as (w & E & _).
  exists (takeWhile is_space s), w.
  rewrite <- E. unfold trimStart. now rewrite takeWhile_dropWhile.
Qed.

Lemma stripCodeFences_no_fence (text : jsstring) :
  ~ fenced (stripCodeFences text).
Proof.
  unfold stripCodeFences. destruct text as [|c t].
  - intros (a & b & E). destruct a; discriminate.
  - destruct (trim_decompose
                (remove_fences (remove_fence_tags false (c :: t))))
      as (a & b & E).
    apply (not_fenced_infix a _ b). rewrite <- E.
    apply has_fence_false.
    exact (proj1 (remove_fences_clean _ _ (le_n _))).
Qed.

Lemma stripCodeFences_rev_head (text : jsstring) :
  match rev (stripCodeFences text) with
  | [] => True
  | c :: _ => is_space c = false
  end.
Proof.
  destruct (rev (stripCodeFences text)) as [|c r] eqn:E; [exact I|].
  apply (stripCodeFences_last text (rev r)).
  apply (f_equal (@rev char)) in E. rewrite rev_involutive in E.
  exact E.
Qed.

(** X7.  The cleaned text has no fence left in it, and no white space at
    either end. *)
Theorem stripCodeFences_clean (text : jsstring) :
  ~ fenced (stripCodeFences text)
  /\ match stripCodeFences text with
     | [] => True
     | c :: _ => is_space c = false
     end
  /\ match rev (stripCodeFences text) with
     | [] => True
     | c :: _ => is_space c = false
     end.
Proof.
  split; [|split].
  - apply stripCodeFences_no_fence.
  - apply stripCodeFences_head.
  - apply stripCodeFences_rev_head.
Qed.

Lemma remove_fence_tags_id (s : jsstring) :
  has_fence s = false -> remove_fence_tags false s = s.
Proof.
  induction s as [|a r IH]; [reflexivity|].
  intros H. cbn [remove_fence_tags andb].
  cbn [has_fence] in H.
  destruct r as [|b [|c t]].
  - reflexivity.
  - now rewrite (IH eq_refl).
  - apply orb_false_iff in H as [Hf Hr]. rewrite Hf.
    now rewrite (IH Hr).
Qed.

Lemma remove_fences_id (s : jsstring) :
  has_fence s = false -> remove_fences s = s.
Proof.
  induction s as [|a r IH]; [reflexivity|].
  intros H. cbn [remove_fences].
  cbn [has_fence] in H.
  destruct r as [|b [|c t]].
  - reflexivity.
  - now rewrite (IH eq_refl).
  - apply orb_false_iff in H as [Hf Hr]. rewrite Hf.
    now rewrite (IH Hr).
Qed.

Lemma dropWhile_id (p : char -> bool) (s : jsstring) :
  match s with [] => True | c :: _ => p c = false end ->
  dropWhile p s = s.
Proof. destruct s as [|c r]; simpl; [reflexivity|]. now intros ->. Qed.

Lemma trim_trimmed (s : jsstring) :
  match s with [] => True | c :: _ => is_space c = false end ->
  match rev s with [] => True | c :: _ => is_space c = false end ->
  trim s = s.
Proof.
  intros Hh Hl. unfold trim, trimStart, trimEnd.
  rewrite (dropWhile_id _ s Hh), (dropWhile_id _ (rev s) Hl).
  apply rev_involutive.
Qed.

(** X8.  A text without a fence is only trimmed; and cleaning a cleaned text
    changes nothing. *)
Theorem stripCodeFences_idempotent :
  (forall text, has_fence text = false ->
                stripCodeFences text = trim text)
  /\ (forall text,
         stripCodeFences (stripCodeFences text) = stripCodeFences text).
Proof.
  assert (G : forall text, has_fence text = false ->
                           stripCodeFences text = trim text).
  { intros text H. unfold stripCodeFences.
    rewrite (remove_fence_tags_id _ H), (remove_fences_id _ H).
    now destruct text. }
  split; [exact G|].
  intros text.
  rewrite G by (apply has_fence_false; apply stripCodeFences_no_fence).
  apply trim_trimmed.
  - apply stripCodeFences_head.
  - apply stripCodeFences_rev_head.
Qed.

Lemma stripCodeFences_idempotent_witness :
  stripCodeFences (str "  plain answer ") = str "plain answer".
Proof.
  exact (proj1 stripCodeFences_idempotent (str "  plain answer ") eq_refl).
Defined.

(* ================================================================== *)
(** * Answers that are not arrays *)
(* ================================================================== *)

(** Cleaning adds no character. *)
Lemma remove_fence_tags_In (n : nat) :
  forall s b c, (List.length s <= n)%nat ->
                In c (remove_fence_tags b s) -> In c s.
Proof.
  induction n as [|n IH]; intros s b c Hl.
  - destruct s; [simpl; tauto | simpl in Hl; lia].
  - destruct s as [|x r]; [simpl; tauto|].
    assert (Hr : forall b', In c (remove_fence_tags b' r) -> In c (x :: r)).
    { intros b' H. right. apply (IH r b' c); [simpl in Hl; lia | exact H]. }
    cbn [remove_fence_tags].
    destruct (b && is_alpha x); [apply Hr|].
    destruct (b && char_eqb x 10%N); [apply Hr|].
    destruct r as [|y [|z t]].
    + simpl. tauto.
    + intros [H|H]; [now left | now apply (Hr false)].
    + destruct (is_fence x y z).
      * intros H. do 3 right.
        apply (IH t true c); [simpl in Hl; lia | exact H].
      * intros [H|H]; [now left | now apply (Hr false)].
Qed.

Lemma remove_fences_In (n : nat) :
  forall s c, (List.length s <= n)%nat ->
              In c (remove_fences s) -> In c s.
Proof.
  induction n as [|n IH]; intros s c Hl.
  - destruct s; [simpl; tauto | simpl in Hl; lia].
  - destruct s as [|x [|y [|z t]]].
    + simpl; tauto.
    + simpl; tauto.
    + simpl; tauto.
    + rewrite remove_fences_cons3. destruct (is_fence x y z).
      * intros H. do 3 right.
        apply (IH t c); [simpl in Hl; lia | exact H].
      * intros [H|H]; [now left|]. right.
        apply (IH (y :: z :: t) c); [simpl in Hl |- *; lia | exact H].
Qed.

Lemma stripCodeFences_In (text : jsstring) (c : char) :
  In c (stripCodeFences text) -> In c text.
Proof.
  unfold stripCodeFences. destruct text as [|x t]; [simpl; tauto|].
  intros H.
  destruct (trim_decompose
              (remove_fences (remove_fence_tags false (x :: t))))
    as (a & b & E).
  apply (remove_fence_tags_In _ _ false c (le_n _)).
  apply (remove_fences_In _ _ c (le_n _)).
  rewrite E. apply in_or_app. right. apply in_or_app. now left.
Qed.

Lemma indexOf_not_In (c : char) (s : jsstring) :
  ~ In c s -> indexOf c s = None.
Proof.
  induction s as [|x r IH]; [reflexivity|].
  intros H. simpl.
  destruct (char_eqb x c) eqn:E.
  - apply char_eqb_eq in E. subst x. exfalso. apply H. now left.
  - rewrite IH; [reflexivity|]. intros Hr. apply H. now right.
Qed.

Lemma lastIndexOf_not_In (c : char) (s : jsstring) :
  ~ In c s -> lastIndexOf c s = None.
Proof.
  induction s as [|x r IH]; [reflexivity|].
  intros H. simpl. rewrite IH by (intros Hr; apply H; now right).
  destruct (char_eqb x c) eqn:E; [|reflexivity].
  apply char_eqb_eq in E. subst x. exfalso. apply H. now left.
Qed.

Lemma array_needs_brackets (text : jsstring) :
  ~ In (ch "[") text \/ ~ In (ch "]") text ->
  safeParseJsonArrayFromText text = None.
Proof.
  intros H.
  assert (Hc : ~ In (ch "[") (stripCodeFences text)
               \/ ~ In (ch "]") (stripCodeFences text)).
  { destruct H as [H|H]; [left | right]; intros Hin; apply H;
      now apply stripCodeFences_In. }
  unfold safeParseJsonArrayFromText. cbv zeta.
  destruct (parse (stripCodeFences text)) as [[| | | |items|]|] eqn:Ep.
  5: { exfalso.
       destruct (parse_array_brackets _ _ Ep) as [[t Ht] (bd & w & Hw & _)].
       destruct Hc as [Hc|Hc]; apply Hc.
       - pose proof (rest_of_dropWhile is_ws (stripCodeFences text)) as [a E].
         fold (skip_ws (stripCodeFences text)) in E. rewrite Ht in E.
         rewrite E. apply in_or_app. right. now left.
       - rewrite Hw. apply in_or_app. right. now left. }
  all: destruct Hc as [Hc|Hc];
    [ rewrite (indexOf_not_In _ _ Hc); reflexivity
    | rewrite (lastIndexOf_not_In _ _ Hc);
      now destruct (indexOf (ch "[") (stripCodeFences text)) ].
Qed.

(** X9.  A text in which [[] or []] does not occur yields no array. *)
Theorem safeParseJsonArrayFromText_no_bracket (text : jsstring) :
  ~ In (ch "[") text \/ ~ In (ch "]") text ->
  safeParseJsonArrayFromText text = None.
Proof. exact (array_needs_brackets text). Qed.

Lemma safeParseJsonArrayFromText_no_bracket_witness :
  safeParseJsonArrayFromText (str "I could not find that food, sorry.")
  = None.
Proof.
  apply safeParseJsonArrayFromText_no_bracket. left.
  vm_compute. intuition discriminate.
Defined.

(* ================================================================== *)
(** * The handlers *)
(* ================================================================== *)

(** X10.  The refusals of [GET /api/foods], in the order of the source: an empty
    query is refused with 400 whatever the configuration; then a missing
    API key with 500; then a failing model with 502; then an answer in
    which no array can be found, such as one without [[], with the 502 of
    the format error. *)
Theorem foods_refusals :
  (forall configured generate raw,
      trim raw = [] ->
      foods configured generate raw
      = Error 400 (str "Missing query parameter"))
  /\ (forall generate raw,
         trim raw <> [] ->
         foods false generate raw
         = Error 500 (str "GEMINI_API_KEY not configured on server"))
  /\ (forall generate raw,
         trim raw <> [] ->
         generate (or_else (baseText (parseAmountUnit (trim raw)))
                     (trim raw)) = None ->
         foods true generate raw
         = Error 502 (str "Gemini foods request failed"))
  /\ (forall generate raw text,
         trim raw <> [] ->
         generate (or_else (baseText (parseAmountUnit (trim raw)))
                     (trim raw)) = Some text ->
         ~ In (ch "[") text \/ ~ In (ch "]") text ->
         foods true generate raw
         = Error 502 (str "Invalid AI response format")).
Proof.
  repeat split.
  - intros configured generate raw H. unfold foods. now rewrite H.
  - intros generate raw H. unfold foods.
    destruct (trim raw); [congruence | reflexivity].
  - intros generate raw H Hg. unfold foods.
    destruct (trim raw) eqn:E; [congruence|]. cbn [negb].
    now rewrite Hg.
  - intros generate raw text H Hg Hb. unfold foods.
    destruct (trim raw) eqn:E; [congruence|]. cbn [negb].
    rewrite Hg. now rewrite (array_needs_brackets _ Hb).
Qed.

Lemma foods_refusals_witness :
  foods true (fun _ => Some (str "Sorry, I can not help with that."))
    (str " banana 150g ")
  = Error 502 (str "Invalid AI response format").
Proof.
  apply (proj2 (proj2 (proj2 foods_refusals)) _ _
           (str "Sorry, I can not help with that.")).
  - vm_compute. discriminate.
  - reflexivity.
  - left. vm_compute. intuition discriminate.
Defined.

(* ================================================================== *)
(** * More about the scaler *)
(* ================================================================== *)

(** A zero of either sign is written [0.00] and read back as [0]. *)
Lemma round2_zero (x : float) (s : bool) :
  Prim2SF x = S754_zero s -> round2 x = 0%float.
Proof.
  intros E. unfold round2, toFixed. rewrite E. vm_compute. reflexivity.
Qed.

Lemma finite_cases (x : float) :
  (abs x <? infinity)%float = true ->
  (exists s, Prim2SF x = S754_zero s)
  \/ (exists s m e, Prim2SF x = S754_finite s m e).
Proof.
  rewrite ltb_spec, abs_spec.
  change (Prim2SF infinity) with (S754_infinity false).
  destruct (Prim2SF x) as [s|s| |s m e]; simpl.
  - intros _. left. now exists s.
  - discriminate.
  - discriminate.
  - intros _. right. now exists s, m, e.
Qed.

(** X11.  What the scaler leaves alone: the name and the portion; a field that is
    [NaN], which the loop skips; and a field that is [0], which stays [0]
    under every finite scale, negative ones included. *)
Theorem scaleNutrients_fixed (item : NutrientRecord) (scale : float)
  (k : nutrient) :
  name (scaleNutrients item scale) = name item
  /\ portion (scaleNutrients item scale) = portion item
  /\ (isNaN (get k item) = true ->
      isNaN (get k (scaleNutrients item scale)) = true)
  /\ (get k item = 0%float ->
      (abs scale <? infinity)%float = true ->
      get k (scaleNutrients item scale) = 0%float).
Proof.
  split; [apply scaleNutrients_name|].
  split; [exact (proj2 (fold_step_labels scale numericKeys item))|].
  rewrite scaleNutrients_get. split.
  - intros H. apply isNaN_true in H. rewrite H, mul_nan_l.
    vm_compute. reflexivity.
  - intros H Hf. rewrite H.
    destruct (finite_cases scale Hf) as [[s E]|(s & m & e & E)];
      apply (round2_zero _ s); rewrite mul_spec, E;
      change (Prim2SF 0) with (S754_zero false); reflexivity.
Qed.

Lemma scaleNutrients_fixed_witness :
  get Fiber (scaleNutrients normalized_sample (-2.5)%float) = 0%float.
Proof.
  apply (scaleNutrients_fixed normalized_sample (-2.5)%float Fiber);
    vm_compute; reflexivity.
Defined.

Lemma scaleAll_cases (q : ParsedQuantity)
  (normalized : list NutrientRecord) :
  List.length (scaleAll q normalized) = List.length normalized
  /\ List.map name (scaleAll q normalized) = List.map name normalized
  /\ match grams q with
     | Some desiredGrams =>
         if JsNumber.truthy desiredGrams
         then forall r, In r (scaleAll q normalized) ->
                        portion r = custom_portion (amount q) (unit q)
         else scaleAll q normalized = normalized
     | None => scaleAll q normalized = normalized
     end.
Proof.
  unfold scaleAll. destruct (grams q) as [d|]; [|auto].
  destruct (JsNumber.truthy d); cbn [andb]; [|auto].
  destruct normalized as [|r0 l]; cbn [List.length Nat.eqb negb].
  - split; [reflexivity|]. split; [reflexivity|]. intros r [].
  - split; [apply length_map|]. split.
    + rewrite map_map. apply map_ext. intros r. apply scaleItem_name.
    + intros r Hr. apply in_map_iff in Hr as (r' & <- & _).
      rewrite scaleItem_unfold. apply portion_with_portion.
Qed.

(** X12.  The scaling pass keeps the number, the order and the names of the
    records.  With an amount that is not zero every record gets the one
    custom label; without one, or with [0 g], the records are returned as
    they are. *)
Theorem scaleAll_shape (q : ParsedQuantity)
  (normalized : list NutrientRecord) :
  List.length (scaleAll q normalized) = List.length normalized
  /\ List.map name (scaleAll q normalized) = List.map name normalized
  /\ match grams q with
     | Some desiredGrams =>
         if JsNumber.truthy desiredGrams
         then forall r, In r (scaleAll q normalized) ->
                        portion r = custom_portion (amount q) (unit q)
         else scaleAll q normalized = normalized
     | None => scaleAll q normalized = normalized
     end.
Proof. exact (scaleAll_cases q normalized). Qed.

(* ================================================================== *)
(** * More about the handlers *)
(* ================================================================== *)

Lemma map_throwing_length {A B : Type} (f : A -> option B) (l : list A)
  (l' : list B) :
  map_throwing f l = Some l' -> List.length l' = List.length l.
Proof.
  revert l'; induction l as [|a l IH]; intros l'; simpl.
  - intros H. injection H as <-. reflexivity.
  - destruct (f a) as [b|]; [|discriminate]. simpl.
    destruct (map_throwing f l) as [bs|]; [|discriminate]. simpl.
    intros H. injection H as <-. simpl. now rewrite (IH bs).
Qed.

(** X13.  A successful answer of [GET /api/foods] has one record for each entry
    of the model's array that is an object or an array, and none for the
    others; when the query carries an amount that is not zero, every record
    is labelled with that amount. *)
Theorem foods_results (configured : bool)
  (generate : jsstring -> option jsstring) (raw : jsstring)
  (results : list NutrientRecord) :
  foods configured generate raw = Ok results ->
  exists text data,
    generate (or_else (baseText (parseAmountUnit (trim raw))) (trim raw))
    = Some text
    /\ safeParseJsonArrayFromText text = Some data
    /\ List.length results = List.length (filter object_like data)
    /\ (List.length results <= List.length data)%nat
    /\ forall desiredGrams,
        grams (parseAmountUnit (trim raw)) = Some desiredGrams ->
        JsNumber.truthy desiredGrams = true ->
        forall r, In r results ->
                  portion r
                  = custom_portion (amount (parseAmountUnit (trim raw)))
                      (unit (parseAmountUnit (trim raw))).
Proof.
  unfold foods. cbv zeta.
  destruct (trim raw) as [|c query'] eqn:Eq; [discriminate|].
  destruct configured; cbn [negb]; [|discriminate].
  set (q := parseAmountUnit (c :: query')).
  destruct (generate (or_else (baseText q) (c :: query'))) as [text|] eqn:Eg;
    [|discriminate].
  destruct (safeParseJsonArrayFromText text) as [data|] eqn:Ed;
    [|discriminate].
  destruct (normalizeAll (c :: query') data) as [normalized|] eqn:En;
    [|discriminate].
  intros H. injection H as <-.
  exists text, data. split; [reflexivity|]. split; [exact Ed|].
  destruct (scaleAll_cases q normalized) as (Hl & _ & Hp).
  apply map_throwing_length in En.
  split; [congruence|]. split.
  - rewrite Hl, En. apply filter_length_le.
  - intros d Hd Ht. rewrite Hd, Ht in Hp. exact Hp.
Qed.

Lemma foods_results_witness :
  exists text data,
    Some banana_answer = Some text
    /\ safeParseJsonArrayFromText text = Some data
    /\ 1%nat = List.length (filter object_like data)
    /\ (1 <= List.length data)%nat.
Proof.
  destruct (foods_results true (fun _ => Some banana_answer)
              (str "banana 150g") _ banana_scenario)
    as (text & data & H1 & H2 & H3 & H4 & _).
  exists text, data. auto.
Defined.

(** X14.  [POST /api/suggestions] never answers with more than six suggestions,
    nor with a blank one; and an answer of the model that is a JSON array,
    which the extraction lets through as an object, is refused for its
    missing [suggestions]. *)
Theorem suggestions_bounds :
  (forall text l,
      suggestions text = Ok l ->
      (List.length l <= 6)%nat /\ forall s, In s l -> blank s = false)
  /\ (forall text items,
         parse (stripCodeFences text) = Some (JArray items) ->
         suggestions text
         = Error 502 (str "AI response missing suggestions array")).
Proof.
  split.
  - intros text l. unfold suggestions.
    destruct (safeParseJsonObjectFromText text) as [parsed|]; [|discriminate].
    destruct (prop parsed (str "suggestions")) as [[| | | |entries|]|];
      try discriminate.
    destruct (map_throwing ToString entries) as [strings|]; [|discriminate].
    set (kept := filter _ strings).
    assert (Hk : forall s, In s kept -> blank s = false).
    { intros s Hs. apply filter_In in Hs as [_ Hs].
      rewrite kept_iff_not_blank in Hs. now destruct (blank s). }
    clearbody kept. intros H.
    assert (E : l = firstn 6 kept) by congruence.
    rewrite E. split.
    + rewrite length_firstn. lia.
    + intros s Hs. apply Hk. rewrite <- (firstn_skipn 6).
      apply in_or_app. now left.
  - intros text items Hp. unfold suggestions, safeParseJsonObjectFromText.
    cbv zeta. rewrite Hp. reflexivity.
Qed.

Lemma suggestions_bounds_witness :
  suggestions (str "[1, 2]")
  = Error 502 (str "AI response missing suggestions array").
Proof.
  apply (proj2 suggestions_bounds (str "[1, 2]")
           [JNumber 1%float; JNumber 2%float]).
  vm_compute. reflexivity.
Defined.

(* ================================================================== *)
(** * The builder for fallback data *)
(* ================================================================== *)

Lemma map_throwing_ext_in {A B : Type} (f g : A -> option B) (l : list A) :
  (forall a, In a l -> f a = g a) -> map_throwing f l = map_throwing g l.
Proof.
  induction l as [|a l IH]; intros H; simpl; [reflexivity|].
  rewrite (H a) by now left.
  rewrite IH; [reflexivity|]. intros b Hb. apply H. now right.
Qed.

Lemma map_throwing_none {A B : Type} (f : A -> option B) (l : list A)
  (a : A) : In a l -> f a = None -> map_throwing f l = None.
Proof.
  induction l as [|x l IH]; intros Hin Hf; [destruct Hin|].
  simpl. destruct Hin as [->|Hin].
  - now rewrite Hf.
  - rewrite (IH Hin Hf). now destruct (f x).
Qed.

(** X15.  On items that are all objects or arrays, [buildResultsFromFallback]
    gives what the handler of [/api/foods] computes from the same array
    and the same parsed quantity.  It has no filter, though: one [null]
    among the items makes it throw, where the handler skips the entry. *)
Theorem buildResultsFromFallback_handler :
  (forall items q query,
      forallb object_like items = true ->
      buildResultsFromFallback items (grams q) (unit q) (amount q) query
      = option_map (scaleAll q) (normalizeAll query items))
  /\ (forall items desiredGrams unit amount query,
         In JNull items ->
         buildResultsFromFallback items desiredGrams unit amount query
         = None).
Proof.
  split.
  - intros items q query H.
    unfold buildResultsFromFallback, normalizeAll, scaleAll.
    rewrite (filter_all _ _ H).
    rewrite (map_throwing_ext_in _ (normalize query)).
    + destruct (map_throwing (normalize query) items); reflexivity.
    + intros a Ha. rewrite forallb_forall in H. specialize (H a Ha).
      destruct a; try reflexivity. discriminate H.
  - intros items d u a query H. unfold buildResultsFromFallback.
    rewrite (map_throwing_none _ items JNull H); reflexivity.
Qed.

Lemma buildResultsFromFallback_handler_witness :
  buildResultsFromFallback [raw_sample; JNull] None None None (str "tofu")
  = None.
Proof.
  apply (proj2 buildResultsFromFallback_handler). right. now left.
Defined.

(* ================================================================== *)
(** * The allowed origins *)
(* ================================================================== *)

Lemma split_on_cons (c : char) (s : jsstring) :
  exists piece pieces, split_on c s = piece :: pieces.
Proof.
  destruct s as [|x r]; simpl; [now eexists; eexists|].
  destruct (char_eqb x c); [now eexists; eexists|].
  destruct (split_on c r); now eexists; eexists.
Qed.

(** Splitting at a separator splits the list of pieces. *)
Lemma split_on_app (c : char) (a b : jsstring) :
  split_on c (a ++ c :: b) = split_on c a ++ split_on c b.
Proof.
  induction a as [|x a IH]; simpl.
  - now rewrite char_eqb_refl.
  - destruct (char_eqb x c); [now rewrite IH|].
    rewrite IH. destruct (split_on_cons c a) as (p & ps & ->). reflexivity.
Qed.

Lemma split_on_whole (c : char) (s : jsstring) :
  ~ In c s -> split_on c s = [s].
Proof.
  induction s as [|x r IH]; intros H; simpl; [reflexivity|].
  destruct (char_eqb x c) eqn:E.
  - apply char_eqb_eq in E. subst x. exfalso. apply H. now left.
  - rewrite IH; [reflexivity|]. intros Hr. apply H. now right.
Qed.

(** The pieces are made of the characters of the text, the separator
    excepted. *)
Lemma split_on_pieces (c : char) (s piece : jsstring) :
  In piece (split_on c s) ->
  ~ In c piece /\ forall x, In x piece -> In x s.
Proof.
  revert piece; induction s as [|x r IH]; intros piece; simpl.
  - intros [<-|[]]. split; [intros [] | intros x []].
  - destruct (char_eqb x c) eqn:E.
    + intros [<-|H]; [split; [intros [] | intros y []]|].
      destruct (IH piece H) as [H1 H2]. split; [exact H1|]. auto.
    + destruct (split_on c r) as [|p ps].
      * intros [<-|[]]. split.
        -- intros [->|[]]. rewrite char_eqb_refl in E. discriminate.
        -- intros y [->|[]]. now left.
      * intros [<-|H].
        -- destruct (IH p (or_introl eq_refl)) as [H1 H2]. split.
           ++ intros [->|Hp]; [|now apply H1].
              rewrite char_eqb_refl in E. discriminate.
           ++ intros y [->|Hy]; [now left | right; now apply H2].
        -- destruct (IH piece (or_intror H)) as [H1 H2].
           split; [exact H1|]. auto.
Qed.

Lemma trim_In (s : jsstring) (x : char) : In x (trim s) -> In x s.
Proof.
  intros H. destruct (trim_decompose s) as (a & b & E). rewrite E.
  apply in_or_app. right. apply in_or_app. now left.
Qed.

Lemma trim_idempotent (s : jsstring) : trim (trim s) = trim s.
Proof.
  apply trim_trimmed.
  - exact (trim_head s).
  - destruct (rev (trim s)) as [|x r] eqn:E; [exact I|].
    apply (trim_last s (rev r) x).
    rewrite <- (rev_involutive (trim s)), E. simpl. reflexivity.
Qed.

Lemma trim_spaces (s : jsstring) : forallb is_space s = true -> trim s = [].
Proof.
  intros H. unfold trim, trimStart.
  assert (E : dropWhile is_space s = []).
  { induction s as [|c r IH]; [reflexivity|]. simpl in H |- *.
    apply andb_prop in H as [-> H]. now apply IH. }
  now rewrite E.
Qed.

Lemma includes_string_In (l : list jsstring) (s : jsstring) :
  includes_string l s = true <-> In s l.
Proof.
  unfold includes_string. rewrite existsb_exists. split.
  - intros (x & Hx & E). apply eqb_eq in E. now subst.
  - intros H. exists s. split; [exact H | apply eqb_refl].
Qed.

Lemma allowedOrigins_In (env : option jsstring) (o : jsstring) :
  In o (allowedOrigins env)
  <-> o <> []
      /\ exists piece,
          In piece (split_on (ch ",")
                      match env with Some s => s | None => [] end)
          /\ o = trim piece.
Proof.
  unfold allowedOrigins. cbv zeta. rewrite filter_In, in_map_iff. split.
  - intros [(p & <- & Hp) Hn]. split.
    + intros E. rewrite E in Hn. discriminate.
    + now exists p.
  - intros [Hn (p & Hp & ->)]. split; [now exists p|].
    destruct (trim p); [congruence | reflexivity].
Qed.

Lemma allowedOrigins_trimmed (env : option jsstring) (o : jsstring) :
  In o (allowedOrigins env) ->
  o <> [] /\ trim o = o /\ ~ In (ch ",") o.
Proof.
  intros H. apply allowedOrigins_In in H as [Hn (p & Hp & ->)].
  split; [exact Hn|]. split; [apply trim_idempotent|].
  intros Hc. apply (proj1 (split_on_pieces _ _ _ Hp)).
  now apply trim_In.
Qed.

Lemma allowedOrigins_app (a b : jsstring) :
  allowedOrigins (Some (a ++ ch "," :: b))
  = allowedOrigins (Some a) ++ allowedOrigins (Some b).
Proof.
  unfold allowedOrigins. cbv zeta.
  now rewrite split_on_app, map_app, filter_app.
Qed.

Lemma allowedOrigins_single (o : jsstring) :
  ~ In (ch ",") o ->
  allowedOrigins (Some o) = match trim o with [] => [] | _ => [trim o] end.
Proof.
  intros H. unfold allowedOrigins. cbv zeta.
  rewrite (split_on_whole _ _ H). simpl.
  now destruct (trim o).
Qed.

(** X16.  Every allowed origin is a non-empty string without a comma and without
    white space at either end; and the list made from [a,b] is the list
    made from [a] followed by the list made from [b]. *)
Theorem allowedOrigins_entries :
  (forall env o,
      In o (allowedOrigins env) ->
      o <> [] /\ trim o = o /\ ~ In (ch ",") o)
  /\ (forall a b,
         allowedOrigins (Some (a ++ ch "," :: b))
         = allowedOrigins (Some a) ++ allowedOrigins (Some b))
  /\ (forall o,
         ~ In (ch ",") o ->
         allowedOrigins (Some o)
         = match trim o with [] => [] | _ => [trim o] end).
Proof.
  split; [exact allowedOrigins_trimmed|].
  split; [exact allowedOrigins_app | exact allowedOrigins_single].
Qed.

Lemma allowedOrigins_entries_witness :
  allowedOrigins (Some (str " https://app.example.com "))
  = [str "https://app.example.com"].
Proof.
  apply (proj2 (proj2 allowedOrigins_entries)
           (str " https://app.example.com ")).
  vm_compute. intuition discriminate.
Defined.

(** X17.  The decision of [corsOptions.origin].  A request without [Origin] is
    let in.  So is every request when [CORS_ORIGINS] is unset or holds
    nothing but commas and white space.  Otherwise an origin is let in
    exactly when it is in the list: as written between two commas, white
    space around it apart; never when it has a comma in it or white space
    at an end. *)
Theorem corsOrigin_decision :
  (forall allowed, corsOrigin allowed None = true)
  /\ (forall origin, corsOrigin (allowedOrigins None) origin = true)
  /\ (forall env origin,
         forallb (fun c => is_space c || char_eqb c (ch ",")) env = true ->
         corsOrigin (allowedOrigins (Some env)) origin = true)
  /\ (forall allowed o,
         o <> [] -> allowed <> [] ->
         (corsOrigin allowed (Some o) = true <-> In o allowed))
  /\ (forall a o b,
         ~ In (ch ",") o -> trim o <> [] ->
         corsOrigin (allowedOrigins (Some (a ++ ch "," :: o ++ ch "," :: b)))
           (Some (trim o)) = true)
  /\ (forall env o,
         allowedOrigins env <> [] -> o <> [] ->
         trim o <> o \/ In (ch ",") o ->
         corsOrigin (allowedOrigins env) (Some o) = false).
Proof.
  assert (D : forall allowed o,
             o <> [] -> allowed <> [] ->
             (corsOrigin allowed (Some o) = true <-> In o allowed)).
  { intros allowed o Ho Ha. unfold corsOrigin.
    destruct o as [|c o]; [congruence|].
    destruct allowed as [|x l]; [congruence|].
    cbn [List.length Nat.eqb orb].
    rewrite <- includes_string_In.
    destruct (includes_string (x :: l) (c :: o)); tauto. }
  pose proof allowedOrigins_trimmed as Hentries.
  pose proof allowedOrigins_app as Happ.
  pose proof allowedOrigins_single as Hone.
  split; [reflexivity|]. split; [|split; [|split; [exact D|split]]].
  - intros [[|c o]|]; reflexivity.
  - intros env origin H.
    assert (E : allowedOrigins (Some env) = []).
    { destruct (allowedOrigins (Some env)) as [|o l] eqn:E; [reflexivity|].
      exfalso.
      assert (Hin : In o (allowedOrigins (Some env)))
        by (rewrite E; now left).
      apply allowedOrigins_In in Hin as [Hn (p & Hp & ->)].
      apply Hn. apply trim_spaces. apply forallb_forall. intros x Hx.
      destruct (split_on_pieces _ _ _ Hp) as [H1 H2].
      rewrite forallb_forall in H. specialize (H x (H2 x Hx)).
      apply orb_prop in H as [H|H]; [exact H|].
      apply char_eqb_eq in H. subst x. contradiction. }
    rewrite E. destruct origin as [[|c o]|]; reflexivity.
  - intros a o b Hc Ht.
    assert (Hin : In (trim o)
                    (allowedOrigins
                       (Some (a ++ ch "," :: o ++ ch "," :: b)))).
    { rewrite Happ, Happ, (Hone o Hc).
      apply in_or_app. right. apply in_or_app. left.
      destruct (trim o); [congruence | now left]. }
    apply D; [exact Ht | | exact Hin].
    intros E. rewrite E in Hin. destruct Hin.
  - intros env o Ha Ho Hbad.
    destruct (corsOrigin (allowedOrigins env) (Some o)) eqn:E;
      [|reflexivity].
    exfalso. apply (D _ _ Ho Ha) in E.
    destruct (Hentries env o E) as (_ & Ht & Hc).
    destruct Hbad; contradiction.
Qed.

Lemma corsOrigin_decision_witness :
  corsOrigin
    (allowedOrigins
       (Some (str "http://localhost:5173" ++ ch ","
              :: str " https://app.example.com " ++ ch ","
              :: str "https://www.example.com")))
    (Some (trim (str " https://app.example.com "))) = true
  /\ corsOrigin (allowedOrigins (Some (str "http://localhost:5173")))
       (Some (str "http://localhost:5173 ")) = false.
Proof.
  split.
  - apply (proj1 (proj2 (proj2 (proj2 (proj2 corsOrigin_decision))))).
    + vm_compute. intuition discriminate.
    + vm_compute. discriminate.
  - apply (proj2 (proj2 (proj2 (proj2 (proj2 corsOrigin_decision))))).
    + vm_compute. discriminate.
    + discriminate.
    + left. vm_compute. discriminate.
Defined.

(* ================================================================== *)
(** * Answers without braces *)
(* ================================================================== *)

Lemma skip_ws_In (s r : jsstring) (c : char) :
  skip_ws s = c :: r -> In c s /\ forall x, In x r -> In x s.
Proof.
  intros H.
  pose proof (rest_of_dropWhile is_ws s) as [a E].
  fold (skip_ws s) in E. rewrite H in E. rewrite E. split.
  - apply in_or_app. right. now left.
  - intros x Hx. apply in_or_app. right. now right.
Qed.

(** The text of a JSON object has both braces in it. *)
Lemma parse_object_braces (s : jsstring) (m : list (jsstring * value)) :
  parse s = Some (JObject m) -> In (ch "{") s /\ In (ch "}") s.
Proof.
  unfold parse.
  destruct (parse_value _ s) as [[v r]|] eqn:E; [|discriminate].
  destruct (skip_ws r); [|discriminate].
  intros H; injection H as ->.
  cbn [parse_value] in E.
  destruct (skip_ws s) as [|c t] eqn:Es; [discriminate|].
  destruct (skip_ws_In _ _ _ Es) as [Hc Ht].
  destruct (char_eqb c (ch "[")) eqn:E1.
  { destruct (skip_ws t) as [|c' t']; [discriminate|].
    destruct (char_eqb c' (ch "]")); [discriminate|].
    apply (proj1 (proj2 (parse_value_shape _))) in E as [E _].
    discriminate E. }
  destruct (char_eqb c (ch "{")) eqn:E2.
  { apply char_eqb_eq in E2. subst c. split; [exact Hc|].
    apply Ht.
    destruct (skip_ws t) as [|c' t'] eqn:Et; [discriminate|].
    destruct (char_eqb c' (ch "}")) eqn:E3.
    - apply char_eqb_eq in E3. subst c'.
      exact (proj1 (skip_ws_In _ _ _ Et)).
    - apply (proj2 (proj2 (parse_value_shape _))) in E as [_ [body Hb]].
      rewrite Hb. apply in_or_app. right. now left. }
  destruct (char_eqb c 34%N).
  { destruct (parse_string t) as [[? ?]|]; discriminate. }
  destruct (char_eqb c (ch "t")).
  { destruct (strip_prefix (str "rue") t); discriminate. }
  destruct (char_eqb c (ch "f")).
  { destruct (strip_prefix (str "alse") t); discriminate. }
  destruct (char_eqb c (ch "n")).
  { destruct (strip_prefix (str "ull") t); discriminate. }
  destruct (parse_number (c :: t)) as [[? ?]|]; discriminate.
Qed.

(** X18.  From a text in which [{] or [}] does not occur nothing is extracted,
    unless the cleaned text is a JSON array, which is returned. *)
Theorem safeParseJsonObjectFromText_no_brace (text : jsstring) :
  ~ In (ch "{") text \/ ~ In (ch "}") text ->
  safeParseJsonObjectFromText text
  = match parse (stripCodeFences text) with
    | Some (JArray items) => Some (JArray items)
    | _ => None
    end.
Proof.
  intros H.
  assert (Hc : ~ In (ch "{") (stripCodeFences text)
               \/ ~ In (ch "}") (stripCodeFences text)).
  { destruct H as [H|H]; [left | right]; intros Hin; apply H;
      now apply stripCodeFences_In. }
  assert (Hx : match indexOf (ch "{") (stripCodeFences text),
                     lastIndexOf (ch "}") (stripCodeFences text) with
               | Some _, Some _ => False
               | _, _ => True
               end).
  { destruct Hc as [Hc|Hc].
    - now rewrite (indexOf_not_In _ _ Hc).
    - rewrite (lastIndexOf_not_In _ _ Hc).
      now destruct (indexOf (ch "{") (stripCodeFences text)). }
  unfold safeParseJsonObjectFromText. cbv zeta.
  destruct (parse (stripCodeFences text)) as [[| |x| |items|m]|] eqn:Ep;
    unfold object_like, Json.truthy, typeof_object;
    rewrite ?andb_false_r; cbn iota beta; try reflexivity;
    try (exfalso; destruct (parse_object_braces _ _ Ep) as [H1 H2];
         destruct Hc as [Hc|Hc]; contradiction);
    (destruct (indexOf (ch "{") (stripCodeFences text));
     [destruct (lastIndexOf (ch "}") (stripCodeFences text));
      [destruct Hx | reflexivity] | reflexivity]).
Qed.

Lemma safeParseJsonObjectFromText_no_brace_witness :
  safeParseJsonObjectFromText (str "No suggestions today.") = None.
Proof.
  apply (safeParseJsonObjectFromText_no_brace (str "No suggestions today.")).
  left. vm_compute. intuition discriminate.
Defined.
